(** * GraphJin query compiler core: QCode compilation and schema relationships

    A shallow embedding of [core/internal/qcode/qcode.go],
    [core/internal/qcode/fn.go] and [core/internal/sdata/schema.go], and the
    properties of the compiler stated over it.

    Go values are modelled as follows.
    - [int32]/[int] values are [Z]; the only bit arithmetic in the code (the
      packing of a field id and a parent id in one stack entry) stays inside
      the [int32] range and is written with [Z.lor], [Z.land], [Z.shiftl] and
      [Z.shiftr].
    - Structs are records, one module per struct so that Go's field names are
      kept ([Type] is spelled [Type_]); pointers that may be [nil] are
      [option]s; slices are lists; maps are [gmap]s and sets [gset]s.
    - A Go function returning [error] returns a [result]: [Ok], [Err] with the
      error text, or [Panic] for a run-time panic (index out of range, nil
      dereference).
    - In-place mutation through [*QCode] and [*Select] is explicit state
      passing. *)

From stdpp Require Import base gmap strings list pretty.
From Stdlib Require Import ZArith Lia Ascii.

#[local] Open Scope string_scope.
#[local] Open Scope list_scope.

(** ** Results of fallible Go code *)

Inductive result (A : Type) : Type :=
| Ok (a : A)
| Err (msg : string)
| Panic (msg : string).
Arguments Ok {A} a.
Arguments Err {A} msg.
Arguments Panic {A} msg.

Definition bind {A B : Type} (r : result A) (k : A -> result B) : result B :=
  match r with
  | Ok a => k a
  | Err m => Err m
  | Panic m => Panic m
  end.

Notation "x <- e ;; k" := (bind e (fun x => k))
  (at level 100, e at next level, right associativity).

(** A Go [error] value that is checked with [if err != nil { return err }]. *)
Definition check (e : option string) : result unit :=
  match e with
  | Some m => Err m
  | None => Ok tt
  end.

(** [l[i]] on a slice: a panic when [i] is out of range. *)
Definition index {A : Type} (l : list A) (i : Z) : result A :=
  if (i <? 0)%Z then Panic "index out of range"
  else match l !! Z.to_nat i with
       | Some a => Ok a
       | None => Panic "index out of range"
       end.

(** [l[i] = v] on a slice whose index is known to be in range. *)
Definition store {A : Type} (l : list A) (i : Z) (v : A) : list A :=
  <[Z.to_nat i := v]> l.

(** ** Package [sdata]: tables, columns and relationships *)

Module sdata.

Module DBColumn.
Record t : Type := mk {
  ID : Z;
  Name : string;
  Type_ : string;
  Array : bool;
  NotNull : bool;
  PrimaryKey : bool;
  UniqueKey : bool;
  FKeySchema : string;
  FKeyTable : string;
  FKeyCol : string;
  Blocked : bool;
  Table : string;
  Schema : string
}.
(** The Go zero value of the struct. *)
Definition zero : t :=
  mk 0 "" "" false false false false "" "" "" false "" "".
Definition set_FKeySchema (v : string) (r : t) : t :=
  mk (ID r) (Name r) (Type_ r) (Array r) (NotNull r) (PrimaryKey r) (UniqueKey r) v
     (FKeyTable r) (FKeyCol r) (Blocked r) (Table r) (Schema r) .
End DBColumn.

Module DBTable.
Record t : Type := mk {
  Schema : string;
  Name : string;
  Type_ : string;
  Columns : list DBColumn.t;
  PrimaryCol : DBColumn.t;
  SecondaryCol : DBColumn.t;
  FullText : list DBColumn.t;
  Blocked : bool;
  colMap : gmap string Z
}.
(** The Go zero value of the struct. *)
Definition zero : t :=
  mk "" "" "" [] DBColumn.zero DBColumn.zero [] false ∅.
End DBTable.


(** [type RelType int] *)
Inductive RelType : Type :=
| RelNone
| RelOneToOne
| RelOneToMany
| RelPolymorphic
| RelRecursive
| RelEmbedded
| RelRemote
| RelSkip.

#[global] Instance RelType_eq_dec : EqDecision RelType.
Proof. solve_decision. Defined.

Module DBRelThrough.
Record t : Type := mk {
  Ti : DBTable.t;
  ColL : DBColumn.t;
  ColR : DBColumn.t
}.
(** The Go zero value of the struct. *)
Definition zero : t :=
  mk DBTable.zero DBColumn.zero DBColumn.zero.
End DBRelThrough.

Module DBRelLeft.
Record t : Type := mk {
  Ti : DBTable.t;
  Col : DBColumn.t
}.
(** The Go zero value of the struct. *)
Definition zero : t :=
  mk DBTable.zero DBColumn.zero.
End DBRelLeft.

Module DBRelRight.
Record t : Type := mk {
  VTable : string;
  Ti : DBTable.t;
  Col : DBColumn.t
}.
(** The Go zero value of the struct. *)
Definition zero : t :=
  mk "" DBTable.zero DBColumn.zero.
End DBRelRight.

Module DBRel.
Record t : Type := mk {
  Type_ : RelType;
  Through : DBRelThrough.t;
  Left : DBRelLeft.t;
  Right : DBRelRight.t
}.
(** The Go zero value of the struct. *)
Definition zero : t :=
  mk RelNone DBRelThrough.zero DBRelLeft.zero DBRelRight.zero.
Definition set_Type_ (v : RelType) (r : t) : t :=
  mk v (Through r) (Left r) (Right r).
End DBRel.

Record nodeInfo : Type := { nodeID : Z }.

(** [DBSchema]: the catalogue and its indexes. The relationship graph with its
    edge tables ([re], [ae], [ei], [rg]) is only touched by [addToGraph], which
    is outside the files verified here; it is kept as one component [rg] of an
    arbitrary type [G]. *)
Module DBSchema.
Record t (G : Type) : Type := mk {
  typ : string;
  ver : Z;
  schema : string;
  name : string;
  tables : list DBTable.t;
  tindex : gmap string nodeInfo;
  rg : G
}.
Arguments mk {G}.
Arguments typ {G}.
Arguments ver {G}.
Arguments schema {G}.
Arguments name {G}.
Arguments tables {G}.
Arguments tindex {G}.
Arguments rg {G}.
End DBSchema.

(** [func (ti *DBTable) getColumn(name string) (DBColumn, bool)]; the pair
    [(c, false)] is [None]. *)
Definition getColumn (ti : DBTable.t) (name : string) : result (option DBColumn.t) :=
  match DBTable.colMap ti !! name with
  | Some i => c <- index (DBTable.Columns ti) i ;; Ok (Some c)
  | None => Ok None
  end.

(** [func (ti *DBTable) GetColumn(name string) (DBColumn, error)] *)
Definition GetColumn (ti : DBTable.t) (name : string) : result DBColumn.t :=
  r <- getColumn ti name ;;
  match r with
  | Some c => Ok c
  | None => Err ("column: '" +:+ DBTable.Name ti +:+ "." +:+ name +:+ "' not found")
  end.

Section AddColumnRels.
Context {G : Type}.

(** [func (s *DBSchema) addToGraph(lti, lcol, rti, rcol, rt) error], which
    inserts the edge; not in the files verified here. *)
Variable addToGraph :
  DBSchema.t G -> DBTable.t -> DBColumn.t -> DBTable.t -> DBColumn.t ->
  RelType -> result (DBSchema.t G).

(** The [switch] of [addColumnRels] that chooses the relationship type. *)
Definition fkeyRelType (t : DBTable.t) (c fc : DBColumn.t) : RelType :=
  if (DBTable.Name t =? DBColumn.FKeyTable c)%string then RelRecursive
  else if DBColumn.UniqueKey fc then RelOneToOne
  else RelOneToMany.

(** The loop of [func (s *DBSchema) addColumnRels(t DBTable) error] over
    [t.Columns]. *)
Fixpoint addColumnRels_from (s : DBSchema.t G) (t : DBTable.t)
    (cols : list DBColumn.t) : result (DBSchema.t G) :=
  match cols with
  | [] => Ok s
  | c :: cols =>
    if (DBColumn.FKeyTable c =? "")%string then addColumnRels_from s t cols
    else
      let c := if (DBColumn.FKeySchema c =? "")%string
               then DBColumn.set_FKeySchema (DBTable.Schema t) c else c in
      match DBSchema.tindex s !! (DBColumn.FKeySchema c +:+ ":" +:+ DBColumn.FKeyTable c) with
      | None =>
        Err ("foreign key table not found: " +:+ DBColumn.FKeySchema c +:+ "."
             +:+ DBColumn.FKeyTable c)
      | Some v =>
        ft <- index (DBSchema.tables s) (nodeID v) ;;
        if (DBColumn.FKeyCol c =? "")%string then addColumnRels_from s t cols
        else
          r <- getColumn ft (DBColumn.FKeyCol c) ;;
          match r with
          | None =>
            Err ("foreign key column not found: " +:+ DBColumn.FKeyTable c +:+ "."
                 +:+ DBColumn.FKeyCol c)
          | Some fc =>
            let rt := fkeyRelType t c fc in
            s <- addToGraph s t c ft fc rt ;;
            addColumnRels_from s t cols
          end
      end
  end.

Definition addColumnRels (s : DBSchema.t G) (t : DBTable.t) : result (DBSchema.t G) :=
  addColumnRels_from s t (DBTable.Columns t).
End AddColumnRels.

(** [func (s *DBSchema) DBType() string] *)
Definition DBType {G : Type} (s : DBSchema.t G) : string := DBSchema.typ s.

(** *** Observing the edges that are inserted

    To state which edges [addColumnRels] inserts, the graph component is
    instantiated with the list of insertion requests, in call order. *)
Record EdgeReq : Type := {
  lti : DBTable.t; lcol : DBColumn.t;
  rti : DBTable.t; rcol : DBColumn.t;
  rt : RelType
}.

Definition logEdge (s : DBSchema.t (list EdgeReq)) (lt : DBTable.t) (lc : DBColumn.t)
    (rt_ : DBTable.t) (rc : DBColumn.t) (ty : RelType) : result (DBSchema.t (list EdgeReq)) :=
  Ok (DBSchema.mk (DBSchema.typ s) (DBSchema.ver s) (DBSchema.schema s) (DBSchema.name s)
        (DBSchema.tables s) (DBSchema.tindex s)
        (DBSchema.rg s ++ [{| lti := lt; lcol := lc; rti := rt_; rcol := rc; rt := ty |}])).

End sdata.

(** ** Package [graph]: the parsed operation *)

(** Modelled from the spec: package [graph] (the GraphQL parser) is not among
    the files verified here. Its data is the parser contract: an operation
    carries a type tag and a flat array of fields; a field carries a dense
    id, a parent id (-1 for a root), a name, an alias, a type, arguments and
    directives; an argument has a name and a value node (string, number,
    bool, list, object or variable). The fields listed are the ones the
    compiler reads. *)
Module graph.

(** The operation tag; [OpUnknown] stands for any tag other than the three
    the compiler accepts. *)
Inductive OpType : Type := OpUnknown | OpQuery | OpSub | OpMutate.

Inductive NodeType : Type :=
| NodeStr | NodeNum | NodeBool | NodeObj | NodeList | NodeVar.

Inductive FieldType : Type :=
| FieldNone | FieldUnion | FieldMember | FieldKeyword.

#[global] Instance NodeType_eq_dec : EqDecision NodeType.
Proof. solve_decision. Defined.
#[global] Instance FieldType_eq_dec : EqDecision FieldType.
Proof. solve_decision. Defined.

(** Modelled from the spec: a value node. [Parent] is the chain of enclosing
    nodes that [setOrderByColName] walks; [Children] are the members of an
    object or a list, in the order of the query text. *)
Module Node.
#[local] Unset Elimination Schemes.
Inductive t : Type := mk {
  Type_ : NodeType;
  Name : string;
  Val : string;
  Parent : option t;
  Children : list t
}.
End Node.

Module Arg.
Record t : Type := mk {
  Name : string;
  Val : Node.t
}.
End Arg.

Module Directive.
Record t : Type := mk {
  Name : string;
  Args : list Arg.t
}.
End Directive.

Module Field.
Record t : Type := mk {
  ID : Z;
  ParentID : Z;
  Type_ : FieldType;
  Name : string;
  Alias : string;
  Args : list Arg.t;
  Directives : list Directive.t;
  Children : list Z
}.
(** The Go zero value of the struct. *)
Definition zero : t := mk 0 0 FieldNone "" "" [] [] [].
End Field.

Module Operation.
Record t : Type := mk {
  Type_ : OpType;
  Name : string;
  Fields : list Field.t
}.
End Operation.

End graph.

(** ** Package [qcode]: the data model *)

Definition maxSelectors : Z := 30.

Inductive QType : Type :=
| QTUnknown
| QTQuery
| QTSubscription
| QTMutation
| QTInsert
| QTUpdate
| QTDelete
| QTUpsert.

Inductive SelType : Type := SelTypeNone | SelTypeUnion | SelTypeMember.

Inductive SkipType : Type := SkipTypeNone | SkipTypeUserNeeded | SkipTypeRemote.

Inductive PagingType : Type := PTOffset | PTForward | PTBackward.

Inductive ExpOp : Type :=
| OpNop
| OpAnd
| OpOr
| OpNot
| OpEquals
| OpNotEquals
| OpGreaterOrEquals
| OpLesserOrEquals
| OpGreaterThan
| OpLesserThan
| OpIn
| OpNotIn
| OpLike
| OpNotLike
| OpILike
| OpNotILike
| OpSimilar
| OpNotSimilar
| OpRegex
| OpNotRegex
| OpIRegex
| OpNotIRegex
| OpContains
| OpContainedIn
| OpHasKey
| OpHasKeyAny
| OpHasKeyAll
| OpIsNull
| OpTsQuery
| OpFalse
| OpNotDistinct
| OpDistinct
| OpEqualsTrue
| OpNotEqualsTrue.

(** [ValType] and [Order] start at [iota + 1]; [ValZero] and [OrderZero] are
    the zero values of fields that were never assigned. *)
Inductive ValType : Type :=
| ValZero
| ValStr
| ValNum
| ValBool
| ValList
| ValVar
| ValNone
| ValRef.

Inductive Order : Type :=
| OrderZero
| OrderAsc
| OrderDesc
| OrderAscNullsFirst
| OrderAscNullsLast
| OrderDescNullsFirst
| OrderDescNullsLast.

#[global] Instance QType_eq_dec : EqDecision QType.
Proof. solve_decision. Defined.
#[global] Instance PagingType_eq_dec : EqDecision PagingType.
Proof. solve_decision. Defined.
#[global] Instance ExpOp_eq_dec : EqDecision ExpOp.
Proof. solve_decision. Defined.
#[global] Instance Order_eq_dec : EqDecision Order.
Proof. solve_decision. Defined.

Module Column.
Record t : Type := mk {
  Col : sdata.DBColumn.t;
  FieldName : string
}.
(** The Go zero value of the struct. *)
Definition zero : t :=
  mk sdata.DBColumn.zero "".
End Column.

(** [Exp]: a filter node. [Children] holds pointers, so a child can be nil.
    The backing array [childrenA] is not modelled. *)
Module Exp.
#[local] Unset Elimination Schemes.
Inductive t : Type := mk {
  Op : ExpOp;
  Table : string;
  Rels : list sdata.DBRel.t;
  Col : sdata.DBColumn.t;
  Type_ : ValType;
  Val : string;
  ListType : ValType;
  ListVal : list string;
  Children : list (option t);
  Path : list string
}.
(** The Go zero value of the struct. *)
Definition zero : t :=
  mk OpNop "" [] sdata.DBColumn.zero ValZero "" ValZero [] [] [].
Definition set_Op (v : ExpOp) (r : t) : t :=
  mk v (Table r) (Rels r) (Col r) (Type_ r) (Val r) (ListType r) (ListVal r) (Children r)
     (Path r) .
Definition set_Table (v : string) (r : t) : t :=
  mk (Op r) v (Rels r) (Col r) (Type_ r) (Val r) (ListType r) (ListVal r) (Children r) (Path r).
Definition set_Col (v : sdata.DBColumn.t) (r : t) : t :=
  mk (Op r) (Table r) (Rels r) v (Type_ r) (Val r) (ListType r) (ListVal r) (Children r)
     (Path r) .
Definition set_Type_ (v : ValType) (r : t) : t :=
  mk (Op r) (Table r) (Rels r) (Col r) v (Val r) (ListType r) (ListVal r) (Children r) (Path r).
Definition set_Val (v : string) (r : t) : t :=
  mk (Op r) (Table r) (Rels r) (Col r) (Type_ r) v (ListType r) (ListVal r) (Children r)
     (Path r) .
Definition set_Children (v : list (option t)) (r : t) : t :=
  mk (Op r) (Table r) (Rels r) (Col r) (Type_ r) (Val r) (ListType r) (ListVal r) v (Path r).
End Exp.

(** [type Filter struct { *Exp }]: a possibly nil expression. *)
Definition Filter : Type := option Exp.t.

Module Arg.
Record t : Type := mk {
  Val : string
}.
End Arg.

Abbreviation OrderDir := Order.

Module OrderBy.
Record t : Type := mk {
  Col : sdata.DBColumn.t;
  Order : OrderDir
}.
(** The Go zero value of the struct. *)
Definition zero : t :=
  mk sdata.DBColumn.zero OrderZero.
Definition set_Col (v : sdata.DBColumn.t) (r : t) : t :=
  mk v (Order r).
Definition set_Order (v : OrderDir) (r : t) : t :=
  mk (Col r) v.
End OrderBy.

Module Paging.
Record t : Type := mk {
  Type_ : PagingType;
  LimitVar : string;
  Limit : Z;
  OffsetVar : string;
  Offset : Z;
  Cursor : bool;
  NoLimit : bool
}.
(** The Go zero value of the struct. *)
Definition zero : t :=
  mk PTOffset "" 0 "" 0 false false.
Definition set_Type_ (v : PagingType) (r : t) : t :=
  mk v (LimitVar r) (Limit r) (OffsetVar r) (Offset r) (Cursor r) (NoLimit r).
Definition set_LimitVar (v : string) (r : t) : t :=
  mk (Type_ r) v (Limit r) (OffsetVar r) (Offset r) (Cursor r) (NoLimit r).
Definition set_Limit (v : Z) (r : t) : t :=
  mk (Type_ r) (LimitVar r) v (OffsetVar r) (Offset r) (Cursor r) (NoLimit r).
Definition set_OffsetVar (v : string) (r : t) : t :=
  mk (Type_ r) (LimitVar r) (Limit r) v (Offset r) (Cursor r) (NoLimit r).
Definition set_Offset (v : Z) (r : t) : t :=
  mk (Type_ r) (LimitVar r) (Limit r) (OffsetVar r) v (Cursor r) (NoLimit r).
Definition set_Cursor (v : bool) (r : t) : t :=
  mk (Type_ r) (LimitVar r) (Limit r) (OffsetVar r) (Offset r) v (NoLimit r).
End Paging.

Module Function.
Record t (S : Type) : Type := mk {
  Name : string;
  Sel : option S;
  Col : sdata.DBColumn.t;
  FieldName : string;
  skip : bool
}.
Arguments mk {S}.
Arguments Name {S}.
Arguments Sel {S}.
Arguments Col {S}.
Arguments FieldName {S}.
Arguments skip {S}.
Definition set_Sel {S : Type} (v : option S) (r : t S) : t S :=
  mk (Name r) v (Col r) (FieldName r) (skip r).
Definition set_Col {S : Type} (v : sdata.DBColumn.t) (r : t S) : t S :=
  mk (Name r) (Sel r) v (FieldName r) (skip r).
End Function.

Module Select.
#[local] Unset Elimination Schemes.
Inductive t : Type := mk {
  ID : Z;
  ParentID : Z;
  Type_ : SelType;
  Singular : bool;
  Typename : bool;
  Table : string;
  FieldName : string;
  Cols : list Column.t;
  BCols : list Column.t;
  ArgMap : gmap string Arg.t;
  Funcs : list (Function.t t);
  Where : Filter;
  OrderBy : list OrderBy.t;
  GroupCols : bool;
  DistinctOn : list sdata.DBColumn.t;
  Paging : Paging.t;
  Children : list Z;
  SkipRender : SkipType;
  Ti : sdata.DBTable.t;
  Rel : sdata.DBRel.t;
  Joins : list sdata.DBRel.t;
  order : Order;
  through : string
}.
(** The Go zero value of the struct. *)
Definition zero : t :=
  mk 0 0 SelTypeNone false false "" "" [] [] ∅ [] None [] false [] Paging.zero []
     SkipTypeNone sdata.DBTable.zero sdata.DBRel.zero [] OrderZero "" .
Definition set_ID (v : Z) (r : t) : t :=
  mk v (ParentID r) (Type_ r) (Singular r) (Typename r) (Table r) (FieldName r) (Cols r)
     (BCols r) (ArgMap r) (Funcs r) (Where r) (OrderBy r) (GroupCols r) (DistinctOn r)
     (Paging r) (Children r) (SkipRender r) (Ti r) (Rel r) (Joins r) (order r) (through r) .
Definition set_ParentID (v : Z) (r : t) : t :=
  mk (ID r) v (Type_ r) (Singular r) (Typename r) (Table r) (FieldName r) (Cols r) (BCols r)
     (ArgMap r) (Funcs r) (Where r) (OrderBy r) (GroupCols r) (DistinctOn r) (Paging r)
     (Children r) (SkipRender r) (Ti r) (Rel r) (Joins r) (order r) (through r) .
Definition set_Type_ (v : SelType) (r : t) : t :=
  mk (ID r) (ParentID r) v (Singular r) (Typename r) (Table r) (FieldName r) (Cols r)
     (BCols r) (ArgMap r) (Funcs r) (Where r) (OrderBy r) (GroupCols r) (DistinctOn r)
     (Paging r) (Children r) (SkipRender r) (Ti r) (Rel r) (Joins r) (order r) (through r) .
Definition set_Singular (v : bool) (r : t) : t :=
  mk (ID r) (ParentID r) (Type_ r) v (Typename r) (Table r) (FieldName r) (Cols r) (BCols r)
     (ArgMap r) (Funcs r) (Where r) (OrderBy r) (GroupCols r) (DistinctOn r) (Paging r)
     (Children r) (SkipRender r) (Ti r) (Rel r) (Joins r) (order r) (through r) .
Definition set_Table (v : string) (r : t) : t :=
  mk (ID r) (ParentID r) (Type_ r) (Singular r) (Typename r) v (FieldName r) (Cols r)
     (BCols r) (ArgMap r) (Funcs r) (Where r) (OrderBy r) (GroupCols r) (DistinctOn r)
     (Paging r) (Children r) (SkipRender r) (Ti r) (Rel r) (Joins r) (order r) (through r) .
Definition set_FieldName (v : string) (r : t) : t :=
  mk (ID r) (ParentID r) (Type_ r) (Singular r) (Typename r) (Table r) v (Cols r) (BCols r)
     (ArgMap r) (Funcs r) (Where r) (OrderBy r) (GroupCols r) (DistinctOn r) (Paging r)
     (Children r) (SkipRender r) (Ti r) (Rel r) (Joins r) (order r) (through r) .
Definition set_Cols (v : list Column.t) (r : t) : t :=
  mk (ID r) (ParentID r) (Type_ r) (Singular r) (Typename r) (Table r) (FieldName r) v
     (BCols r) (ArgMap r) (Funcs r) (Where r) (OrderBy r) (GroupCols r) (DistinctOn r)
     (Paging r) (Children r) (SkipRender r) (Ti r) (Rel r) (Joins r) (order r) (through r) .
Definition set_ArgMap (v : gmap string Arg.t) (r : t) : t :=
  mk (ID r) (ParentID r) (Type_ r) (Singular r) (Typename r) (Table r) (FieldName r)
     (Cols r) (BCols r) v (Funcs r) (Where r) (OrderBy r) (GroupCols r) (DistinctOn r)
     (Paging r) (Children r) (SkipRender r) (Ti r) (Rel r) (Joins r) (order r) (through r) .
Definition set_Where (v : Filter) (r : t) : t :=
  mk (ID r) (ParentID r) (Type_ r) (Singular r) (Typename r) (Table r) (FieldName r)
     (Cols r) (BCols r) (ArgMap r) (Funcs r) v (OrderBy r) (GroupCols r) (DistinctOn r)
     (Paging r) (Children r) (SkipRender r) (Ti r) (Rel r) (Joins r) (order r) (through r) .
Definition set_OrderBy (v : list OrderBy.t) (r : t) : t :=
  mk (ID r) (ParentID r) (Type_ r) (Singular r) (Typename r) (Table r) (FieldName r)
     (Cols r) (BCols r) (ArgMap r) (Funcs r) (Where r) v (GroupCols r) (DistinctOn r)
     (Paging r) (Children r) (SkipRender r) (Ti r) (Rel r) (Joins r) (order r) (through r) .
Definition set_DistinctOn (v : list sdata.DBColumn.t) (r : t) : t :=
  mk (ID r) (ParentID r) (Type_ r) (Singular r) (Typename r) (Table r) (FieldName r)
     (Cols r) (BCols r) (ArgMap r) (Funcs r) (Where r) (OrderBy r) (GroupCols r) v
     (Paging r) (Children r) (SkipRender r) (Ti r) (Rel r) (Joins r) (order r) (through r) .
Definition set_Paging (v : Paging.t) (r : t) : t :=
  mk (ID r) (ParentID r) (Type_ r) (Singular r) (Typename r) (Table r) (FieldName r)
     (Cols r) (BCols r) (ArgMap r) (Funcs r) (Where r) (OrderBy r) (GroupCols r)
     (DistinctOn r) v (Children r) (SkipRender r) (Ti r) (Rel r) (Joins r) (order r)
     (through r) .
Definition set_Children (v : list Z) (r : t) : t :=
  mk (ID r) (ParentID r) (Type_ r) (Singular r) (Typename r) (Table r) (FieldName r)
     (Cols r) (BCols r) (ArgMap r) (Funcs r) (Where r) (OrderBy r) (GroupCols r)
     (DistinctOn r) (Paging r) v (SkipRender r) (Ti r) (Rel r) (Joins r) (order r)
     (through r) .
Definition set_SkipRender (v : SkipType) (r : t) : t :=
  mk (ID r) (ParentID r) (Type_ r) (Singular r) (Typename r) (Table r) (FieldName r)
     (Cols r) (BCols r) (ArgMap r) (Funcs r) (Where r) (OrderBy r) (GroupCols r)
     (DistinctOn r) (Paging r) (Children r) v (Ti r) (Rel r) (Joins r) (order r) (through r)
     .
Definition set_Ti (v : sdata.DBTable.t) (r : t) : t :=
  mk (ID r) (ParentID r) (Type_ r) (Singular r) (Typename r) (Table r) (FieldName r)
     (Cols r) (BCols r) (ArgMap r) (Funcs r) (Where r) (OrderBy r) (GroupCols r)
     (DistinctOn r) (Paging r) (Children r) (SkipRender r) v (Rel r) (Joins r) (order r)
     (through r) .
Definition set_Rel (v : sdata.DBRel.t) (r : t) : t :=
  mk (ID r) (ParentID r) (Type_ r) (Singular r) (Typename r) (Table r) (FieldName r)
     (Cols r) (BCols r) (ArgMap r) (Funcs r) (Where r) (OrderBy r) (GroupCols r)
     (DistinctOn r) (Paging r) (Children r) (SkipRender r) (Ti r) v (Joins r) (order r)
     (through r) .
Definition set_Joins (v : list sdata.DBRel.t) (r : t) : t :=
  mk (ID r) (ParentID r) (Type_ r) (Singular r) (Typename r) (Table r) (FieldName r)
     (Cols r) (BCols r) (ArgMap r) (Funcs r) (Where r) (OrderBy r) (GroupCols r)
     (DistinctOn r) (Paging r) (Children r) (SkipRender r) (Ti r) (Rel r) v (order r)
     (through r) .
Definition set_order (v : Order) (r : t) : t :=
  mk (ID r) (ParentID r) (Type_ r) (Singular r) (Typename r) (Table r) (FieldName r)
     (Cols r) (BCols r) (ArgMap r) (Funcs r) (Where r) (OrderBy r) (GroupCols r)
     (DistinctOn r) (Paging r) (Children r) (SkipRender r) (Ti r) (Rel r) (Joins r) v
     (through r) .
Definition set_through (v : string) (r : t) : t :=
  mk (ID r) (ParentID r) (Type_ r) (Singular r) (Typename r) (Table r) (FieldName r)
     (Cols r) (BCols r) (ArgMap r) (Funcs r) (Where r) (OrderBy r) (GroupCols r)
     (DistinctOn r) (Paging r) (Children r) (SkipRender r) (Ti r) (Rel r) (Joins r)
     (order r) v.
End Select.

(** [type Variables map[string]json.RawMessage] *)
Definition Variables : Type := gmap string string.

(** [QCode]. [Mutates] and [MUnions] (written only by the mutation pass) and
    the [Schema] pointer are left out: their types are declared outside the
    files verified here and the select compiler never reads them. *)
Module QCode.
Record t : Type := mk {
  Type_ : QType;
  SType : QType;
  ActionVar : string;
  Selects : list Select.t;
  Vars : Variables;
  Roots : list Z;
  Remotes : Z
}.
(** The Go zero value of the struct. *)
Definition zero : t :=
  mk QTUnknown QTUnknown "" [] ∅ [] 0.
Definition set_Type_ (v : QType) (r : t) : t :=
  mk v (SType r) (ActionVar r) (Selects r) (Vars r) (Roots r) (Remotes r).
Definition set_SType (v : QType) (r : t) : t :=
  mk (Type_ r) v (ActionVar r) (Selects r) (Vars r) (Roots r) (Remotes r).
Definition set_ActionVar (v : string) (r : t) : t :=
  mk (Type_ r) (SType r) v (Selects r) (Vars r) (Roots r) (Remotes r).
Definition set_Selects (v : list Select.t) (r : t) : t :=
  mk (Type_ r) (SType r) (ActionVar r) v (Vars r) (Roots r) (Remotes r).
Definition set_Roots (v : list Z) (r : t) : t :=
  mk (Type_ r) (SType r) (ActionVar r) (Selects r) (Vars r) v (Remotes r).
Definition set_Remotes (v : Z) (r : t) : t :=
  mk (Type_ r) (SType r) (ActionVar r) (Selects r) (Vars r) (Roots r) v.
End QCode.

(** ** Collaborators outside the files verified here

    The select compiler calls into the parser, the schema graph, the role
    registry and helper passes whose code is in other files of the repository.
    They are taken as parameters, with the types of their Go signatures:
    a callee that receives [*QCode], [*Select] or the work stack returns the
    updated value. *)
Class Externals : Type := {
  (** role registry entry ([trval]) and schema path step ([sdata.TPath]) *)
  trval : Type;
  TPath : Type;
  (** [graph.Parse(query, co.c.FragmentFetcher)] *)
  Parse : string -> result graph.Operation.t;
  (** [co.s.Find(schema, name)] *)
  Find : string -> string -> result sdata.DBTable.t;
  (** [co.s.FindPath(from, to)]: Go returns both the slice and the error *)
  FindPath : string -> string -> list TPath * option string;
  (** [sdata.PathToRel] *)
  PathToRel : TPath -> sdata.DBRel.t;
  (** [co.s.DBType()] *)
  DBType : string;
  (** [co.getRole(role, field)] and the methods [isSkipped], [isBlocked],
      [limit] and [filter] of [trval] *)
  getRole : string -> string -> trval;
  trval_isSkipped : trval -> QType -> bool;
  trval_isBlocked : trval -> QType -> string -> option string;
  trval_limit : trval -> QType -> Z;
  trval_filter : trval -> QType -> option Exp.t * bool;
  (** [co.compileArgObj(ti, st, arg)] on a fresh stack *)
  compileArgObj : sdata.DBTable.t -> graph.Arg.t -> result (option Exp.t * bool);
  (** [co.compileColumns(st, op, qc, sel, field, tr)] *)
  compileColumns :
    list Z -> graph.Operation.t -> QCode.t -> Select.t -> graph.Field.t -> trval ->
    result (list Z * QCode.t * Select.t);
  (** [co.orderByIDCol(sel)] *)
  orderByIDCol : Select.t -> result Select.t;
  (** [co.compileMutation(qc, op, role)] *)
  compileMutation : QCode.t -> graph.Operation.t -> string -> result QCode.t;
  (** [flect.Singularize] *)
  Singularize : string -> string;
  (** [sel.addCol(col, base)] *)
  addCol : Select.t -> Column.t -> bool -> Select.t
}.

(** The fields of [Config] that the select compiler reads. *)
Record Config : Type := {
  DBSchema : string;
  EnableInflection : bool;
  DefaultLimit : Z
}.

Record Compiler : Type := { c : Config }.

(** Conversion to [int32], with wrap-around. *)
Definition int32 (z : Z) : Z := ((z + 2 ^ 31) mod 2 ^ 32 - 2 ^ 31)%Z.

(** ** Work stacks *)

(** Modelled from the spec: [util.StackInt32] and [util.StackInf] are not
    among the files verified here; they are the compiler's work stacks, and
    [Pop] returns the element pushed last. A stack is a list whose head is
    the top: [Push] is [cons] and [Pop] is a match on the list. *)
Definition Push {A : Type} (x : A) (st : list A) : list A := x :: st.

(** ** Filter nodes *)

(** Modelled from the spec: [newExp] and [newExpOp] are not among the files
    verified here. A new node is the zero [Exp] (operator [OpNop], no column,
    no value) with an empty [Children]; [newExpOp] also sets the operator. *)
Definition newExp : Exp.t := Exp.zero.
Definition newExpOp (op : ExpOp) : Exp.t := Exp.set_Op op newExp.

(** [append(e.Children, ch)] stored back in [e.Children]. *)
Definition addChild (ch : option Exp.t) (e : Exp.t) : Exp.t :=
  Exp.set_Children (Exp.Children e ++ [ch]) e.

(** [func setFilter(where *Filter, fil *Exp)] *)
Definition setFilter (where_ : Filter) (fil : option Exp.t) : Filter :=
  match where_ with
  | Some ow => Some (Exp.set_Children [fil; Some ow] (newExpOp OpAnd))
  | None => fil
  end.

Definition argErr (name ty : string) : string :=
  "value for argument '" +:+ name +:+ "' must be a " +:+ ty.

Definition dbArgErr (name ty db : string) : string :=
  db +:+ ": value for argument '" +:+ name +:+ "' must be a " +:+ ty.

(** [func (sel *Select) addArg(arg *graph.Arg)] *)
Definition addArg (sel : Select.t) (arg : graph.Arg.t) : Select.t :=
  Select.set_ArgMap
    (<[graph.Arg.Name arg := Arg.mk (graph.Node.Val (graph.Arg.Val arg))]> (Select.ArgMap sel))
    sel.

(** [func buildPath(a []string) string] *)
Definition buildPath (a : list string) : string :=
  match a with
  | [] => ""
  | [x] => x
  | x :: rest => fold_left (fun b s => b +:+ "." +:+ s) rest x
  end.

(** ** [strconv.ParseInt(s, 10, 32)] *)

Definition digitVal (ch : ascii) : option Z :=
  let n := Z.of_N (N_of_ascii ch) in
  if ((48 <=? n) && (n <=? 57))%Z then Some (n - 48)%Z else None.

Fixpoint parseDigits (s : string) (acc : Z) : option Z :=
  match s with
  | EmptyString => Some acc
  | String ch s' =>
    match digitVal ch with
    | Some d => parseDigits s' (10 * acc + d)%Z
    | None => None
    end
  end.

(** The double quote, for [%q] in error texts. *)
Definition dquote : string := String (ascii_of_nat 34) EmptyString.

Definition syntaxErr (s : string) : string :=
  "strconv.ParseInt: parsing " +:+ dquote +:+ s +:+ dquote +:+ ": invalid syntax".

Definition rangeErr (s : string) : string :=
  "strconv.ParseInt: parsing " +:+ dquote +:+ s +:+ dquote +:+ ": value out of range".

Definition ParseInt32 (s : string) : result Z :=
  let '(neg, body) :=
    match s with
    | String "+"%char s' => (false, s')
    | String "-"%char s' => (true, s')
    | _ => (false, s)
    end in
  match body with
  | EmptyString => Err (syntaxErr s)
  | _ =>
    match parseDigits body 0 with
    | None => Err (syntaxErr s)
    | Some v =>
      let v := if (neg : bool) then (- v)%Z else v in
      if ((v <? - 2 ^ 31) || (2 ^ 31 - 1 <? v))%Z then Err (rangeErr s) else Ok v
    end
  end.

(** ** The select compiler ([qcode.go]) *)

Section Qcode.
Context {X : Externals}.
Variable co : Compiler.

(** *** Directives *)

(** [func (co *Compiler) compileDirectiveSkip(sel *Select, d *graph.Directive) error] *)
Definition compileDirectiveSkip (sel : Select.t) (d : graph.Directive.t) : result Select.t :=
  match graph.Directive.Args d with
  | [] => Err "@skip: required argument 'if' missing"
  | arg :: _ =>
    if negb (graph.Arg.Name arg =? "if") then Err "@skip: required argument 'if' missing"
    else
      match graph.Node.Type_ (graph.Arg.Val arg) with
      | graph.NodeVar =>
        let ex := newExpOp OpNotEqualsTrue in
        let ex := Exp.set_Type_ ValVar ex in
        let ex := Exp.set_Val (graph.Node.Val (graph.Arg.Val arg)) ex in
        Ok (Select.set_Where (setFilter (Select.Where sel) (Some ex)) sel)
      | _ => Err (argErr "if" "variable")
      end
  end.

(** [func (co *Compiler) compileDirectiveInclude(sel *Select, d *graph.Directive) error] *)
Definition compileDirectiveInclude (sel : Select.t) (d : graph.Directive.t) : result Select.t :=
  match graph.Directive.Args d with
  | [] => Err "@include: required argument 'if' missing"
  | arg :: _ =>
    if negb (graph.Arg.Name arg =? "if") then Err "@include: required argument 'if' missing"
    else
      match graph.Node.Type_ (graph.Arg.Val arg) with
      | graph.NodeVar =>
        let ex := newExpOp OpEqualsTrue in
        let ex := Exp.set_Type_ ValVar ex in
        let ex := Exp.set_Val (graph.Node.Val (graph.Arg.Val arg)) ex in
        Ok (Select.set_Where (setFilter (Select.Where sel) (Some ex)) sel)
      | _ => Err (argErr "if" "variable")
      end
  end.

(** [func (co *Compiler) compileDirectiveNotRelated(sel *Select, d *graph.Directive) error] *)
Definition compileDirectiveNotRelated (sel : Select.t) (d : graph.Directive.t) : result Select.t :=
  Ok (Select.set_Rel (sdata.DBRel.set_Type_ sdata.RelSkip (Select.Rel sel)) sel).

(** [func (co *Compiler) compileDirectiveThrough(sel *Select, d *graph.Directive) error] *)
Definition compileDirectiveThrough (sel : Select.t) (d : graph.Directive.t) : result Select.t :=
  match graph.Directive.Args d with
  | [] => Err "@through: required argument 'table' missing"
  | arg :: _ =>
    if negb (graph.Arg.Name arg =? "table") then Err "@through: required argument 'table' missing"
    else
      match graph.Node.Type_ (graph.Arg.Val arg) with
      | graph.NodeStr => Ok (Select.set_through (graph.Node.Val (graph.Arg.Val arg)) sel)
      | _ => Err (argErr "table" "string")
      end
  end.

(** [func (co *Compiler) compileDirectives(qc *QCode, sel *Select, dirs []graph.Directive) error] *)
Fixpoint compileDirectives (sel : Select.t) (dirs : list graph.Directive.t) : result Select.t :=
  match dirs with
  | [] => Ok sel
  | d :: dirs =>
    let name := graph.Directive.Name d in
    sel <- (if name =? "skip" then compileDirectiveSkip sel d
            else if name =? "include" then compileDirectiveInclude sel d
            else if name =? "not_related" then compileDirectiveNotRelated sel d
            else if name =? "through" then compileDirectiveThrough sel d
            else if name =? "object" then Ok (Select.set_Singular true sel)
            else Ok sel) ;;
    compileDirectives sel dirs
  end.

(** *** Arguments *)

(** [func (co *Compiler) compileArgFind(sel *Select, arg *graph.Arg) error] *)
Definition compileArgFind (sel : Select.t) (arg : graph.Arg.t) : result Select.t :=
  match sdata.DBRel.Type_ (Select.Rel sel) with
  | sdata.RelRecursive =>
    let v := graph.Node.Val (graph.Arg.Val arg) in
    if negb (v =? "parents") && negb (v =? "children")
    then Err "find: valid values 'parents' or 'children'"
    else Ok (addArg sel arg)
  | _ => Err ("find: selector '" +:+ Select.FieldName sel +:+ "' is not recursive")
  end.

(** [func (co *Compiler) compileArgID(sel *Select, arg *graph.Arg) error] *)
Definition compileArgID (sel : Select.t) (arg : graph.Arg.t) : result Select.t :=
  let node := graph.Arg.Val arg in
  if negb (Select.ParentID sel =? -1)%Z
  then Err "argument 'id' can only be specified at the query root"
  else
    match graph.Node.Type_ node with
    | graph.NodeNum | graph.NodeStr | graph.NodeVar =>
      if sdata.DBColumn.Name (sdata.DBTable.PrimaryCol (Select.Ti sel)) =? ""
      then Err ("no primary key column defined for " +:+ Select.Table sel)
      else
        let ex := newExpOp OpEquals in
        let ex := Exp.set_Col (sdata.DBTable.PrimaryCol (Select.Ti sel)) ex in
        ex <- match graph.Node.Type_ node with
              | graph.NodeNum =>
                _ <- ParseInt32 (graph.Node.Val node) ;;
                Ok (Exp.set_Val (graph.Node.Val node) (Exp.set_Type_ ValNum ex))
              | graph.NodeStr =>
                Ok (Exp.set_Val (graph.Node.Val node) (Exp.set_Type_ ValStr ex))
              | graph.NodeVar =>
                Ok (Exp.set_Val (graph.Node.Val node) (Exp.set_Type_ ValVar ex))
              | _ => Ok ex
              end ;;
        let sel := Select.set_Where (Some ex) sel in
        let sel := Select.set_Singular true sel in
        Ok sel
    | _ => Err (argErr "id" "number, string or variable")
    end.

(** [func (co *Compiler) compileArgSearch(sel *Select, arg *graph.Arg) error] *)
Definition compileArgSearch (sel : Select.t) (arg : graph.Arg.t) : result Select.t :=
  match sdata.DBTable.FullText (Select.Ti sel) with
  | [] =>
    if DBType =? "mysql"
    then Err ("no fulltext indexes defined for table '" +:+ Select.Table sel +:+ "'")
    else Err ("no tsvector column defined on table '" +:+ Select.Table sel +:+ "'")
  | _ :: _ =>
    match graph.Node.Type_ (graph.Arg.Val arg) with
    | graph.NodeVar =>
      let ex := newExpOp OpTsQuery in
      let ex := Exp.set_Type_ ValVar ex in
      let ex := Exp.set_Val (graph.Node.Val (graph.Arg.Val arg)) ex in
      let sel := addArg sel arg in
      Ok (Select.set_Where (setFilter (Select.Where sel) (Some ex)) sel)
    | _ => Err (argErr "search" "variable")
    end
  end.

(** [func (co *Compiler) compileArgWhere(ti sdata.DBTable, sel *Select, arg *graph.Arg, role string) error] *)
Definition compileArgWhere (ti : sdata.DBTable.t) (sel : Select.t) (arg : graph.Arg.t)
    (role : string) : result Select.t :=
  r <- compileArgObj ti arg ;;
  let '(ex, nu) := r in
  let sel := if (nu : bool) && (role =? "anon")
             then Select.set_SkipRender SkipTypeUserNeeded sel else sel in
  Ok (Select.set_Where (setFilter (Select.Where sel) ex) sel).

(** The loop of [setOrderByColName] over [node], [node.Parent], ...: each
    non-empty name is put in front of the list. *)
Fixpoint nodeNames (n : graph.Node.t) (names : list string) : list string :=
  match n with
  | graph.Node.mk _ name _ parent _ =>
    let names := if name =? "" then names else name :: names in
    match parent with
    | Some p => nodeNames p names
    | None => names
    end
  end.

(** [func setOrderByColName(ti sdata.DBTable, ob *OrderBy, node *graph.Node) error] *)
Definition setOrderByColName (ti : sdata.DBTable.t) (ob : OrderBy.t) (node : graph.Node.t)
    : result OrderBy.t :=
  match nodeNames node [] with
  | [] => Ok ob
  | names =>
    col <- sdata.GetColumn ti (buildPath names) ;;
    Ok (OrderBy.set_Col col ob)
  end.

(** The [switch node.Val] of [compileArgOrderBy]. *)
Definition orderOf (val : string) : result Order :=
  if val =? "asc" then Ok OrderAsc
  else if val =? "desc" then Ok OrderDesc
  else if val =? "asc_nulls_first" then Ok OrderAscNullsFirst
  else if val =? "desc_nulls_first" then Ok OrderDescNullsFirst
  else if val =? "asc_nulls_last" then Ok OrderAscNullsLast
  else if val =? "desc_nulls_last" then Ok OrderDescNullsLast
  else Err "valid values include asc, desc, asc_nulls_first and desc_nulls_first".

(** The pop loop of [compileArgOrderBy]: [st] is the stack, [cm] the set of
    column names already in [sel.OrderBy], [obList] the entries collected so
    far. (The stack only holds nodes that were pushed from
    [arg.Val.Children], so the type assertion and nil test of the Go code
    cannot fail.) *)
Fixpoint orderByPop (ti : sdata.DBTable.t) (cm : gset string) (st : list graph.Node.t)
    (obList : list OrderBy.t) : result (list OrderBy.t) :=
  match st with
  | [] => Ok obList
  | node :: st =>
    match graph.Node.Type_ node with
    | graph.NodeStr | graph.NodeVar =>
      ord <- orderOf (graph.Node.Val node) ;;
      let ob := OrderBy.set_Order ord OrderBy.zero in
      ob <- setOrderByColName ti ob node ;;
      if bool_decide (sdata.DBColumn.Name (OrderBy.Col ob) ∈ cm)
      then Err ("duplicate column in order by: " +:+ sdata.DBColumn.Name (OrderBy.Col ob))
      else orderByPop ti cm st (obList ++ [ob])
    | _ => Err "expecting a string or variable"
    end
  end.

(** [func (co *Compiler) compileArgOrderBy(sel *Select, arg *graph.Arg) error].
    The map [cm] stays nil (empty) when [sel.OrderBy] is empty. *)
Definition compileArgOrderBy (sel : Select.t) (arg : graph.Arg.t) : result Select.t :=
  match graph.Node.Type_ (graph.Arg.Val arg) with
  | graph.NodeObj =>
    let cm : gset string :=
      fold_left (fun cm ob => {[ sdata.DBColumn.Name (OrderBy.Col ob) ]} ∪ cm)
                (Select.OrderBy sel) ∅ in
    let st := fold_left (fun st ch => Push ch st)
                        (graph.Node.Children (graph.Arg.Val arg)) [] in
    obList <- orderByPop (Select.Ti sel) cm st [] ;;
    (* for i := len(obList) - 1; i >= 0; i-- *)
    Ok (Select.set_OrderBy (Select.OrderBy sel ++ rev obList) sel)
  | _ => Err "expecting an object"
  end.

(** One [sel.Ti.GetColumn] step of [compileArgDistinctOn]. *)
Definition distinctOnCol (sel : Select.t) (name : string) : result Select.t :=
  col <- sdata.GetColumn (Select.Ti sel) name ;;
  if DBType =? "mysql"
  then Ok (Select.set_OrderBy
             (Select.OrderBy sel ++ [OrderBy.set_Col col (OrderBy.set_Order OrderAsc OrderBy.zero)])
             sel)
  else Ok (Select.set_DistinctOn (Select.DistinctOn sel ++ [col]) sel).

Fixpoint distinctOnCols (sel : Select.t) (children : list graph.Node.t) : result Select.t :=
  match children with
  | [] => Ok sel
  | cn :: children =>
    sel <- distinctOnCol sel (graph.Node.Val cn) ;;
    distinctOnCols sel children
  end.

(** [func (co *Compiler) compileArgDistinctOn(sel *Select, arg *graph.Arg) error] *)
Definition compileArgDistinctOn (sel : Select.t) (arg : graph.Arg.t) : result Select.t :=
  let node := graph.Arg.Val arg in
  match graph.Node.Type_ node with
  | graph.NodeStr =>
    sel <- distinctOnCol sel (graph.Node.Val node) ;;
    distinctOnCols sel (graph.Node.Children node)
  | graph.NodeList => distinctOnCols sel (graph.Node.Children node)
  | _ => Err "expecting a list of strings or just a string"
  end.

(** [func (co *Compiler) compileArgLimit(sel *Select, arg *graph.Arg) error] *)
Definition compileArgLimit (sel : Select.t) (arg : graph.Arg.t) : result Select.t :=
  let node := graph.Arg.Val arg in
  match graph.Node.Type_ node with
  | graph.NodeNum =>
    n <- ParseInt32 (graph.Node.Val node) ;;
    Ok (Select.set_Paging (Paging.set_Limit (int32 n) (Select.Paging sel)) sel)
  | graph.NodeVar =>
    if DBType =? "mysql" then Err (dbArgErr "limit" "number" "mysql")
    else Ok (Select.set_Paging (Paging.set_LimitVar (graph.Node.Val node) (Select.Paging sel)) sel)
  | _ => Err (argErr "limit" "number or variable")
  end.

(** [func (co *Compiler) compileArgOffset(sel *Select, arg *graph.Arg) error] *)
Definition compileArgOffset (sel : Select.t) (arg : graph.Arg.t) : result Select.t :=
  let node := graph.Arg.Val arg in
  match graph.Node.Type_ node with
  | graph.NodeNum =>
    n <- ParseInt32 (graph.Node.Val node) ;;
    Ok (Select.set_Paging (Paging.set_Offset (int32 n) (Select.Paging sel)) sel)
  | graph.NodeVar =>
    if DBType =? "mysql" then Err (dbArgErr "limit" "number" "mysql")
    else Ok (Select.set_Paging (Paging.set_OffsetVar (graph.Node.Val node) (Select.Paging sel)) sel)
  | _ => Err (argErr "offset" "number or variable")
  end.

(** [func (co *Compiler) compileArgFirstLast(sel *Select, arg *graph.Arg, order Order) error] *)
Definition compileArgFirstLast (sel : Select.t) (arg : graph.Arg.t) (order : Order)
    : result Select.t :=
  sel <- compileArgLimit sel arg ;;
  let sel := if negb (Select.Singular sel)
             then Select.set_Paging (Paging.set_Cursor true (Select.Paging sel)) sel
             else sel in
  Ok (Select.set_order order sel).

(** [func (co *Compiler) compileArgAfterBefore(sel *Select, arg *graph.Arg, pt PagingType) error] *)
Definition compileArgAfterBefore (sel : Select.t) (arg : graph.Arg.t) (pt : PagingType)
    : result Select.t :=
  let node := graph.Arg.Val arg in
  let isVar := match graph.Node.Type_ node with graph.NodeVar => true | _ => false end in
  if negb isVar || negb (graph.Node.Val node =? "cursor")
  then Err ("value for argument '" +:+ graph.Arg.Name arg
            +:+ "' must be a variable named $cursor")
  else
    let sel := Select.set_Paging (Paging.set_Type_ pt (Select.Paging sel)) sel in
    let sel := if negb (Select.Singular sel)
               then Select.set_Paging (Paging.set_Cursor true (Select.Paging sel)) sel
               else sel in
    Ok sel.

(** One iteration of the [switch arg.Name] in [compileArgs]. *)
Definition compileArg (sel : Select.t) (arg : graph.Arg.t) (role : string) : result Select.t :=
  let name := graph.Arg.Name arg in
  if name =? "id" then compileArgID sel arg
  else if name =? "search" then compileArgSearch sel arg
  else if name =? "where" then compileArgWhere (Select.Ti sel) sel arg role
  else if (name =? "orderby") || (name =? "order_by") || (name =? "order")
  then compileArgOrderBy sel arg
  else if (name =? "distinct_on") || (name =? "distinct") then compileArgDistinctOn sel arg
  else if name =? "limit" then compileArgLimit sel arg
  else if name =? "offset" then compileArgOffset sel arg
  else if name =? "first" then compileArgFirstLast sel arg OrderAsc
  else if name =? "last" then compileArgFirstLast sel arg OrderDesc
  else if name =? "after" then compileArgAfterBefore sel arg PTForward
  else if name =? "before" then compileArgAfterBefore sel arg PTBackward
  else if name =? "find" then compileArgFind sel arg
  else Ok sel.

(** [func (co *Compiler) compileArgs(qc *QCode, sel *Select, args []graph.Arg, role string) error] *)
Fixpoint compileArgs (sel : Select.t) (args : list graph.Arg.t) (role : string)
    : result Select.t :=
  match args with
  | [] => Ok sel
  | arg :: args =>
    sel <- compileArg sel arg role ;;
    compileArgs sel args role
  end.

(** [func (co *Compiler) validateSelect(sel *Select) error] *)
Definition validateSelect (sel : Select.t) : result unit :=
  match sdata.DBRel.Type_ (Select.Rel sel) with
  | sdata.RelRecursive =>
    match Select.ArgMap sel !! "find" with
    | None => Err "arguments: 'find' needed for recursive queries"
    | Some v =>
      if negb (Arg.Val v =? "parents") && negb (Arg.Val v =? "children")
      then Err "find: valid values are 'parents' and 'children'"
      else Ok tt
    end
  | _ => Ok tt
  end.

(** [func (co *Compiler) setMutationType(qc *QCode, args []graph.Arg) error];
    [setActionVar] is its closure. *)
Definition setActionVar (qc : QCode.t) (arg : graph.Arg.t) : result QCode.t :=
  match graph.Node.Type_ (graph.Arg.Val arg) with
  | graph.NodeVar => Ok (QCode.set_ActionVar (graph.Node.Val (graph.Arg.Val arg)) qc)
  | _ => Err (argErr (graph.Arg.Name arg) "variable")
  end.

Fixpoint setMutationType (qc : QCode.t) (args : list graph.Arg.t) : result QCode.t :=
  match args with
  | [] => Ok qc
  | arg :: args =>
    let name := graph.Arg.Name arg in
    if name =? "insert" then setActionVar (QCode.set_SType QTInsert qc) arg
    else if name =? "update" then setActionVar (QCode.set_SType QTUpdate qc) arg
    else if name =? "upsert" then setActionVar (QCode.set_SType QTUpsert qc) arg
    else if name =? "delete" then
      let qc := QCode.set_SType QTDelete qc in
      match graph.Node.Type_ (graph.Arg.Val arg) with
      | graph.NodeBool =>
        if graph.Node.Val (graph.Arg.Val arg) =? "false"
        then Ok (QCode.set_Type_ QTQuery qc)
        else Ok qc
      | _ => Err (argErr (graph.Arg.Name arg) "boolen")
      end
    else setMutationType qc args
  end.

(** *** Relationship binding *)

Definition relSingular (r : sdata.DBRel.t) : bool :=
  match sdata.DBRel.Type_ r with
  | sdata.RelOneToMany => negb (sdata.DBColumn.Array (sdata.DBRelRight.Col (sdata.DBRel.Right r)))
  | sdata.RelPolymorphic => true
  | _ => false
  end.

(** [func (co *Compiler) setSingular(fieldName string, sel *Select)] *)
Definition setSingular (fieldName : string) (sel : Select.t) : Select.t :=
  if Select.Singular sel then sel
  else
    let sel := if EnableInflection (c co)
               then Select.set_Singular (Singularize fieldName =? fieldName) sel
               else sel in
    if relSingular (Select.Rel sel) then Select.set_Singular true sel
    else
      match last (Select.Joins sel) with
      | None => sel
      | Some lj => if relSingular lj then Select.set_Singular true sel else sel
      end.

(** [func (co *Compiler) setLimit(tr trval, qc *QCode, sel *Select)] *)
Definition setLimit (tr : trval) (qc : QCode.t) (sel : Select.t) : Select.t :=
  let l := trval_limit tr (QCode.Type_ qc) in
  if negb (l =? 0)%Z
  then Select.set_Paging (Paging.set_Limit l (Select.Paging sel)) sel
  else if negb (DefaultLimit (c co) =? 0)%Z
  then Select.set_Paging (Paging.set_Limit (int32 (DefaultLimit (c co))) (Select.Paging sel)) sel
  else Select.set_Paging (Paging.set_Limit 20 (Select.Paging sel)) sel.

(** [func (co *Compiler) addRelInfo(op *graph.Operation, qc *QCode, sel *Select, field graph.Field) error].
    [psel] points into [qc.Selects]: the append to [psel.Children] is an
    update of [qc.Selects] at index [sel.ParentID]. *)
Definition addRelInfo (op : graph.Operation.t) (qc : QCode.t) (sel : Select.t)
    (field : graph.Field.t) : result (QCode.t * Select.t) :=
  let childF := field in
  r <- (if (Select.ParentID sel =? -1)%Z
        then Ok (QCode.set_Roots (QCode.Roots qc ++ [Select.ID sel]) qc,
                 None, graph.Field.zero)
        else
          psel <- index (QCode.Selects qc) (Select.ParentID sel) ;;
          let psel := Select.set_Children (Select.Children psel ++ [Select.ID sel]) psel in
          let qc := QCode.set_Selects
                      (store (QCode.Selects qc) (Select.ParentID sel) psel) qc in
          parentF <- index (graph.Operation.Fields op) (graph.Field.ParentID field) ;;
          Ok (qc, Some psel, parentF)) ;;
  let '(qc, psel, parentF) := r in
  r <- match graph.Field.Type_ field with
       | graph.FieldUnion =>
         let sel := Select.set_Type_ SelTypeUnion sel in
         match psel with
         | None => Err "union types are only valid with polymorphic relationships"
         | Some _ => Ok (sel, childF, parentF)
         end
       | graph.FieldMember =>
         let sel := Select.set_Type_ SelTypeMember sel in
         match psel with
         | None => Panic "nil pointer dereference"
         | Some p =>
           let sel := Select.set_Singular (Select.Singular p) sel in
           let childF := parentF in
           parentF <- index (graph.Operation.Fields op) (graph.Field.ParentID parentF) ;;
           Ok (sel, childF, parentF)
         end
       | _ => Ok (sel, childF, parentF)
       end ;;
  let '(sel, childF, parentF) := r in
  match sdata.DBRel.Type_ (Select.Rel sel) with
  | sdata.RelSkip =>
    Ok (qc, Select.set_Rel (sdata.DBRel.set_Type_ sdata.RelNone (Select.Rel sel)) sel)
  | _ =>
    sel <- (if negb (Select.ParentID sel =? -1)%Z
            then
              let '(paths, err) := FindPath (graph.Field.Name childF) (graph.Field.Name parentF) in
              _ <- check err ;;
              match paths with
              | [] => Err ("no relationship found: " +:+ graph.Field.Name childF +:+ " -> "
                           +:+ graph.Field.Name parentF)
              | p0 :: ps =>
                let sel := Select.set_Rel (PathToRel p0) sel in
                Ok (Select.set_Joins (Select.Joins sel ++ map PathToRel ps) sel)
              end
            else Ok sel) ;;
    sel <- (if (Select.ParentID sel =? -1)%Z
               || bool_decide (sdata.DBRel.Type_ (Select.Rel sel) = sdata.RelPolymorphic)
            then
              ti <- Find (DBSchema (c co)) (graph.Field.Name field) ;;
              Ok (Select.set_Ti ti sel)
            else
              Ok (Select.set_Ti (sdata.DBRelLeft.Ti (sdata.DBRel.Left (Select.Rel sel))) sel)) ;;
    if sdata.DBTable.Blocked (Select.Ti sel)
    then Err ("table: 'true' (" +:+ graph.Field.Name field +:+ ") blocked")
    else
      let sel := Select.set_Table (sdata.DBTable.Name (Select.Ti sel)) sel in
      match sdata.DBRel.Type_ (Select.Rel sel) with
      | sdata.RelRemote =>
        let sel := Select.set_Table (graph.Field.Name field) sel in
        Ok (QCode.set_Remotes (int32 (QCode.Remotes qc + 1)) qc, sel)
      | _ => Ok (qc, setSingular (graph.Field.Name field) sel)
      end
  end.

(** *** Cursor seek predicate *)

(** The leaf [f] built in the inner loop of [addSeekPredicate] for outer
    index [i], inner index [n] and order entry [ob]. *)
Definition seekLeaf (i n : nat) (ob : OrderBy.t) : Exp.t :=
  let f := newExp in
  let f := Exp.set_Type_ ValRef f in
  let f := Exp.set_Table "__cur" f in
  let f := Exp.set_Col (OrderBy.Col ob) f in
  let f := Exp.set_Val (sdata.DBColumn.Name (OrderBy.Col ob)) f in
  if (0 <? i)%nat && negb (n =? i)%nat then Exp.set_Op OpEquals f
  else if bool_decide (OrderBy.Order ob = OrderDesc) then Exp.set_Op OpLesserThan f
  else Exp.set_Op OpGreaterThan f.

(** The inner loop [for n, ob := range sel.OrderBy] with its [break]: the
    leaf goes to [and] when there is one, to [or] otherwise. *)
Fixpoint seekInner (i n : nat) (obs : list OrderBy.t) (and_ : option Exp.t) (or_ : Exp.t)
    : option Exp.t * Exp.t :=
  match obs with
  | [] => (and_, or_)
  | ob :: obs =>
    if (i <? n)%nat then (and_, or_)
    else
      let f := seekLeaf i n ob in
      match and_ with
      | Some a => seekInner i (S n) obs (Some (addChild (Some f) a)) or_
      | None => seekInner i (S n) obs None (addChild (Some f) or_)
      end
  end.

(** The outer loop [for i := 0; i < obLen; i++], with [k] iterations left. *)
Fixpoint seekOuter (k i : nat) (obs : list OrderBy.t) (and_ : option Exp.t) (or_ : Exp.t)
    : Exp.t :=
  match k with
  | O => or_
  | S k =>
    let and_ := if negb (i =? 0)%nat then Some (newExpOp OpAnd) else and_ in
    let '(and_, or_) := seekInner i 0 obs and_ or_ in
    let or_ := match and_ with
               | Some a => addChild (Some a) or_
               | None => or_
               end in
    seekOuter k (S i) obs and_ or_
  end.

(** The expression [or] that [addSeekPredicate] hands to [setFilter]: nil
    when [sel.OrderBy] is empty. *)
Definition seekPredicate (obs : list OrderBy.t) : option Exp.t :=
  match obs with
  | [] => None
  | ob0 :: _ =>
    let isnull := newExp in
    let isnull := Exp.set_Op OpIsNull isnull in
    let isnull := Exp.set_Type_ ValRef isnull in
    let isnull := Exp.set_Table "__cur" isnull in
    let isnull := Exp.set_Col (OrderBy.Col ob0) isnull in
    let isnull := Exp.set_Val "true" isnull in
    let or_ := newExp in
    let or_ := Exp.set_Op OpOr or_ in
    let or_ := addChild (Some isnull) or_ in
    Some (seekOuter (length obs) 0 obs None or_)
  end.

(** [func (co *Compiler) addSeekPredicate(sel *Select)] *)
Definition addSeekPredicate (sel : Select.t) : Select.t :=
  Select.set_Where (setFilter (Select.Where sel) (seekPredicate (Select.OrderBy sel))) sel.

(** [func addFilters(qc *QCode, where *Filter, trv trval) bool] *)
Definition addFilters (qc : QCode.t) (where_ : Filter) (trv : trval) : Filter * bool :=
  match trval_filter trv (QCode.SType qc) with
  | (Some fil, userNeeded) =>
    (match Exp.Op fil with
     | OpNop => where_
     | OpFalse => Some fil
     | _ => setFilter where_ (Some fil)
     end, userNeeded)
  | (None, _) => (where_, false)
  end.

(** *** The main loop *)

(** The body of the loop of [compileQuery] for a field that is not a cursor
    keyword: from [s1 := Select{ID: id, ParentID: parentID}] to the append
    to [qc.Selects]. It returns the stack and the QCode as updated. *)
Definition compileSelect (op : graph.Operation.t) (role : string) (st : list Z)
    (qc : QCode.t) (id parentID : Z) (field : graph.Field.t)
    : result (list Z * QCode.t) :=
  let s1 := Select.set_ParentID parentID (Select.set_ID id Select.zero) in
  let sel := s1 in
  let sel := if negb (graph.Field.Alias field =? "")
             then Select.set_FieldName (graph.Field.Alias field) sel
             else Select.set_FieldName (graph.Field.Name field) sel in
  let sel := Select.set_Children [] sel in
  sel <- compileDirectives sel (graph.Field.Directives field) ;;
  r <- addRelInfo op qc sel field ;;
  let '(qc, sel) := r in
  let tr := getRole role (graph.Field.Name field) in
  sel <- (if trval_isSkipped tr (QCode.Type_ qc)
          then Ok (Select.set_SkipRender SkipTypeUserNeeded sel)
          else
            _ <- check (trval_isBlocked tr (QCode.SType qc) (graph.Field.Name field)) ;;
            Ok sel) ;;
  let sel := setLimit tr qc sel in
  sel <- compileArgs sel (graph.Field.Args field) role ;;
  r <- compileColumns st op qc sel field tr ;;
  let '(st, qc, sel) := r in
  (* Order is important AddFilters must come after compileArgs *)
  let '(w, un) := addFilters qc (Select.Where sel) tr in
  let sel := Select.set_Where w sel in
  let sel := if (un : bool) && (role =? "anon")
             then Select.set_SkipRender SkipTypeUserNeeded sel else sel in
  sel <- (if Paging.Cursor (Select.Paging sel)
          then
            sel <- orderByIDCol sel ;;
            if negb (bool_decide (Paging.Type_ (Select.Paging sel) = PTOffset))
            then Ok (addSeekPredicate sel)
            else Ok sel
          else Ok sel) ;;
  _ <- validateSelect sel ;;
  Ok (st, QCode.set_Selects (QCode.Selects qc ++ [sel]) qc).

Definition limitErr : string :=
  "selector limit reached (" +:+ pretty maxSelectors +:+ ")".

(** The [for] loop of [compileQuery]. The stack is the list [st]; the result
    is the QCode and the final [id]. An iteration either pops a cursor
    keyword (the stack shrinks, the inner recursion) or allocates a select
    ([id] grows, the outer recursion on [fuel]); [None] is returned only if
    [fuel] runs out. *)
Fixpoint compileLoop (fuel : nat) (op : graph.Operation.t) (role : string)
    : list Z -> QCode.t -> Z -> option (result (QCode.t * Z)) :=
  fix popLoop (st : list Z) (qc : QCode.t) (id : Z) {struct st}
      : option (result (QCode.t * Z)) :=
    match st with
    | [] => Some (Ok (qc, id))
    | val :: st =>
      if (id >=? maxSelectors)%Z then Some (Err limitErr)
      else
        let fid := Z.land val 0xFFFF in
        let parentID := Z.land (Z.shiftr val 16) 0xFFFF in
        match index (graph.Operation.Fields op) fid with
        | Ok field =>
          match graph.Field.Type_ field with
          | graph.FieldKeyword => popLoop st qc id
          | _ =>
            let parentID := if (graph.Field.ParentID field =? -1)%Z then (-1)%Z
                            else parentID in
            match compileSelect op role st qc id parentID field with
            | Ok (st, qc) =>
              match fuel with
              | O => None
              | S fuel => compileLoop fuel op role st qc (int32 (id + 1))
              end
            | Err m => Some (Err m)
            | Panic m => Some (Panic m)
            end
          end
        | Err m => Some (Err m)
        | Panic m => Some (Panic m)
        end
    end.

(** The stack after [for _, f := range op.Fields] has pushed the roots. *)
Definition pushRoots (fields : list graph.Field.t) (st : list Z) : list Z :=
  fold_left
    (fun st f =>
       if (graph.Field.ParentID f =? -1)%Z
       then Push (Z.lor (graph.Field.ID f) (Z.shiftl (-1) 16)) st
       else st)
    fields st.

(** [func (co *Compiler) compileQuery(qc *QCode, op *graph.Operation, role string) error].
    The loop gets [maxSelectors] units of fuel, one per select. *)
Definition compileQuery (qc : QCode.t) (op : graph.Operation.t) (role : string)
    : option (result QCode.t) :=
  match graph.Operation.Fields op with
  | [] => Some (Err "invalid graphql no query found")
  | f0 :: _ =>
    match (match graph.Operation.Type_ op with
           | graph.OpMutate => setMutationType qc (graph.Field.Args f0)
           | _ => Ok qc
           end) with
    | Ok qc =>
      let qc := QCode.set_Selects [] qc in
      let st := pushRoots (graph.Operation.Fields op) [] in
      match compileLoop (Z.to_nat maxSelectors) op role st qc 0 with
      | Some (Ok (qc, id)) =>
        if (id =? 0)%Z then Some (Err "invalid query") else Some (Ok qc)
      | Some (Err m) => Some (Err m)
      | Some (Panic m) => Some (Panic m)
      | None => None
      end
    | Err m => Some (Err m)
    | Panic m => Some (Panic m)
    end
  end.

Definition opTypeName (t : graph.OpType) : string :=
  match t with
  | graph.OpQuery => "query"
  | graph.OpSub => "subscription"
  | graph.OpMutate => "mutation"
  | graph.OpUnknown => "unknown"
  end.

(** [func (co *Compiler) Compile(query []byte, vars Variables, role string)], which returns a [QCode] pointer and an error *)
Definition Compile (query : string) (vars : Variables) (role : string)
    : option (result QCode.t) :=
  let qc := QCode.mk QTUnknown QTQuery "" [] vars [] 0 in
  match Parse query with
  | Ok op =>
    match (match graph.Operation.Type_ op with
           | graph.OpQuery => Ok (QCode.set_Type_ QTQuery qc)
           | graph.OpSub => Ok (QCode.set_Type_ QTSubscription qc)
           | graph.OpMutate => Ok (QCode.set_Type_ QTMutation qc)
           | t => Err ("invalid operation: " +:+ opTypeName t)
           end) with
    | Ok qc =>
      match compileQuery qc op role with
      | Some (Ok qc) =>
        match QCode.Type_ qc with
        | QTMutation => Some (compileMutation qc op role)
        | _ => Some (Ok qc)
        end
      | r => r
      end
    | Err m => Some (Err m)
    | Panic m => Some (Panic m)
    end
  | Err m => Some (Err m)
  | Panic m => Some (Panic m)
  end.

(** ** Aggregate fields ([fn.go]) *)

(** [strings.Split(s, sep)] for a non-empty [sep]; [skip] counts the
    characters of a separator that are still to be dropped and [cur] is the
    part being read. *)
Fixpoint splitFrom (sep s : string) (skip : nat) (cur : string) : list string :=
  match s with
  | EmptyString => [cur]
  | String ch s' =>
    match skip with
    | S k => splitFrom sep s' k cur
    | O =>
      if String.prefix sep s
      then cur :: splitFrom sep s' (String.length sep - 1) ""
      else splitFrom sep s' 0 (cur +:+ String ch "")
    end
  end.

Definition Split (s sep : string) : list string := splitFrom sep s 0 "".

(** [func (co *Compiler) parseFuncExpression(sel *Select, fn *Function, fnExp string) error].
    The [err] that [FindPath] assigns is the one declared with [table] inside
    the [if]; the function returns the outer [err], which is still nil. *)
Definition parseFuncExpression (sel : Select.t) (fn : Function.t Select.t) (fnExp : string)
    : result (Function.t Select.t) :=
  match fnExp with
  | String "_"%char rest =>
    let parts := Split rest "__" in
    p0 <- index parts 0 ;;
    table <- Find (DBSchema (c co)) p0 ;;
    column <- (if (length parts =? 1)%nat
               then Ok (sdata.DBTable.PrimaryCol table)
               else
                 p1 <- index parts 1 ;;
                 sdata.GetColumn table p1) ;;
    let fnSel := Select.set_Table (sdata.DBTable.Name table)
                   (Select.set_ParentID (Select.ID sel) Select.zero) in
    let '(paths, err) := FindPath (sdata.DBTable.Name table) (Select.Table sel) in
    let fnSel := addCol fnSel (Column.mk column "") true in
    path0 <- index paths 0 ;;
    let fnSel := Select.set_Rel (PathToRel path0) fnSel in
    let fnSel := Select.set_Joins (Select.Joins fnSel ++ map PathToRel (tail paths)) fnSel in
    Ok (Function.set_Sel (Some fnSel) fn)
  | _ =>
    col <- sdata.GetColumn (Select.Ti sel) fnExp ;;
    Ok (Function.set_Col col fn)
  end.
End Qcode.

(** ** What is assumed of the collaborators

    The passes that receive [*QCode] or [*Select] but are not in the files at
    hand are assumed to leave alone what the select loop itself maintains:
    the operation kind, the ids and parent ids of the selects, and the
    children already recorded (a pass may add to a select, not renumber it). *)

Definition selFrame (a b : Select.t) : Prop :=
  Select.ID b = Select.ID a /\
  Select.ParentID b = Select.ParentID a /\
  (forall x : Z, x ∈ Select.Children a -> x ∈ Select.Children b).

Class ExternalsOK {X : Externals} : Prop := {
  compileColumns_frame :
    forall st op qc sel field tr st' qc' sel',
      compileColumns st op qc sel field tr = Ok (st', qc', sel') ->
      QCode.Type_ qc' = QCode.Type_ qc /\
      Forall2 selFrame (QCode.Selects qc) (QCode.Selects qc') /\
      Select.ID sel' = Select.ID sel /\
      Select.ParentID sel' = Select.ParentID sel;
  orderByIDCol_frame :
    forall sel sel',
      orderByIDCol sel = Ok sel' ->
      Select.ID sel' = Select.ID sel /\ Select.ParentID sel' = Select.ParentID sel;
  compileMutation_frame :
    forall qc op role qc',
      compileMutation qc op role = Ok qc' ->
      Forall2 selFrame (QCode.Selects qc) (QCode.Selects qc')
}.

(** ** The select loop, iteration by iteration

    A state of the loop of [compileQuery] is the work stack, the QCode and
    the next id. [loopStep] is one iteration that stays in the loop: a cursor
    keyword is dropped, or a select is compiled and appended; it is [None]
    when the iteration leaves the loop (empty stack, limit reached, error or
    panic). [loopRun n] is [n] such iterations. *)

Definition loopState : Type := list Z * QCode.t * Z.

Definition loopStep {X : Externals} (co : Compiler) (op : graph.Operation.t) (role : string)
    (s : loopState) : option loopState :=
  let '(st, qc, id) := s in
  match st with
  | [] => None
  | val :: st =>
    if (id >=? maxSelectors)%Z then None
    else
      match index (graph.Operation.Fields op) (Z.land val 0xFFFF) with
      | Ok field =>
        match graph.Field.Type_ field with
        | graph.FieldKeyword => Some (st, qc, id)
        | _ =>
          match compileSelect co op role st qc id
                  (if (graph.Field.ParentID field =? -1)%Z then (-1)%Z
                   else Z.land (Z.shiftr val 16) 0xFFFF) field with
          | Ok (st, qc) => Some (st, qc, int32 (id + 1))
          | _ => None
          end
        end
      | _ => None
      end
  end.

Fixpoint loopRun {X : Externals} (co : Compiler) (op : graph.Operation.t) (role : string)
    (n : nat) (s : loopState) : option loopState :=
  match n with
  | O => Some s
  | S n =>
    match loopStep co op role s with
    | Some s => loopRun co op role n s
    | None => None
    end
  end.

(** The state in which [Compile] enters the loop of [compileQuery]: the
    QCode after the operation kind is set and [setMutationType] has run, with
    the roots pushed. *)
Definition loopEntry {X : Externals} (vars : Variables) (op : graph.Operation.t)
    : result loopState :=
  let qc := QCode.mk QTUnknown QTQuery "" [] vars [] 0 in
  qc <- match graph.Operation.Type_ op with
        | graph.OpQuery => Ok (QCode.set_Type_ QTQuery qc)
        | graph.OpSub => Ok (QCode.set_Type_ QTSubscription qc)
        | graph.OpMutate => Ok (QCode.set_Type_ QTMutation qc)
        | t => Err ("invalid operation: " +:+ opTypeName t)
        end ;;
  match graph.Operation.Fields op with
  | [] => Err "invalid graphql no query found"
  | f0 :: _ =>
    qc <- match graph.Operation.Type_ op with
          | graph.OpMutate => setMutationType qc (graph.Field.Args f0)
          | _ => Ok qc
          end ;;
    Ok (pushRoots (graph.Operation.Fields op) [], QCode.set_Selects [] qc, 0%Z)
  end.

(** The position of the argument that decides [setMutationType]: the first
    one named [insert], [update], [upsert] or [delete]. *)
Definition isMutationArg (arg : graph.Arg.t) : bool :=
  let name := graph.Arg.Name arg in
  (name =? "insert") || (name =? "update") || (name =? "upsert") || (name =? "delete").

Definition isDeleteFalse (arg : graph.Arg.t) : bool :=
  (graph.Arg.Name arg =? "delete")
  && bool_decide (graph.Node.Type_ (graph.Arg.Val arg) = graph.NodeBool)
  && (graph.Node.Val (graph.Arg.Val arg) =? "false").

(** ** Well-formed select tables

    [parentLinked l s]: [s] is a root, or its parent id is an earlier position
    of [l] whose select lists [s] among its children. [wfSelects l]: ids are
    positions and every select is linked to its parent. *)

Definition parentLinked (l : list Select.t) (s : Select.t) : Prop :=
  Select.ParentID s = (-1)%Z \/
  ((0 <= Select.ParentID s < Select.ID s)%Z /\
   exists p, l !! Z.to_nat (Select.ParentID s) = Some p /\ Select.ID s ∈ Select.Children p).

Definition wfSelects (l : list Select.t) : Prop :=
  forall (i : nat) (s : Select.t),
    l !! i = Some s -> Select.ID s = Z.of_nat i /\ parentLinked l s.

(** The invariant of the loop of [compileQuery]. *)
Definition loopInv (qc : QCode.t) (id : Z) : Prop :=
  id = Z.of_nat (length (QCode.Selects qc)) /\
  (id <= maxSelectors)%Z /\
  wfSelects (QCode.Selects qc).

Definition sameKey (a b : Select.t) : Prop :=
  Select.ID b = Select.ID a /\ Select.ParentID b = Select.ParentID a.

(** ** Foreign-key edges, as the relationship rules state them *)

(** A column carries a foreign-key target. *)
Definition hasFKey (c : sdata.DBColumn.t) : bool :=
  negb (sdata.DBColumn.FKeyTable c =? "") && negb (sdata.DBColumn.FKeyCol c =? "").

(** The column [c] of table [t] with the schema of its foreign-key target
    filled in: the table's own schema when the column names none. *)
Definition fkeyColumn (t : sdata.DBTable.t) (c : sdata.DBColumn.t) : sdata.DBColumn.t :=
  if sdata.DBColumn.FKeySchema c =? ""
  then sdata.DBColumn.set_FKeySchema (sdata.DBTable.Schema t) c
  else c.

(** [ft] and [fc] are the target of the foreign key that column [c] carries,
    in schema [s]: [ft] is the table that the table index of [s] holds for
    the target's schema and name, and [fc] is the column of [ft] that has
    the target's column name. *)
Definition fkeyTarget {G : Type} (s : sdata.DBSchema.t G) (c : sdata.DBColumn.t)
    (ft : sdata.DBTable.t) (fc : sdata.DBColumn.t) : Prop :=
  exists v,
    sdata.DBSchema.tindex s
      !! (sdata.DBColumn.FKeySchema c +:+ ":" +:+ sdata.DBColumn.FKeyTable c) = Some v /\
    index (sdata.DBSchema.tables s) (sdata.nodeID v) = Ok ft /\
    sdata.getColumn ft (sdata.DBColumn.FKeyCol c) = Ok (Some fc).

(** [e] is the edge of column [c] of table [t]: it leaves [t] at [c] and
    arrives at the target of the foreign key of [c]. *)
Definition fkeyEdge {G : Type} (s : sdata.DBSchema.t G) (t : sdata.DBTable.t)
    (c : sdata.DBColumn.t) (e : sdata.EdgeReq) : Prop :=
  sdata.lti e = t /\
  sdata.lcol e = fkeyColumn t c /\
  fkeyTarget s (fkeyColumn t c) (sdata.rti e) (sdata.rcol e).

(** Two tables are the same table when they agree on schema and name (the
    key of the table index). *)
Definition sameTable (a b : sdata.DBTable.t) : bool :=
  (sdata.DBTable.Schema a =? sdata.DBTable.Schema b)
  && (sdata.DBTable.Name a =? sdata.DBTable.Name b).

(** The relationship type that the rules give to a foreign key of table [t]
    whose target is column [fc] of table [ft]: recursive when the target
    table equals the own table, else one-to-one when the target column is a
    unique key, else one-to-many. *)
Definition ruleRelType (t ft : sdata.DBTable.t) (fc : sdata.DBColumn.t) : sdata.RelType :=
  if sameTable ft t then sdata.RelRecursive
  else if sdata.DBColumn.UniqueKey fc then sdata.RelOneToOne
  else sdata.RelOneToMany.

(** The type of the edge [e], as [addColumnRels] decides it: by the name of
    the target table alone, then by the unique-key flag of the target
    column. *)
Definition typedByName (e : sdata.EdgeReq) : Prop :=
  (sdata.DBTable.Name (sdata.lti e) = sdata.DBColumn.FKeyTable (sdata.lcol e) ->
     sdata.rt e = sdata.RelRecursive) /\
  (sdata.DBTable.Name (sdata.lti e) <> sdata.DBColumn.FKeyTable (sdata.lcol e) ->
     sdata.DBColumn.UniqueKey (sdata.rcol e) = true -> sdata.rt e = sdata.RelOneToOne) /\
  (sdata.DBTable.Name (sdata.lti e) <> sdata.DBColumn.FKeyTable (sdata.lcol e) ->
     sdata.DBColumn.UniqueKey (sdata.rcol e) = false -> sdata.rt e = sdata.RelOneToMany).

(** The target of the edge that [addRels] inserts for the kind of table [t]:
    the table and column named by the secondary column of a [json] or
    [jsonb] table, and by the foreign key of the primary column of a
    [virtual] or [remote] table. *)
Definition kindTarget {G : Type}
    (Find : sdata.DBSchema.t G -> string -> string -> result sdata.DBTable.t)
    (s : sdata.DBSchema.t G) (t target : sdata.DBTable.t) (tc : sdata.DBColumn.t) : Prop :=
  if (sdata.DBTable.Type_ t =? "json") || (sdata.DBTable.Type_ t =? "jsonb")
  then Find s (sdata.DBColumn.Schema (sdata.DBTable.SecondaryCol t))
              (sdata.DBColumn.Table (sdata.DBTable.SecondaryCol t)) = Ok target /\
       sdata.GetColumn target (sdata.DBColumn.Name (sdata.DBTable.SecondaryCol t)) = Ok tc
  else Find s (sdata.DBColumn.FKeySchema (sdata.DBTable.PrimaryCol t))
              (sdata.DBColumn.FKeyTable (sdata.DBTable.PrimaryCol t)) = Ok target /\
       sdata.GetColumn target (sdata.DBColumn.FKeyCol (sdata.DBTable.PrimaryCol t)) = Ok tc.

(** ** Filter arguments *)


(** ** Order-by entries *)

(** [ob] is the entry that [compileArgOrderBy] builds for the member [node]
    of an [order_by] object: its direction is read from the member's value
    and its column from the member's name. *)
Definition orderEntry (ti : sdata.DBTable.t) (node : graph.Node.t) (ob : OrderBy.t) : Prop :=
  orderOf (graph.Node.Val node) = Ok (OrderBy.Order ob) /\
  setOrderByColName ti (OrderBy.set_Order (OrderBy.Order ob) OrderBy.zero) node = Ok ob.

(** ** Filters, as the properties state them *)


(** ** The seek predicate, as the cursor rule states it

    For order columns [A, B, C, ...] the rule gives the disjunction
    [(A is null) OR (A > X) OR (A = X AND B > Y) OR ...] over leaves that
    refer to the cursor row. [seekCompare] is the comparison the code picks
    for a column; [claimedCompare] is the one the rule asks for. *)

Definition cursorLeaf (op : ExpOp) (val : string) (ob : OrderBy.t) : Exp.t :=
  Exp.mk op "__cur" [] (OrderBy.Col ob) ValRef val ValZero [] [] [].

Definition isNullLeaf (ob : OrderBy.t) : Exp.t := cursorLeaf OpIsNull "true" ob.

Definition equalsLeaf (ob : OrderBy.t) : Exp.t :=
  cursorLeaf OpEquals (sdata.DBColumn.Name (OrderBy.Col ob)) ob.

Definition seekCompare (o : Order) : ExpOp :=
  match o with
  | OrderDesc => OpLesserThan
  | _ => OpGreaterThan
  end.

Definition isDescending (o : Order) : bool :=
  match o with
  | OrderDesc | OrderDescNullsFirst | OrderDescNullsLast => true
  | _ => false
  end.

Definition claimedCompare (o : Order) : ExpOp :=
  if isDescending o then OpLesserThan else OpGreaterThan.

Section SeekShape.
Variable compare : Order -> ExpOp.

Definition compareLeaf (ob : OrderBy.t) : Exp.t :=
  cursorLeaf (compare (OrderBy.Order ob)) (sdata.DBColumn.Name (OrderBy.Col ob)) ob.

(** The disjunct for the prefix [pre] followed by [ob]: the first [pre]
    columns equal their cursor values and [ob] is compared; with an empty
    prefix it is the comparison leaf itself. *)
Definition seekDisjunct (pre : list OrderBy.t) (ob : OrderBy.t) : Exp.t :=
  match pre with
  | [] => compareLeaf ob
  | _ :: _ =>
    Exp.set_Children (map (fun o => Some (equalsLeaf o)) pre ++ [Some (compareLeaf ob)])
                     (newExpOp OpAnd)
  end.

Fixpoint seekDisjuncts (pre rest : list OrderBy.t) : list (option Exp.t) :=
  match rest with
  | [] => []
  | ob :: rest => Some (seekDisjunct pre ob) :: seekDisjuncts (pre ++ [ob]) rest
  end.

Definition seekShape (obs : list OrderBy.t) : option Exp.t :=
  match obs with
  | [] => None
  | ob0 :: _ =>
    Some (Exp.set_Children (Some (isNullLeaf ob0) :: seekDisjuncts [] obs) (newExpOp OpOr))
  end.
End SeekShape.

(** The leaves that the inner loop of [addSeekPredicate] appends for outer
    index [i], starting at inner index [n]. *)
Fixpoint leavesFrom (i n : nat) (obs : list OrderBy.t) : list (option Exp.t) :=
  match obs with
  | [] => []
  | ob :: obs =>
    if (i <? n)%nat then [] else Some (seekLeaf i n ob) :: leavesFrom i (S n) obs
  end.

(** The AND node that the outer loop appends at index [j >= 1]. *)
Definition andAt (obs : list OrderBy.t) (j : nat) : option Exp.t :=
  Some (Exp.set_Children (leavesFrom j 0 obs) (newExpOp OpAnd)).

(** ** A test schema

    A small catalogue ([users], [posts] with a foreign key to [users], and
    [tags] with no relationship), stand-ins for the collaborators, and a few
    parsed queries. They are used to run the compiler on concrete queries. *)

Module TestData.
Import sdata.

Definition col (table name : string) (id : Z) (pk : bool) : DBColumn.t :=
  DBColumn.mk id name "integer" false false pk pk "" "" "" false table "public".

Definition fkcol (table name : string) (id : Z) (ft fc : string) : DBColumn.t :=
  DBColumn.mk id name "integer" false false false false "public" ft fc false table "public".

Definition users_id := col "users" "id" 0%Z true.
Definition users_name := col "users" "name" 1%Z false.
Definition posts_id := col "posts" "id" 0%Z true.
Definition posts_title := col "posts" "title" 1%Z false.
Definition posts_user_id := fkcol "posts" "user_id" 2%Z "users" "id".
Definition tags_id := col "tags" "id" 0%Z true.

Definition users : DBTable.t :=
  DBTable.mk "public" "users" "table" [users_id; users_name] users_id DBColumn.zero []
             false (<["id" := 0%Z]> (<["name" := 1%Z]> ∅)).

Definition posts : DBTable.t :=
  DBTable.mk "public" "posts" "table" [posts_id; posts_title; posts_user_id] posts_id
             DBColumn.zero [] false
             (<["id" := 0%Z]> (<["title" := 1%Z]> (<["user_id" := 2%Z]> ∅))).

Definition tags : DBTable.t :=
  DBTable.mk "public" "tags" "table" [tags_id] tags_id DBColumn.zero [] false
             (<["id" := 0%Z]> ∅).

Definition schema : DBSchema.t (list EdgeReq) :=
  DBSchema.mk "postgres" 14%Z "public" "app" [users; posts; tags]
              (<["public:users" := {| nodeID := 0%Z |}]>
                 (<["public:posts" := {| nodeID := 1%Z |}]>
                    (<["public:tags" := {| nodeID := 2%Z |}]> ∅)))
              [].

(** The edge from [posts] to [users] and its reverse. *)
Definition posts_users : DBRel.t :=
  DBRel.mk RelOneToOne DBRelThrough.zero (DBRelLeft.mk posts posts_user_id)
           (DBRelRight.mk "" users users_id).

Definition users_posts : DBRel.t :=
  DBRel.mk RelOneToMany DBRelThrough.zero (DBRelLeft.mk users users_id)
           (DBRelRight.mk "" posts posts_user_id).

Definition findTable (schema_ name : string) : result DBTable.t :=
  if name =? "users" then Ok users
  else if name =? "posts" then Ok posts
  else if name =? "tags" then Ok tags
  else Err ("table not found: " +:+ schema_ +:+ "." +:+ name).

Definition findPath (from to : string) : list DBRel.t * option string :=
  if (from =? "posts") && (to =? "users") then ([posts_users], None)
  else if (from =? "users") && (to =? "posts") then ([users_posts], None)
  else ([], Some "path not found").

(** Role policies: a role entry is its baseline filter with the needs-user
    flag. Role [anon] is denied [users] by the filter [false]; role [user]
    sees its own [posts]. *)
Definition ownPosts : Exp.t :=
  Exp.set_Val "user_id" (Exp.set_Type_ ValVar (Exp.set_Col posts_user_id (newExpOp OpEquals))).

Definition roleOf (role table : string) : option Exp.t * bool :=
  if (role =? "anon") && (table =? "users") then (Some (newExpOp OpFalse), false)
  else if (role =? "user") && (table =? "posts") then (Some ownPosts, true)
  else (None, false).

(** A [where] argument compiles to one leaf that carries the text of the
    argument's first member. *)
Definition whereLeaf (ti : DBTable.t) (arg : graph.Arg.t) : result (option Exp.t * bool) :=
  match graph.Node.Children (graph.Arg.Val arg) with
  | [] => Ok (None, false)
  | n :: _ =>
    c <- GetColumn ti (graph.Node.Name n) ;;
    Ok (Some (Exp.set_Val (graph.Node.Val n)
                (Exp.set_Type_ ValNum (Exp.set_Col c (newExpOp OpEquals)))), false)
  end.

(** Sub-fields with a selection of their own are pushed on the stack, tagged
    with the id of the select; the others are plain columns. *)
Fixpoint columnsOf (op : graph.Operation.t) (sel : Select.t) (cids : list Z) (st : list Z)
    : result (list Z * Select.t) :=
  match cids with
  | [] => Ok (st, sel)
  | cid :: cids =>
    f <- index (graph.Operation.Fields op) cid ;;
    match graph.Field.Children f with
    | _ :: _ =>
      columnsOf op sel cids (Push (Z.lor (graph.Field.ID f) (Z.shiftl (Select.ID sel) 16)) st)
    | [] =>
      c <- GetColumn (Select.Ti sel) (graph.Field.Name f) ;;
      columnsOf op (Select.set_Cols (Select.Cols sel ++ [Column.mk c (graph.Field.Name f)]) sel)
                cids st
    end
  end.

Definition columns (st : list Z) (op : graph.Operation.t) (qc : QCode.t) (sel : Select.t)
    (field : graph.Field.t) (tr : option Exp.t * bool)
    : result (list Z * QCode.t * Select.t) :=
  r <- columnsOf op sel (graph.Field.Children field) st ;;
  Ok (r.1, qc, r.2).

Definition tieBreaker (sel : Select.t) : result Select.t :=
  let idCol := DBTable.PrimaryCol (Select.Ti sel) in
  if DBColumn.Name idCol =? "" then Err ("table requires primary key: " +:+ Select.Table sel)
  else Ok (Select.set_OrderBy (Select.OrderBy sel ++ [OrderBy.mk idCol (Select.order sel)]) sel).

(** Parsed queries. *)
Definition leafNode (ty : graph.NodeType) (name val : string) (parent : graph.Node.t)
    : graph.Node.t :=
  graph.Node.mk ty name val (Some parent) [].

Definition objNode (members : list (graph.NodeType * string * string)) : graph.Node.t :=
  let top := graph.Node.mk graph.NodeObj "" "" None [] in
  graph.Node.mk graph.NodeObj "" "" None
    (map (fun m => leafNode m.1.1 m.1.2 m.2 top) members).

Definition scalar (ty : graph.NodeType) (val : string) : graph.Node.t :=
  graph.Node.mk ty "" val None [].

Definition root (id : Z) (name alias : string) (args : list graph.Arg.t)
    (dirs : list graph.Directive.t) (children : list Z) : graph.Field.t :=
  graph.Field.mk id (-1)%Z graph.FieldNone name alias args dirs children.

Definition sub (id parent : Z) (name : string) (children : list Z) : graph.Field.t :=
  graph.Field.mk id parent graph.FieldNone name "" [] [] children.

Definition q_nested : string := "{ users { id posts { id title } } }".
Definition op_nested : graph.Operation.t :=
  graph.Operation.mk graph.OpQuery ""
    [root 0%Z "users" "" [] [] [1; 2]%Z; sub 1%Z 0%Z "id" []; sub 2%Z 0%Z "posts" [3; 4]%Z;
     sub 3%Z 2%Z "id" []; sub 4%Z 2%Z "title" []].

Definition orderDup : graph.Arg.t :=
  graph.Arg.mk "order_by"
    (objNode [(graph.NodeStr, "name", "asc"); (graph.NodeStr, "name", "desc")]).

Definition q_order_dup : string := "{ users(order_by: {name: asc, name: desc}) {id} }".
Definition op_order_dup : graph.Operation.t :=
  graph.Operation.mk graph.OpQuery "" [root 0%Z "users" "" [orderDup] [] [1%Z]; sub 1%Z 0%Z "id" []].

Definition orderTwo : graph.Arg.t :=
  graph.Arg.mk "order_by"
    (objNode [(graph.NodeStr, "title", "desc"); (graph.NodeStr, "id", "asc")]).

Definition whereId : graph.Arg.t :=
  graph.Arg.mk "where" (objNode [(graph.NodeNum, "id", "1")]).

Definition q_where : string := "{ users(where: {id: 1}) { id } }".
Definition op_where : graph.Operation.t :=
  graph.Operation.mk graph.OpQuery "" [root 0%Z "users" "" [whereId] [] [1%Z]; sub 1%Z 0%Z "id" []].

Definition q_own_posts : string := "{ posts(where: {id: 1}) { id } }".
Definition op_own_posts : graph.Operation.t :=
  graph.Operation.mk graph.OpQuery "" [root 0%Z "posts" "" [whereId] [] [1%Z]; sub 1%Z 0%Z "id" []].

Definition argInsert : graph.Arg.t := graph.Arg.mk "insert" (scalar graph.NodeVar "data").
Definition argDeleteFalse : graph.Arg.t := graph.Arg.mk "delete" (scalar graph.NodeBool "false").

Definition q_delete_false : string := "mutation { users(delete: false, where: {id: 1}) { id } }".
Definition op_delete_false : graph.Operation.t :=
  graph.Operation.mk graph.OpMutate ""
    [root 0%Z "users" "" [argDeleteFalse; whereId] [] [1%Z]; sub 1%Z 0%Z "id" []].

Definition q_insert_delete : string := "mutation { users(insert: $data, delete: false) { id } }".
Definition op_insert_delete : graph.Operation.t :=
  graph.Operation.mk graph.OpMutate ""
    [root 0%Z "users" "" [argInsert; argDeleteFalse] [] [1%Z]; sub 1%Z 0%Z "id" []].

Definition orderDescNulls : graph.Arg.t :=
  graph.Arg.mk "order_by" (objNode [(graph.NodeStr, "title", "desc_nulls_first")]).
Definition argFirst : graph.Arg.t := graph.Arg.mk "first" (scalar graph.NodeNum "10").
Definition argAfter : graph.Arg.t := graph.Arg.mk "after" (scalar graph.NodeVar "cursor").

Definition q_cursor : string :=
  "{ posts(order_by: {title: desc_nulls_first}, first: 10, after: $cursor) { id } }".
Definition op_cursor : graph.Operation.t :=
  graph.Operation.mk graph.OpQuery ""
    [root 0%Z "posts" "" [orderDescNulls; argFirst; argAfter] [] [1%Z]; sub 1%Z 0%Z "id" []].

Definition orderName (name dir : string) : graph.Arg.t :=
  graph.Arg.mk name (objNode [(graph.NodeStr, "name", dir)]).

Definition q_order_twice : string :=
  "{ users(order_by: {name: asc}, orderby: {name: desc}) {id} }".
Definition op_order_twice : graph.Operation.t :=
  graph.Operation.mk graph.OpQuery ""
    [root 0%Z "users" "" [orderName "order_by" "asc"; orderName "orderby" "desc"] [] [1%Z];
     sub 1%Z 0%Z "id" []].

Definition skipDir : graph.Directive.t :=
  graph.Directive.mk "skip" [graph.Arg.mk "if" (scalar graph.NodeVar "hide")].
Definition argId : graph.Arg.t := graph.Arg.mk "id" (scalar graph.NodeNum "5").

Definition q_skip_id : string := "{ users(id: 5) @skip(if: $hide) { id } }".
Definition op_skip_id : graph.Operation.t :=
  graph.Operation.mk graph.OpQuery ""
    [root 0%Z "users" "" [argId] [skipDir] [1%Z]; sub 1%Z 0%Z "id" []].

(** A root select bound to table [ti], as [addRelInfo] leaves it. *)
Definition rootSel (ti : DBTable.t) : Select.t :=
  Select.set_Table (DBTable.Name ti)
    (Select.set_Ti ti (Select.set_ParentID (-1)%Z Select.zero)).

Definition countTags : Function.t Select.t :=
  Function.mk "count" None DBColumn.zero "count__tags" false.

(** A query with [n] root fields [u0: users { id }], [u1: users { id }], ... *)
Fixpoint manyFields (n : nat) (i : Z) : list graph.Field.t :=
  match n with
  | O => []
  | S n =>
    root (2 * i)%Z "users" ("u" +:+ pretty i) [] [] [2 * i + 1]%Z
    :: sub (2 * i + 1)%Z (2 * i)%Z "id" [] :: manyFields n (i + 1)%Z
  end.

Fixpoint manyText (n : nat) (i : Z) : string :=
  match n with
  | O => "}"
  | S n => "u" +:+ pretty i +:+ ": users { id } " +:+ manyText n (i + 1)%Z
  end.

Definition q_many (n : nat) : string := "{ " +:+ manyText n 0%Z.
Definition op_many (n : nat) : graph.Operation.t :=
  graph.Operation.mk graph.OpQuery "" (manyFields n 0%Z).

Definition parse (query : string) : result graph.Operation.t :=
  if query =? q_nested then Ok op_nested
  else if query =? q_order_dup then Ok op_order_dup
  else if query =? q_where then Ok op_where
  else if query =? q_own_posts then Ok op_own_posts
  else if query =? q_delete_false then Ok op_delete_false
  else if query =? q_insert_delete then Ok op_insert_delete
  else if query =? q_cursor then Ok op_cursor
  else if query =? q_skip_id then Ok op_skip_id
  else if query =? q_order_twice then Ok op_order_twice
  else if query =? q_many 30 then Ok (op_many 30)
  else if query =? q_many 31 then Ok (op_many 31)
  else Err "syntax error".

(** The collaborators, in the order of the fields of [Externals]. *)
#[export] Instance env : Externals :=
  Build_Externals
    (option Exp.t * bool) DBRel.t
    parse findTable findPath (fun p => p) "postgres"
    roleOf (fun _ _ => false) (fun _ _ _ => None) (fun _ _ => 0%Z) (fun tr _ => tr)
    whereLeaf columns tieBreaker (fun qc _ _ => Ok qc) (fun s => s)
    (fun sel c (_ : bool) => Select.set_Cols (Select.Cols sel ++ [c]) sel).

Definition co : Compiler := {| c := {| DBSchema := "public"; EnableInflection := false;
                                       DefaultLimit := 0%Z |} |}.

End TestData.

(** * More of the compiler

    The rest of [qcode.go] and [fn.go], and the callers of [addColumnRels] in
    [schema.go], with the same conventions as above. *)

(** ** Go strings *)

(** [len(s)] *)
Definition len (s : string) : Z := Z.of_nat (String.length s).

(** [strings.HasPrefix(s, prefix)] *)
Definition HasPrefix (s prefix : string) : bool := String.prefix prefix s.

(** [strings.HasSuffix(s, suffix)]:
    [len(s) >= len(suffix) && s[len(s)-len(suffix):] == suffix] *)
Definition HasSuffix (s suffix : string) : bool :=
  (String.length suffix <=? String.length s)%nat
  && (String.substring (String.length s - String.length suffix) (String.length suffix) s
      =? suffix).

(** [s[i]], a panic when [i] is out of range. *)
Definition byteAt (s : string) (i : Z) : result ascii :=
  if (i <? 0)%Z then Panic "index out of range"
  else match String.get (Z.to_nat i) s with
       | Some ch => Ok ch
       | None => Panic "index out of range"
       end.

(** [s[n:]], a panic when [n] is out of range. *)
Definition sliceFrom (s : string) (n : Z) : result string :=
  if ((n <? 0) || (len s <? n))%Z then Panic "slice bounds out of range"
  else Ok (String.substring (Z.to_nat n) (String.length s - Z.to_nat n) s).

(** [s[:n]], a panic when [n] is out of range. *)
Definition sliceTo (s : string) (n : Z) : result string :=
  if ((n <? 0) || (len s <? n))%Z then Panic "slice bounds out of range"
  else Ok (String.substring 0 (Z.to_nat n) s).

(** ** Operators as text *)

(** [func (t ExpOp) String() string] *)
Definition ExpOp_String (t : ExpOp) : string :=
  let v :=
    match t with
    | OpNop => "op-nop"
    | OpAnd => "op-and"
    | OpOr => "op-or"
    | OpNot => "op-not"
    | OpEquals => "op-equals"
    | OpNotEquals => "op-not-equals"
    | OpGreaterOrEquals => "op-greater-or-equals"
    | OpLesserOrEquals => "op-lesser-or-equals"
    | OpGreaterThan => "op-greater-than"
    | OpLesserThan => "op-lesser-than"
    | OpIn => "op-in"
    | OpNotIn => "op-not-in"
    | OpLike => "op-like"
    | OpNotLike => "op-not-like"
    | OpILike => "op-i-like"
    | OpNotILike => "op-not-i-like"
    | OpSimilar => "op-similar"
    | OpNotSimilar => "op-not-similar"
    | OpContains => "op-contains"
    | OpContainedIn => "op-contained-in"
    | OpHasKey => "op-has-key"
    | OpHasKeyAny => "op-has-key-any"
    | OpHasKeyAll => "op-has-key-all"
    | OpIsNull => "op-is-null"
    | OpTsQuery => "op-ts-query"
    | _ => ""
    end in
  "<" +:+ v +:+ ">".

(** The operators for which [String] has no case. *)
Definition unnamedOp (t : ExpOp) : bool :=
  match t with
  | OpRegex | OpNotRegex | OpIRegex | OpNotIRegex | OpFalse | OpNotDistinct | OpDistinct
  | OpEqualsTrue | OpNotEqualsTrue => true
  | _ => false
  end.

(** ** Role filters ([compileFilter]) *)

Section CompileFilter.
(** The entries of the [util.StackInf] that [compileFilter] shares between
    its calls of [compileArgNode]. *)
Variable StackItem : Type.
(** [graph.ParseArgValue(v, isJSON)] *)
Variable ParseArgValue : string -> bool -> result graph.Node.t.
(** [co.compileArgNode(ti, st, node, isJSON)], which returns the expression
    (possibly nil), the needs-user flag and the stack as it leaves it. *)
Variable compileArgNode :
  sdata.DBTable.t -> list StackItem -> graph.Node.t -> bool ->
  result (option Exp.t * bool * list StackItem).

(** The loop [for _, v := range filter] of [compileFilter], with the values
    of [st], [fl] and [needsUser] at the start of the iteration. *)
Fixpoint compileFilter_from (ti : sdata.DBTable.t) (isJSON : bool) (filter : list string)
    (st : list StackItem) (fl : option Exp.t) (needsUser : bool)
    : result (option Exp.t * bool) :=
  match filter with
  | [] => Ok (fl, needsUser)
  | v :: filter =>
    if v =? "false" then Ok (Some (newExpOp OpFalse), false)
    else
      node <- ParseArgValue v isJSON ;;
      r <- compileArgNode ti st node isJSON ;;
      let '(f, nu, st) := r in
      let needsUser := if (nu : bool) then true else needsUser in
      let fl := match fl with
                | None => f
                | Some _ => Some (addChild f (newExpOp OpAnd))
                end in
      compileFilter_from ti isJSON filter st fl needsUser
  end.

(** [func compileFilter(s *sdata.DBSchema, ti sdata.DBTable, filter []string, isJSON bool)],
    which returns the expression, the needs-user flag and an error. *)
Definition compileFilter (ti : sdata.DBTable.t) (filter : list string) (isJSON : bool)
    : result (option Exp.t * bool) :=
  match filter with
  | [] => Ok (Some newExp, false)
  | _ :: _ => compileFilter_from ti isJSON filter [] None false
  end.
End CompileFilter.

(** ** Function fields ([fn.go]) *)

(** [Select] with [Typename] set. *)
Definition set_Typename (v : bool) (r : Select.t) : Select.t :=
  Select.mk (Select.ID r) (Select.ParentID r) (Select.Type_ r) (Select.Singular r) v
    (Select.Table r) (Select.FieldName r) (Select.Cols r) (Select.BCols r) (Select.ArgMap r)
    (Select.Funcs r) (Select.Where r) (Select.OrderBy r) (Select.GroupCols r)
    (Select.DistinctOn r) (Select.Paging r) (Select.Children r) (Select.SkipRender r)
    (Select.Ti r) (Select.Rel r) (Select.Joins r) (Select.order r) (Select.through r).

Section Functions.
(** The keys of [co.s.GetFunctions()], in the order in which the [range] over
    the map yields them (Go leaves this order unspecified). *)
Variable functions : list string.

(** The loop [for k := range co.s.GetFunctions()] of [funcPrefixLen]. *)
Fixpoint schemaPrefixLen (col : string) (ks : list string) : result Z :=
  match ks with
  | [] => Ok 0%Z
  | k :: ks =>
    let kLen := len k in
    let fnLen := len col in
    if (kLen <? fnLen)%Z then
      k0 <- byteAt k 0 ;;
      c0 <- byteAt col 0 ;;
      if Ascii.eqb k0 c0 && HasPrefix col k then
        ck <- byteAt col kLen ;;
        if Ascii.eqb ck "_" then Ok (kLen + 1)%Z else schemaPrefixLen col ks
      else schemaPrefixLen col ks
    else schemaPrefixLen col ks
  end.

(** [func (co *Compiler) funcPrefixLen(col string) int]; the result is a
    panic when [k[0]] is taken of an empty function name. *)
Definition funcPrefixLen (col : string) : result Z :=
  if HasPrefix col "avg_" then Ok 4%Z
  else if HasPrefix col "count_" then Ok 6%Z
  else if HasPrefix col "max_" then Ok 4%Z
  else if HasPrefix col "min_" then Ok 4%Z
  else if HasPrefix col "sum_" then Ok 4%Z
  else if HasPrefix col "stddev_" then Ok 7%Z
  else if HasPrefix col "stddev_pop_" then Ok 11%Z
  else if HasPrefix col "stddev_samp_" then Ok 12%Z
  else if HasPrefix col "variance_" then Ok 9%Z
  else if HasPrefix col "var_pop_" then Ok 8%Z
  else if HasPrefix col "var_samp_" then Ok 9%Z
  else schemaPrefixLen col functions.

(** [func (co *Compiler) isFunction(sel *Select, fname string) (Function, string, bool, error)];
    the select is returned as updated. *)
Definition isFunction (sel : Select.t) (fname : string)
    : result (Select.t * Function.t Select.t * string * bool) :=
  let fn := Function.mk "" None sdata.DBColumn.zero fname false in
  if fname =? "search_rank" then
    let fn := Function.mk "search_rank" None sdata.DBColumn.zero fname false in
    match Select.ArgMap sel !! "search" with
    | None => Err ("no search defined: " +:+ fname)
    | Some _ => Ok (sel, fn, "", false)
    end
  else if HasPrefix fname "search_headline_" then
    let fn := Function.mk "search_headline" None sdata.DBColumn.zero fname false in
    fnExp <- sliceFrom fname 16 ;;
    match Select.ArgMap sel !! "search" with
    | None => Err ("no search defined: " +:+ fname)
    | Some _ => Ok (sel, fn, fnExp, false)
    end
  else if fname =? "__typename" then
    Ok (set_Typename true sel, Function.mk "" None sdata.DBColumn.zero fname true, "", false)
  else if HasSuffix fname "_cursor" then
    Ok (sel, Function.mk "" None sdata.DBColumn.zero fname true, "", false)
  else
    n <- funcPrefixLen fname ;;
    if negb (n =? 0)%Z then
      fnExp <- sliceFrom fname n ;;
      name <- sliceTo fname (n - 1) ;;
      Ok (sel, Function.mk name None sdata.DBColumn.zero fname false, fnExp, true)
    else Ok (sel, fn, "", false).
End Functions.

(** ** Callers of [addColumnRels] ([schema.go]) *)

Module schema.
Import sdata.

Section AddRels.
Context {G : Type}.
Variable addToGraph :
  DBSchema.t G -> DBTable.t -> DBColumn.t -> DBTable.t -> DBColumn.t ->
  RelType -> result (DBSchema.t G).
(** [s.Find(schema, name)], not in the files verified here. *)
Variable Find : DBSchema.t G -> string -> string -> result DBTable.t.

(** [func (s *DBSchema) addJsonRel(t DBTable) error] *)
Definition addJsonRel (s : DBSchema.t G) (t : DBTable.t) : result (DBSchema.t G) :=
  st <- Find s (DBColumn.Schema (DBTable.SecondaryCol t))
             (DBColumn.Table (DBTable.SecondaryCol t)) ;;
  sc <- GetColumn st (DBColumn.Name (DBTable.SecondaryCol t)) ;;
  addToGraph s t (DBTable.PrimaryCol t) st sc RelEmbedded.

(** [func (s *DBSchema) addPolymorphicRel(t DBTable) error] *)
Definition addPolymorphicRel (s : DBSchema.t G) (t : DBTable.t) : result (DBSchema.t G) :=
  pt <- Find s (DBColumn.FKeySchema (DBTable.PrimaryCol t))
             (DBColumn.FKeyTable (DBTable.PrimaryCol t)) ;;
  pc <- GetColumn pt (DBColumn.FKeyCol (DBTable.PrimaryCol t)) ;;
  addToGraph s t (DBTable.PrimaryCol t) pt pc RelPolymorphic.

(** [func (s *DBSchema) addRemoteRel(t DBTable) error] *)
Definition addRemoteRel (s : DBSchema.t G) (t : DBTable.t) : result (DBSchema.t G) :=
  pt <- Find s (DBColumn.FKeySchema (DBTable.PrimaryCol t))
             (DBColumn.FKeyTable (DBTable.PrimaryCol t)) ;;
  pc <- GetColumn pt (DBColumn.FKeyCol (DBTable.PrimaryCol t)) ;;
  addToGraph s t (DBTable.PrimaryCol t) pt pc RelRemote.

(** [func (s *DBSchema) addRels(t DBTable) error] *)
Definition addRels (s : DBSchema.t G) (t : DBTable.t) : result (DBSchema.t G) :=
  s <- (if (DBTable.Type_ t =? "json") || (DBTable.Type_ t =? "jsonb") then addJsonRel s t
        else if DBTable.Type_ t =? "virtual" then addPolymorphicRel s t
        else if DBTable.Type_ t =? "remote" then addRemoteRel s t
        else Ok s) ;;
  addColumnRels addToGraph s t.
End AddRels.

(** The relationship type of the edge that [addRels] inserts for the table
    type itself, if any. *)
Definition tableRelType (ty : string) : option RelType :=
  if (ty =? "json") || (ty =? "jsonb") then Some RelEmbedded
  else if ty =? "virtual" then Some RelPolymorphic
  else if ty =? "remote" then Some RelRemote
  else None.

End schema.

(** ** Roots, remote selects and what the collaborators keep of them *)

(** The ids of the selects of [l] that have no parent, in order. *)
Definition rootIDs (l : list Select.t) : list Z :=
  map Select.ID (List.filter (fun s => (Select.ParentID s =? -1)%Z) l).

Definition isRemote (s : Select.t) : bool :=
  bool_decide (sdata.DBRel.Type_ (Select.Rel s) = sdata.RelRemote).

(** The number of selects of [l] bound by a remote relationship. *)
Definition remoteCount (l : list Select.t) : Z :=
  Z.of_nat (length (List.filter isRemote l)).

(** Besides the ids (see [ExternalsOK]), the passes outside the files verified
    here are assumed to leave [QCode.Roots], [QCode.Remotes] and the
    relationship of every select as they are. *)
Definition keepsRel (a b : Select.t) : Prop := Select.Rel b = Select.Rel a.

Class ExternalsKeep {X : Externals} : Prop := {
  compileColumns_keeps :
    forall st op qc sel field tr st' qc' sel',
      compileColumns st op qc sel field tr = Ok (st', qc', sel') ->
      QCode.Roots qc' = QCode.Roots qc /\
      QCode.Remotes qc' = QCode.Remotes qc /\
      Forall2 keepsRel (QCode.Selects qc) (QCode.Selects qc') /\
      Select.Rel sel' = Select.Rel sel;
  orderByIDCol_keeps :
    forall sel sel', orderByIDCol sel = Ok sel' -> Select.Rel sel' = Select.Rel sel;
  compileMutation_keeps :
    forall qc op role qc',
      compileMutation qc op role = Ok qc' ->
      QCode.Roots qc' = QCode.Roots qc /\
      QCode.Remotes qc' = QCode.Remotes qc /\
      Forall2 keepsRel (QCode.Selects qc) (QCode.Selects qc')
}.

(** [Roots] lists the ids of the parentless selects and [Remotes] counts the
    selects bound by a remote relationship. *)
Definition rootsInv (qc : QCode.t) : Prop :=
  QCode.Roots qc = rootIDs (QCode.Selects qc) /\
  QCode.Remotes qc = remoteCount (QCode.Selects qc).

(** Every value stored under [find] has passed the test of [compileArgFind]. *)
Definition findValid (sel : Select.t) : Prop :=
  forall v, Select.ArgMap sel !! "find" = Some v ->
            Arg.Val v = "parents" \/ Arg.Val v = "children".

(** The entry that the root field [f] gets on the work stack of
    [compileQuery]: [f.ID | (-1 << 16)]. *)
Definition rootEntry (f : graph.Field.t) : Z :=
  Z.lor (graph.Field.ID f) (Z.shiftl (-1) 16).

Definition isRootField (f : graph.Field.t) : bool := (graph.Field.ParentID f =? -1)%Z.

(** The column names that [compileArgDistinctOn] looks up for the node of
    its argument: the value of a string node, then the values of the
    children. *)
Definition distinctNames (node : graph.Node.t) : list string :=
  (if bool_decide (graph.Node.Type_ node = graph.NodeStr) then [graph.Node.Val node] else [])
  ++ map graph.Node.Val (graph.Node.Children node).

(** ** More test data

    Stand-ins for the parser and the node compiler that [compileFilter]
    calls (a filter text compiles to one leaf that carries the text, and
    needs the user when the text is [$user_id]), and a list of database
    functions. *)

Module TestFilters.
Definition parseArgValue (v : string) (isJSON : bool) : result graph.Node.t :=
  if v =? "" then Err "empty filter" else Ok (TestData.scalar graph.NodeStr v).

Definition argNode (ti : sdata.DBTable.t) (st : list unit) (node : graph.Node.t)
    (isJSON : bool) : result (option Exp.t * bool * list unit) :=
  Ok (Some (Exp.set_Val (graph.Node.Val node) (newExpOp OpEquals)),
      graph.Node.Val node =? "$user_id", st).

Definition functions : list string := ["lower"; "upper"].

(** A select bound by a recursive relationship. *)
Definition recursiveSel : Select.t :=
  Select.set_Rel (sdata.DBRel.set_Type_ sdata.RelRecursive sdata.DBRel.zero)
                 (TestData.rootSel TestData.users).

Definition argFind (v : string) : graph.Arg.t :=
  graph.Arg.mk "find" (TestData.scalar graph.NodeStr v).

Definition notRelated : graph.Directive.t := graph.Directive.mk "not_related" [].

(** A table with a full-text column, and a root select bound to it. *)
Definition notes_id := TestData.col "notes" "id" 0%Z true.
Definition notes_body := TestData.col "notes" "body" 1%Z false.
Definition notes : sdata.DBTable.t :=
  sdata.DBTable.mk "public" "notes" "table" [notes_id; notes_body] notes_id
                   sdata.DBColumn.zero [notes_body] false
                   (<["id" := 0%Z]> (<["body" := 1%Z]> ∅)).

Definition argSearch : graph.Arg.t :=
  graph.Arg.mk "search" (TestData.scalar graph.NodeVar "q").

(** The catalogue lookup. *)
Definition findIn (s : sdata.DBSchema.t (list sdata.EdgeReq)) (schema_ name : string)
    : result sdata.DBTable.t :=
  TestData.findTable schema_ name.

Definition argDistinct : graph.Arg.t :=
  graph.Arg.mk "distinct_on"
    (graph.Node.mk graph.NodeList "" "" None
       [TestData.scalar graph.NodeStr "title"; TestData.scalar graph.NodeStr "id"]).
End TestFilters.

(** ** Two schemas with a table of the same name

    The accounts [auth.users] and the profiles [public.users]; a profile
    refers to its account by a foreign key. *)

Module TestSchemas.
Import sdata.

Definition auth_users_id : DBColumn.t :=
  DBColumn.mk 0%Z "id" "integer" false true true true "" "" "" false "users" "auth".

Definition auth_users : DBTable.t :=
  DBTable.mk "auth" "users" "table" [auth_users_id] auth_users_id DBColumn.zero [] false
             (<["id" := 0%Z]> ∅).

Definition users_id : DBColumn.t :=
  DBColumn.mk 0%Z "id" "integer" false true true true "" "" "" false "users" "public".

Definition users_account_id : DBColumn.t :=
  DBColumn.mk 1%Z "account_id" "integer" false true false false "auth" "users" "id" false
              "users" "public".

Definition users : DBTable.t :=
  DBTable.mk "public" "users" "table" [users_id; users_account_id] users_id DBColumn.zero []
             false (<["id" := 0%Z]> (<["account_id" := 1%Z]> ∅)).

Definition schema : DBSchema.t (list EdgeReq) :=
  DBSchema.mk "postgres" 14%Z "public" "app" [users; auth_users]
              (<["public:users" := {| nodeID := 0%Z |}]>
                 (<["auth:users" := {| nodeID := 1%Z |}]> ∅))
              [].
End TestSchemas.

(** ** The test schema with a remote table

    [payments] is served by a remote API and keyed by [users.id]; the
    relationship from [payments] to [users] is remote. The other tables,
    roles and queries are those of [TestData]; role [guest] has an empty
    filter list on [posts], for which the role registry holds the empty
    filter. *)

Module TestData2.
Import sdata.

Definition payments_id := TestData.col "payments" "id" 0%Z true.
Definition payments_user := TestData.fkcol "payments" "user_id" 1%Z "users" "id".

Definition payments : DBTable.t :=
  DBTable.mk "public" "payments" "remote" [payments_id; payments_user] payments_user
             DBColumn.zero [] false (<["id" := 0%Z]> (<["user_id" := 1%Z]> ∅)).

Definition payments_users : DBRel.t :=
  DBRel.mk RelRemote DBRelThrough.zero (DBRelLeft.mk payments payments_user)
           (DBRelRight.mk "" TestData.users TestData.users_id).

Definition findTable (schema_ name : string) : result DBTable.t :=
  if name =? "payments" then Ok payments else TestData.findTable schema_ name.

Definition findPath (from to : string) : list DBRel.t * option string :=
  if (from =? "payments") && (to =? "users") then ([payments_users], None)
  else TestData.findPath from to.

Definition roleOf (role table : string) : option Exp.t * bool :=
  if (role =? "guest") && (table =? "posts") then (Some newExp, false)
  else TestData.roleOf role table.

Definition q_remote : string := "{ users { id payments { id } } }".
Definition op_remote : graph.Operation.t :=
  graph.Operation.mk graph.OpQuery ""
    [TestData.root 0%Z "users" "" [] [] [1; 2]%Z; TestData.sub 1%Z 0%Z "id" [];
     TestData.sub 2%Z 0%Z "payments" [3%Z]; TestData.sub 3%Z 2%Z "id" []].

Definition q_where_id : string := "{ posts(where: {id: 1}, id: 5) { id } }".
Definition op_where_id : graph.Operation.t :=
  graph.Operation.mk graph.OpQuery ""
    [TestData.root 0%Z "posts" "" [TestData.whereId; TestData.argId] [] [1%Z];
     TestData.sub 1%Z 0%Z "id" []].

Definition q_where_cursor : string :=
  "{ posts(where: {id: 1}, first: 10, after: $cursor) { id } }".
Definition op_where_cursor : graph.Operation.t :=
  graph.Operation.mk graph.OpQuery ""
    [TestData.root 0%Z "posts" "" [TestData.whereId; TestData.argFirst; TestData.argAfter]
       [] [1%Z];
     TestData.sub 1%Z 0%Z "id" []].

Definition q_order_where : string :=
  "{ posts(order_by: {title: desc, id: asc}, where: {id: 1}, limit: 10) { id } }".


Definition parse (query : string) : result graph.Operation.t :=
  if query =? q_remote then Ok op_remote
  else if query =? q_where_id then Ok op_where_id
  else if query =? q_where_cursor then Ok op_where_cursor
  else TestData.parse query.

(** The collaborators, in the order of the fields of [Externals]. *)
Definition env : Externals :=
  Build_Externals
    (option Exp.t * bool) DBRel.t
    parse findTable findPath (fun p => p) "postgres"
    roleOf (fun _ _ => false) (fun _ _ _ => None) (fun _ _ => 0%Z) (fun tr _ => tr)
    TestData.whereLeaf TestData.columns TestData.tieBreaker (fun qc _ _ => Ok qc)
    (fun s => s)
    (fun sel c (_ : bool) => Select.set_Cols (Select.Cols sel ++ [c]) sel).
End TestData2.

(** * Properties *)

(** ** Tools *)

Lemma bind_Ok {A B : Type} (r : result A) (k : A -> result B) (b : B) :
  bind r k = Ok b -> exists a, r = Ok a /\ k a = Ok b.
Proof. destruct r; simpl; intros E; try discriminate. eauto. Qed.

(** Case analysis on a computation that is known to return [Ok]. *)
Ltac inv_ok :=
  repeat match goal with
  | H : Ok _ = Ok _ |- _ => inversion H; subst; clear H
  | H : Err _ = Ok _ |- _ => discriminate H
  | H : Panic _ = Ok _ |- _ => discriminate H
  | H : bind _ _ = Ok _ |- _ =>
    let a := fresh "a" in let E := fresh "E" in apply bind_Ok in H as (a & E & H)
  | H : context [if ?b then _ else _] |- _ =>
    match type of H with _ = Ok _ => destruct b eqn:? end
  | H : context [match ?x with _ => _ end] |- _ =>
    match type of H with _ = Ok _ => destruct x eqn:? end
  end.

Lemma index_Ok {A : Type} (l : list A) (i : Z) (a : A) :
  index l i = Ok a <-> (0 <= i)%Z /\ l !! Z.to_nat i = Some a.
Proof.
  unfold index. destruct (Z.ltb_spec i 0).
  - split; [discriminate | lia].
  - destruct (l !! Z.to_nat i) eqn:E; split; intros; try discriminate.
    + inv_ok. auto.
    + destruct H0 as [_ H0]. congruence.
    + destruct H0 as [_ H0]. discriminate.
Qed.

Lemma int32_small z : (- 2 ^ 31 <= z < 2 ^ 31)%Z -> int32 z = z.
Proof. intros Hz. unfold int32. rewrite Z.mod_small; lia. Qed.

(** ** Relationship types of foreign-key edges ([schema.go]) *)

Section EdgeTypes.
Import sdata.

Lemma fkeyRelType_by_name t c ft fc :
  typedByName {| lti := t; lcol := c; rti := ft; rcol := fc; rt := fkeyRelType t c fc |}.
Proof.
  unfold typedByName, fkeyRelType; simpl.
  destruct (String.eqb_spec (DBTable.Name t) (DBColumn.FKeyTable c)) as [E | E];
    destruct (DBColumn.UniqueKey fc); repeat split; congruence.
Qed.

(** The switch of [addColumnRels] gives the type of the rules unless the
    target is another table that has the name of the own table. *)
Lemma fkeyRelType_rule t c ft fc :
  sameTable ft t = (DBTable.Name t =? DBColumn.FKeyTable c) ->
  fkeyRelType t c fc = ruleRelType t ft fc.
Proof. unfold fkeyRelType, ruleRelType. intros ->. reflexivity. Qed.

Lemma fkeyColumn_keeps t c :
  DBColumn.FKeyTable (fkeyColumn t c) = DBColumn.FKeyTable c /\
  DBColumn.FKeyCol (fkeyColumn t c) = DBColumn.FKeyCol c /\
  DBColumn.Name (fkeyColumn t c) = DBColumn.Name c.
Proof. unfold fkeyColumn. destruct (DBColumn.FKeySchema c =? ""); auto. Qed.

(** The edges that the loop of [addColumnRels] records, for a schema [s]
    that has the catalogue of [s0]: one for each column with a foreign-key
    target, in order, from the column to its target. *)
Lemma addColumnRels_from_edges (s0 : DBSchema.t (list EdgeReq)) t cols : forall s s',
  DBSchema.tables s = DBSchema.tables s0 ->
  DBSchema.tindex s = DBSchema.tindex s0 ->
  addColumnRels_from logEdge s t cols = Ok s' ->
  exists es,
    DBSchema.rg s' = DBSchema.rg s ++ es /\
    Forall2 (fun c e =>
               fkeyEdge s0 t c e /\ typedByName e /\
               rt e = fkeyRelType t (lcol e) (rcol e))
            (List.filter hasFKey cols) es.
Proof.
  induction cols as [| c cols IH]; intros s s' Ht Hi E; simpl in E.
  - inversion E; subst. exists []. rewrite app_nil_r. split; [reflexivity | constructor].
  - simpl List.filter.
    destruct (DBColumn.FKeyTable c =? "") eqn:Et.
    { unfold hasFKey. rewrite Et. simpl. eauto. }
    fold (fkeyColumn t c) in E.
    destruct (fkeyColumn_keeps t c) as (Kt & Kc & Kn).
    destruct (DBSchema.tindex s !! _) as [v |] eqn:Ev; [| discriminate].
    apply bind_Ok in E as (ft & Eft & E).
    rewrite Kc in E.
    destruct (DBColumn.FKeyCol c =? "") eqn:Ec.
    { unfold hasFKey. rewrite Ec, andb_false_r. eauto. }
    apply bind_Ok in E as (r & Er & E).
    destruct r as [fc |]; [| discriminate].
    unfold logEdge in E; simpl in E.
    apply IH in E as (es & Hrg & F); [| exact Ht | exact Hi]. simpl in Hrg.
    unfold hasFKey at 1. rewrite Et, Ec. simpl.
    eexists (_ :: es). rewrite Hrg, <- app_assoc. simpl. split; [reflexivity |].
    constructor; [| exact F].
    split; [| split; [apply fkeyRelType_by_name | reflexivity]].
    unfold fkeyEdge. simpl. split; [reflexivity |]. split; [reflexivity |].
    exists v. rewrite <- Hi, <- Ht, Kc. auto.
Qed.
End EdgeTypes.

(** C7. The code at a foreign key whose target is another table of the same
    name: the profile table [public.users] refers to the account table
    [auth.users] by its column [account_id]. [addColumnRels] inserts the
    edge from [public.users.account_id] to [auth.users.id], the target that
    the table index and [getColumn] give; the target table is not the own
    table and the target column is a unique key, so that the rules type the
    edge one-to-one; the code types it recursive. *)
Theorem fkey_same_name_other_schema_typed_recursive :
  exists s' e,
    sdata.addColumnRels sdata.logEdge TestSchemas.schema TestSchemas.users = Ok s' /\
    sdata.DBSchema.rg s' = [e] /\
    fkeyEdge TestSchemas.schema TestSchemas.users TestSchemas.users_account_id e /\
    sdata.lti e = TestSchemas.users /\
    sdata.rti e = TestSchemas.auth_users /\
    sdata.rcol e = TestSchemas.auth_users_id /\
    sameTable (sdata.rti e) (sdata.lti e) = false /\
    sdata.DBColumn.UniqueKey (sdata.rcol e) = true /\
    ruleRelType (sdata.lti e) (sdata.rti e) (sdata.rcol e) = sdata.RelOneToOne /\
    sdata.rt e = sdata.RelRecursive.
Proof.
  eexists. eexists.
  split; [vm_compute; reflexivity |].
  split; [reflexivity |].
  split.
  { split; [reflexivity |]. split; [reflexivity |].
    exists {| sdata.nodeID := 1%Z |}. repeat split; reflexivity. }
  repeat (split; [reflexivity |]). reflexivity.
Qed.

(** Apart from that case the claim holds: every column with a foreign-key
    target gets one edge, in column order, from the column to its target,
    and the edge has the type of the rules whenever the name test of the
    code and the identity of the tables agree. *)
Lemma addColumnRels_edges_by_rule (s s' : sdata.DBSchema.t (list sdata.EdgeReq))
    (t : sdata.DBTable.t) :
  sdata.addColumnRels sdata.logEdge s t = Ok s' ->
  exists es,
    sdata.DBSchema.rg s' = sdata.DBSchema.rg s ++ es /\
    Forall2 (fun c e =>
               fkeyEdge s t c e /\
               (sameTable (sdata.rti e) t
                = (sdata.DBTable.Name t =? sdata.DBColumn.FKeyTable (sdata.lcol e)) ->
                sdata.rt e = ruleRelType t (sdata.rti e) (sdata.rcol e)))
            (List.filter hasFKey (sdata.DBTable.Columns t)) es.
Proof.
  unfold sdata.addColumnRels. intros E.
  apply (addColumnRels_from_edges s) in E as (es & Hrg & F); [| reflexivity ..].
  exists es. split; [exact Hrg |].
  eapply Forall2_impl; [exact F |].
  intros c e (H1 & _ & H3). split; [exact H1 |].
  intros Hs. rewrite H3. apply fkeyRelType_rule. exact Hs.
Qed.

Lemma addColumnRels_edges_by_rule_posts :
  exists s' e,
    sdata.addColumnRels sdata.logEdge TestData.schema TestData.posts = Ok s' /\
    sdata.DBSchema.rg s' = [e] /\
    sdata.rti e = TestData.users /\
    sdata.rcol e = TestData.users_id /\
    sdata.rt e = sdata.RelOneToOne /\
    sdata.rt e = ruleRelType TestData.posts (sdata.rti e) (sdata.rcol e).
Proof.
  eexists. eexists.
  split; [vm_compute; reflexivity |].
  repeat (split; [reflexivity |]). reflexivity.
Qed.

(** ** Ids and parent ids are kept by every pass over a select *)

Lemma sameKey_refl a : sameKey a a.
Proof. split; reflexivity. Qed.

Lemma sameKey_trans a b c : sameKey a b -> sameKey b c -> sameKey a c.
Proof. unfold sameKey; intuition congruence. Qed.

Ltac key_step :=
  inv_ok; unfold sameKey in *; simpl in *;
  repeat match goal with
         | |- context [if ?b then _ else _] => destruct b
         end;
  simpl in *; intuition congruence.

(** ** Frames and well-formed select tables *)

Lemma selFrame_refl a : selFrame a a.
Proof. repeat split; auto. Qed.

Lemma selFrame_trans a b c : selFrame a b -> selFrame b c -> selFrame a c.
Proof. unfold selFrame. intros (? & ? & ?) (? & ? & ?). repeat split; try congruence. auto. Qed.

Lemma selsFrame_refl l : Forall2 selFrame l l.
Proof. induction l; constructor; auto using selFrame_refl. Qed.

Lemma selsFrame_trans l1 l2 l3 :
  Forall2 selFrame l1 l2 -> Forall2 selFrame l2 l3 -> Forall2 selFrame l1 l3.
Proof.
  intros H. revert l3. induction H; intros l3 H3; inversion H3; subst; constructor.
  - eapply selFrame_trans; eauto.
  - auto.
Qed.

Lemma selsFrame_store l i p x :
  index l i = Ok p ->
  Forall2 selFrame l (store l i (Select.set_Children (Select.Children p ++ [x]) p)).
Proof.
  intros E. apply index_Ok in E as [Hi E]. unfold store.
  generalize dependent (Z.to_nat i). clear i Hi.
  induction l as [| a l IH]; intros n E; destruct n; simpl in *; try discriminate.
  - inversion E; subst. constructor; [| apply selsFrame_refl].
    repeat split; simpl; auto. intros y Hy. apply elem_of_app. auto.
  - constructor; [apply selFrame_refl | auto].
Qed.

Lemma wfSelects_frame l l' : wfSelects l -> Forall2 selFrame l l' -> wfSelects l'.
Proof.
  intros W F i s' Hs'.
  destruct (Forall2_lookup_r _ _ _ _ _ F Hs') as (s & Hs & (E1 & E2 & E3)).
  destruct (W i s Hs) as [Hid HL]. split; [congruence |].
  unfold parentLinked in *. rewrite E1, E2.
  destruct HL as [HL | (Hr & p & Hp & Hc)]; [auto | right].
  split; [exact Hr |].
  destruct (Forall2_lookup_l _ _ _ _ _ F Hp) as (p' & Hp' & (_ & _ & E3')).
  exists p'. auto.
Qed.

Lemma wfSelects_snoc l s :
  wfSelects l ->
  Select.ID s = Z.of_nat (length l) ->
  (Select.ParentID s = (-1)%Z \/
   exists p, index l (Select.ParentID s) = Ok p /\ Select.ID s ∈ Select.Children p) ->
  wfSelects (l ++ [s]).
Proof.
  intros W Hid HP i x Hx.
  apply lookup_app_Some in Hx as [Hx | [Hlen Hx]].
  - destruct (W i x Hx) as [Hi HL]. split; [exact Hi |].
    destruct HL as [HL | (Hr & p & Hp & Hc)]; [left; auto | right].
    split; [exact Hr |]. exists p. split; [| exact Hc].
    apply lookup_app_l_Some. exact Hp.
  - destruct (i - length l)%nat eqn:Ei; simpl in Hx; [| destruct n; discriminate].
    inversion Hx; subst x. split; [rewrite Hid; f_equal; lia |].
    destruct HP as [HP | (p & Hp & Hc)]; [left; auto | right].
    apply index_Ok in Hp as [H0 Hp].
    pose proof (lookup_lt_Some _ _ _ Hp) as Hlt.
    split; [rewrite Hid; lia |].
    exists p. split; [| exact Hc]. apply lookup_app_l_Some. exact Hp.
Qed.

Section Keys.
Context {X : Externals}.
Variable co : Compiler.

Lemma compileDirectives_key dirs : forall sel sel',
  compileDirectives sel dirs = Ok sel' -> sameKey sel sel'.
Proof.
  induction dirs as [| d dirs IH]; intros sel sel' E; simpl in E.
  - inv_ok. apply sameKey_refl.
  - apply bind_Ok in E as (s1 & E1 & E). apply IH in E.
    apply sameKey_trans with s1; [| exact E]. clear E IH.
    unfold compileDirectiveSkip, compileDirectiveInclude, compileDirectiveNotRelated,
      compileDirectiveThrough in E1.
    key_step.
Qed.

Lemma distinctOnCol_key sel name sel' :
  distinctOnCol sel name = Ok sel' -> sameKey sel sel'.
Proof. unfold distinctOnCol. intros E. key_step. Qed.

Lemma distinctOnCols_key children : forall sel sel',
  distinctOnCols sel children = Ok sel' -> sameKey sel sel'.
Proof.
  induction children as [| cn children IH]; intros sel sel' E; simpl in E.
  - inv_ok. apply sameKey_refl.
  - apply bind_Ok in E as (s1 & E1 & E).
    apply distinctOnCol_key in E1. apply IH in E. eapply sameKey_trans; eauto.
Qed.

Lemma compileArgLimit_key sel arg sel' :
  compileArgLimit sel arg = Ok sel' -> sameKey sel sel'.
Proof. unfold compileArgLimit. intros E. key_step. Qed.

Lemma compileArg_key sel arg role sel' :
  compileArg sel arg role = Ok sel' -> sameKey sel sel'.
Proof.
  unfold compileArg. intros E.
  repeat match type of E with
         | (if ?b then _ else _) = _ => destruct b
         end.
  - unfold compileArgID in E. key_step.
  - unfold compileArgSearch, addArg in E. key_step.
  - unfold compileArgWhere in E. key_step.
  - unfold compileArgOrderBy in E. key_step.
  - unfold compileArgDistinctOn in E. inv_ok.
    + apply distinctOnCol_key in E0. apply distinctOnCols_key in E.
      eapply sameKey_trans; eauto.
    + apply distinctOnCols_key in E. exact E.
  - apply compileArgLimit_key in E. exact E.
  - unfold compileArgOffset in E. key_step.
  - unfold compileArgFirstLast in E. inv_ok; apply compileArgLimit_key in E0; key_step.
  - unfold compileArgFirstLast in E. inv_ok; apply compileArgLimit_key in E0; key_step.
  - unfold compileArgAfterBefore in E. key_step.
  - unfold compileArgAfterBefore in E. key_step.
  - unfold compileArgFind, addArg in E. key_step.
  - inv_ok. apply sameKey_refl.
Qed.

Lemma compileArgs_key args role : forall sel sel',
  compileArgs sel args role = Ok sel' -> sameKey sel sel'.
Proof.
  induction args as [| arg args IH]; intros sel sel' E; simpl in E.
  - inv_ok. apply sameKey_refl.
  - apply bind_Ok in E as (s1 & E1 & E).
    apply compileArg_key in E1. apply IH in E. eapply sameKey_trans; eauto.
Qed.

Lemma setSingular_key fieldName sel : sameKey sel (setSingular co fieldName sel).
Proof.
  unfold setSingular, sameKey.
  repeat match goal with
         | |- context [if ?b then _ else _] => destruct b
         | |- context [match ?x with _ => _ end] => destruct x
         end; simpl; auto.
Qed.

Lemma setLimit_key tr qc sel : sameKey sel (setLimit co tr qc sel).
Proof.
  unfold setLimit, sameKey.
  repeat match goal with
         | |- context [if ?b then _ else _] => destruct b
         end; simpl; auto.
Qed.

Lemma addSeekPredicate_key sel : sameKey sel (addSeekPredicate sel).
Proof. unfold addSeekPredicate, sameKey. simpl. auto. Qed.

Lemma addRelInfo_spec op qc sel field qc' sel' :
  addRelInfo co op qc sel field = Ok (qc', sel') ->
  sameKey sel sel' /\
  QCode.Type_ qc' = QCode.Type_ qc /\
  ((Select.ParentID sel = (-1)%Z /\ QCode.Selects qc' = QCode.Selects qc) \/
   (Select.ParentID sel <> (-1)%Z /\
    exists p, index (QCode.Selects qc) (Select.ParentID sel) = Ok p /\
      QCode.Selects qc' =
      store (QCode.Selects qc) (Select.ParentID sel)
            (Select.set_Children (Select.Children p ++ [Select.ID sel]) p))).
Proof.
  unfold addRelInfo. intros E.
  apply bind_Ok in E as (r1 & E1 & E). destruct r1 as [[qc1 psel] parentF].
  apply bind_Ok in E as (r2 & E2 & E). destruct r2 as [[sel2 childF] parentF2].
  assert (K2 : sameKey sel sel2) by (clear E E1; key_step).
  assert (T : sameKey sel2 sel' /\ QCode.Type_ qc' = QCode.Type_ qc1 /\
              QCode.Selects qc' = QCode.Selects qc1).
  { clear E1 E2 K2.
    pose proof (setSingular_key (graph.Field.Name field)) as KS.
    destruct (sdata.DBRel.Type_ (Select.Rel sel2)) eqn:ER;
      inv_ok; unfold sameKey in *; simpl in *;
      repeat match goal with
             | |- context [setSingular co ?f ?s] =>
               destruct (KS s) as [? ?]; generalize dependent (setSingular co f s); intros
             end;
      simpl in *; intuition congruence. }
  destruct T as (K3 & T1 & T2).
  split; [eapply sameKey_trans; eauto |].
  clear E E2.
  destruct (Select.ParentID sel =? -1)%Z eqn:EP.
  - apply Z.eqb_eq in EP. inv_ok. simpl in *. rewrite T1, T2. auto.
  - apply Z.eqb_neq in EP.
    apply bind_Ok in E1 as (p & Ep & E1). apply bind_Ok in E1 as (pf & Epf & E1).
    inv_ok. simpl in *. rewrite T1, T2. split; [reflexivity|]. right. split; [exact EP|].
    exists p. auto.
Qed.

Context {OK : ExternalsOK}.

Lemma compileSelect_spec op role st qc id parentID field st' qc' :
  compileSelect co op role st qc id parentID field = Ok (st', qc') ->
  QCode.Type_ qc' = QCode.Type_ qc /\
  exists l' s,
    QCode.Selects qc' = l' ++ [s] /\
    Forall2 selFrame (QCode.Selects qc) l' /\
    Select.ID s = id /\
    Select.ParentID s = parentID /\
    (parentID = (-1)%Z \/
     exists p, index l' parentID = Ok p /\ id ∈ Select.Children p).
Proof.
  unfold compileSelect. intros E.
  set (s0 := Select.set_Children [] _) in E.
  assert (K0 : Select.ID s0 = id /\ Select.ParentID s0 = parentID).
  { subst s0. destruct (negb _); simpl; auto. }
  clearbody s0. destruct K0 as [K0a K0b].
  apply bind_Ok in E as (s1 & E1 & E). apply compileDirectives_key in E1 as [K1a K1b].
  apply bind_Ok in E as ([qc1 s2] & E2 & E).
  apply addRelInfo_spec in E2 as ([K2a K2b] & T2 & S2).
  apply bind_Ok in E as (s3 & E3 & E).
  assert (K3 : sameKey s2 s3) by (clear E; key_step). destruct K3 as [K3a K3b].
  clear E3.
  destruct (setLimit_key (getRole role (graph.Field.Name field)) qc1 s3) as [K4a K4b].
  apply bind_Ok in E as (s5 & E5 & E). apply compileArgs_key in E5 as [K5a K5b].
  apply bind_Ok in E as ([[st6 qc6] s6] & E6 & E).
  apply compileColumns_frame in E6 as (T6 & F6 & K6a & K6b).
  destruct (addFilters _ _ _) as [w un].
  set (s7 := if un && _ then _ else _) in E.
  assert (K7 : Select.ID s7 = Select.ID s6 /\ Select.ParentID s7 = Select.ParentID s6).
  { subst s7. destruct (un && _); simpl; auto. }
  clearbody s7. destruct K7 as [K7a K7b].
  apply bind_Ok in E as (s8 & E8 & E).
  assert (K8 : sameKey s7 s8).
  { clear E. destruct (Paging.Cursor (Select.Paging s7)).
    - apply bind_Ok in E8 as (s' & Eo & E8). apply orderByIDCol_frame in Eo as [? ?].
      destruct (negb _); inv_ok; unfold sameKey; simpl; auto.
    - inv_ok. apply sameKey_refl. }
  destruct K8 as [K8a K8b]. clear E8.
  apply bind_Ok in E as (u & _ & E). inversion E; subst st' qc'; clear E. simpl.
  split; [congruence |].
  assert (Kid : Select.ID s8 = id) by congruence.
  assert (Kpid : Select.ParentID s8 = parentID) by congruence.
  exists (QCode.Selects qc6), s8. split; [reflexivity |].
  assert (P1 : Select.ParentID s1 = parentID) by congruence.
  assert (I1 : Select.ID s1 = id) by congruence.
  destruct S2 as [[Hp Hs] | (Hp & p & Hidx & Hs)].
  - rewrite <- Hs. split; [exact F6 |]. repeat split; auto. left. congruence.
  - assert (F1 : Forall2 selFrame (QCode.Selects qc) (QCode.Selects qc1)).
    { rewrite Hs. apply selsFrame_store. exact Hidx. }
    split; [eapply selsFrame_trans; eauto |]. repeat split; auto. right.
    rewrite P1 in *. rewrite I1 in *.
    assert (Hq1 : index (QCode.Selects qc1) parentID
                  = Ok (Select.set_Children (Select.Children p ++ [id]) p)).
    { apply index_Ok in Hidx as [Hge Hl]. apply index_Ok. split; [exact Hge |].
      rewrite Hs. unfold store. apply list_lookup_insert_eq.
      eapply lookup_lt_Some; eauto. }
    apply index_Ok in Hq1 as [Hge Hl].
    destruct (Forall2_lookup_l _ _ _ _ _ F6 Hl) as (p' & Hp' & (_ & _ & Hc)).
    exists p'. split; [apply index_Ok; auto |].
    apply Hc. simpl. apply elem_of_app. right. apply list_elem_of_singleton. reflexivity.
Qed.
End Keys.

Section Loop.
Context {X : Externals} {OK : ExternalsOK}.
Variable co : Compiler.
Variable op : graph.Operation.t.
Variable role : string.

Lemma compileLoop_nil fuel qc id :
  compileLoop co fuel op role [] qc id = Some (Ok (qc, id)).
Proof. destruct fuel; reflexivity. Qed.

Lemma compileLoop_cons fuel val st qc id :
  compileLoop co fuel op role (val :: st) qc id =
  if (id >=? maxSelectors)%Z then Some (Err limitErr)
  else
    match index (graph.Operation.Fields op) (Z.land val 0xFFFF) with
    | Ok field =>
      match graph.Field.Type_ field with
      | graph.FieldKeyword => compileLoop co fuel op role st qc id
      | _ =>
        match compileSelect co op role st qc id
                (if (graph.Field.ParentID field =? -1)%Z then (-1)%Z
                 else Z.land (Z.shiftr val 16) 0xFFFF) field with
        | Ok (st, qc) =>
          match fuel with
          | O => None
          | S fuel => compileLoop co fuel op role st qc (int32 (id + 1))
          end
        | Err m => Some (Err m)
        | Panic m => Some (Panic m)
        end
      end
    | Err m => Some (Err m)
    | Panic m => Some (Panic m)
    end.
Proof. destruct fuel; reflexivity. Qed.

Lemma loopInv_step st qc id parentID field st' qc' :
  loopInv qc id -> (id < maxSelectors)%Z ->
  compileSelect co op role st qc id parentID field = Ok (st', qc') ->
  loopInv qc' (int32 (id + 1)) /\ QCode.Type_ qc' = QCode.Type_ qc.
Proof.
  intros (Hid & Hle & W) Hlt E.
  apply compileSelect_spec in E as (T & l' & s & Hs & F & Ks & Kp & HP); [| assumption].
  split; [| exact T].
  pose proof (Forall2_length _ _ _ F) as Hlen.
  unfold maxSelectors in *.
  rewrite int32_small by lia.
  unfold loopInv, maxSelectors. rewrite Hs, length_app. simpl.
  split; [lia |]. split; [lia |].
  apply wfSelects_snoc.
  - eapply wfSelects_frame; eauto.
  - lia.
  - rewrite Ks, Kp. exact HP.
Qed.

Lemma compileLoop_inv fuel : forall st qc id,
  loopInv qc id -> (maxSelectors <= Z.of_nat fuel + id)%Z ->
  exists r, compileLoop co fuel op role st qc id = Some r /\
    forall qc' id', r = Ok (qc', id') ->
      loopInv qc' id' /\ QCode.Type_ qc' = QCode.Type_ qc.
Proof.
  induction fuel as [| fuel IHf]; intros st; induction st as [| val st IHs];
    intros qc id I Hf.
  - rewrite compileLoop_nil. eexists; split; [reflexivity |]. intros ? ? E; inv_ok. auto.
  - rewrite compileLoop_cons.
    destruct (Z.geb_spec id maxSelectors) as [Hge | Hlt]; [| lia].
    eexists; split; [reflexivity | discriminate].
  - rewrite compileLoop_nil. eexists; split; [reflexivity |]. intros ? ? E; inv_ok. auto.
  - rewrite compileLoop_cons.
    destruct (Z.geb_spec id maxSelectors) as [Hge | Hlt].
    { eexists; split; [reflexivity | discriminate]. }
    destruct (index _ _) as [field | m | m];
      [| eexists; split; [reflexivity | discriminate] ..].
    assert (Hsel :
      exists r,
        match compileSelect co op role st qc id
                (if (graph.Field.ParentID field =? -1)%Z then (-1)%Z
                 else Z.land (Z.shiftr val 16) 0xFFFF) field with
        | Ok (st, qc) => compileLoop co fuel op role st qc (int32 (id + 1))
        | Err m => Some (Err m)
        | Panic m => Some (Panic m)
        end = Some r /\
        forall qc' id', r = Ok (qc', id') ->
          loopInv qc' id' /\ QCode.Type_ qc' = QCode.Type_ qc).
    { destruct (compileSelect _ _ _ _ _ _ _ _) as [[st1 qc1] | m | m] eqn:E;
        [| eexists; split; [reflexivity | discriminate] ..].
      destruct (loopInv_step _ _ _ _ _ _ _ I Hlt E) as [I1 T1].
      destruct (IHf st1 qc1 (int32 (id + 1)) I1) as (r & Hr & Hp).
      { destruct I as (Hid & _). unfold maxSelectors in *.
        rewrite int32_small by lia. lia. }
      exists r. split; [exact Hr |]. intros qc' id' Er.
      destruct (Hp _ _ Er). split; [assumption | congruence]. }
    destruct (graph.Field.Type_ field); try exact Hsel.
    apply IHs; assumption.
Qed.
End Loop.

Section CompileFacts.
Context {X : Externals} {OK : ExternalsOK}.
Variable co : Compiler.

(** [Compile] is the entry code followed by the loop and the mutation pass. *)
Lemma Compile_eq query vars role op :
  Parse query = Ok op ->
  Compile co query vars role =
  match loopEntry vars op with
  | Ok (st0, qc0, id0) =>
    match compileLoop co (Z.to_nat maxSelectors) op role st0 qc0 0 with
    | Some (Ok (qc, id)) =>
      if (id =? 0)%Z then Some (Err "invalid query")
      else match QCode.Type_ qc with
           | QTMutation => Some (compileMutation qc op role)
           | _ => Some (Ok qc)
           end
    | Some (Err m) => Some (Err m)
    | Some (Panic m) => Some (Panic m)
    | None => None
    end
  | Err m => Some (Err m)
  | Panic m => Some (Panic m)
  end.
Proof.
  intros EP. unfold Compile, loopEntry, compileQuery. rewrite EP.
  generalize (Z.to_nat maxSelectors). intros fuel.
  destruct (graph.Operation.Type_ op); cbn [bind];
    destruct (graph.Operation.Fields op) as [| f0 fs]; cbn [bind]; try reflexivity.
  all: try match goal with
           | |- context [setMutationType ?q ?a] =>
             destruct (setMutationType q a); cbn [bind]
           end; try reflexivity.
  all: destruct (compileLoop _ _ _ _ _ _ _) as [[[qc id] | m | m] |]; try reflexivity.
  all: destruct (id =? 0)%Z; reflexivity.
Qed.

Lemma loopEntry_inv vars op st0 qc0 id0 :
  loopEntry vars op = Ok (st0, qc0, id0) ->
  id0 = 0%Z /\ QCode.Selects qc0 = [] /\ st0 = pushRoots (graph.Operation.Fields op) [].
Proof.
  unfold loopEntry. intros E. inv_ok; simpl; auto.
Qed.

Lemma loopInv_entry qc : QCode.Selects qc = [] -> loopInv qc 0.
Proof.
  intros E. unfold loopInv, wfSelects, maxSelectors. rewrite E. simpl.
  split; [reflexivity |]. split; [lia |]. intros i s Hs. destruct i; discriminate.
Qed.

(** What a successful [Compile] went through. *)
Lemma Compile_Ok query vars role qc :
  Compile co query vars role = Some (Ok qc) ->
  exists op st0 qc0 qcL idL,
    Parse query = Ok op /\
    loopEntry vars op = Ok (st0, qc0, 0%Z) /\
    compileLoop co (Z.to_nat maxSelectors) op role st0 qc0 0 = Some (Ok (qcL, idL)) /\
    loopInv qcL idL /\
    QCode.Type_ qcL = QCode.Type_ qc0 /\
    ((QCode.Type_ qcL <> QTMutation /\ qc = qcL) \/
     (QCode.Type_ qcL = QTMutation /\ compileMutation qcL op role = Ok qc)).
Proof.
  intros E.
  destruct (Parse query) as [op | m | m] eqn:EP;
    [| unfold Compile in E; rewrite EP in E; discriminate ..].
  rewrite (Compile_eq _ _ _ _ EP) in E.
  destruct (loopEntry vars op) as [[[st0 qc0] id0] | m | m] eqn:EL; try discriminate.
  destruct (loopEntry_inv _ _ _ _ _ EL) as (-> & Hs & _).
  destruct (compileLoop_inv co op role (Z.to_nat maxSelectors) st0 qc0 0
              (loopInv_entry _ Hs)) as (r & Hr & Hp).
  { unfold maxSelectors. lia. }
  rewrite Hr in E. destruct r as [[qcL idL] | m | m]; try discriminate.
  destruct (Hp _ _ eq_refl) as [I T].
  destruct (idL =? 0)%Z; [discriminate |].
  exists op, st0, qc0, qcL, idL. split; [reflexivity |]. repeat (split; [assumption |]).
  destruct (QCode.Type_ qcL) eqn:ET;
    try (left; split; [discriminate | congruence]).
  right. split; [reflexivity | congruence].
Qed.

Lemma Compile_total query vars role : exists r, Compile co query vars role = Some r.
Proof.
  destruct (Parse query) as [op | m | m] eqn:EP;
    [| unfold Compile; rewrite EP; eauto ..].
  rewrite (Compile_eq _ _ _ _ EP).
  destruct (loopEntry vars op) as [[[st0 qc0] id0] | m | m] eqn:EL; eauto.
  destruct (loopEntry_inv _ _ _ _ _ EL) as (-> & Hs & _).
  destruct (compileLoop_inv co op role (Z.to_nat maxSelectors) st0 qc0 0
              (loopInv_entry _ Hs)) as (r & Hr & _).
  { unfold maxSelectors. lia. }
  rewrite Hr. destruct r as [[qcL idL] | m | m]; eauto.
  destruct (idL =? 0)%Z; eauto. destruct (QCode.Type_ qcL); eauto.
Qed.

Lemma Compile_wf query vars role qc :
  Compile co query vars role = Some (Ok qc) ->
  (length (QCode.Selects qc) <= 30)%nat /\ wfSelects (QCode.Selects qc).
Proof.
  intros E. apply Compile_Ok in E as (op & st0 & qc0 & qcL & idL & _ & _ & _ & I & _ & D).
  destruct I as (Hid & Hle & W). unfold maxSelectors in Hle.
  destruct D as [[_ ->] | [_ EM]].
  - split; [lia | exact W].
  - apply compileMutation_frame in EM.
    pose proof (Forall2_length _ _ _ EM). split; [lia |].
    eapply wfSelects_frame; eauto.
Qed.

(** The loop run from a state [n] iterations further gives the same result. *)
Lemma loopStep_run op role st qc id st' qc' id' :
  loopStep co op role (st, qc, id) = Some (st', qc', id') ->
  (0 <= id)%Z ->
  (0 <= id')%Z /\
  compileLoop co (Z.to_nat (maxSelectors - id)) op role st qc id =
  compileLoop co (Z.to_nat (maxSelectors - id')) op role st' qc' id'.
Proof.
  unfold loopStep. intros E Hid.
  destruct st as [| val st]; [discriminate |].
  rewrite compileLoop_cons.
  destruct (Z.geb_spec id maxSelectors) as [Hge | Hlt]; [discriminate |].
  destruct (index _ _) as [field | m | m]; try discriminate.
  assert (Hsel :
    match compileSelect co op role st qc id
            (if (graph.Field.ParentID field =? -1)%Z then (-1)%Z
             else Z.land (Z.shiftr val 16) 0xFFFF) field with
    | Ok (st, qc) => Some (st, qc, int32 (id + 1))
    | _ => None
    end = Some (st', qc', id') ->
    (0 <= id')%Z /\
    match compileSelect co op role st qc id
            (if (graph.Field.ParentID field =? -1)%Z then (-1)%Z
             else Z.land (Z.shiftr val 16) 0xFFFF) field with
    | Ok (st, qc) =>
      match Z.to_nat (maxSelectors - id) with
      | O => None
      | S fuel => compileLoop co fuel op role st qc (int32 (id + 1))
      end
    | Err m => Some (Err m)
    | Panic m => Some (Panic m)
    end = compileLoop co (Z.to_nat (maxSelectors - id')) op role st' qc' id').
  { destruct (compileSelect _ _ _ _ _ _ _ _) as [[st1 qc1] | m | m]; try discriminate.
    intros E1. inversion E1; subst st' qc' id'; clear E1.
    unfold maxSelectors in *. rewrite int32_small by lia. split; [lia |].
    replace (Z.to_nat (30 - id)) with (S (Z.to_nat (30 - (id + 1)))) by lia.
    reflexivity. }
  destruct (graph.Field.Type_ field); try (apply Hsel; exact E).
  inversion E; subst st' qc' id'. split; [exact Hid | reflexivity].
Qed.

Lemma loopRun_run op role n : forall st qc id st' qc' id',
  loopRun co op role n (st, qc, id) = Some (st', qc', id') ->
  (0 <= id)%Z ->
  compileLoop co (Z.to_nat (maxSelectors - id)) op role st qc id =
  compileLoop co (Z.to_nat (maxSelectors - id')) op role st' qc' id'.
Proof.
  induction n as [| n IH]; intros st qc id st' qc' id' E Hid; cbn [loopRun] in E.
  - inversion E; subst. reflexivity.
  - destruct (loopStep co op role (st, qc, id)) as [[[st1 qc1] id1] |] eqn:ES;
      [| discriminate].
    apply loopStep_run in ES as [Hid1 Heq]; [| exact Hid].
    rewrite Heq. apply IH; assumption.
Qed.

Lemma Compile_limit query vars role op s0 n st qc :
  Parse query = Ok op ->
  loopEntry vars op = Ok s0 ->
  loopRun co op role n s0 = Some (st, qc, maxSelectors) ->
  st <> [] ->
  Compile co query vars role = Some (Err "selector limit reached (30)").
Proof.
  intros EP EL ER Hst. rewrite (Compile_eq _ _ _ _ EP), EL.
  destruct s0 as [[st0 qc0] id0].
  destruct (loopEntry_inv _ _ _ _ _ EL) as (-> & _ & _).
  apply loopRun_run in ER; [| lia].
  rewrite Z.sub_0_r in ER. rewrite ER.
  destruct st as [| val st]; [congruence |].
  rewrite compileLoop_cons. reflexivity.
Qed.
End CompileFacts.

(** ** The selector limit, parent links and the mutation kind *)

Lemma columnsOf_key op cids : forall sel st st' sel',
  TestData.columnsOf op sel cids st = Ok (st', sel') -> sameKey sel sel'.
Proof.
  induction cids as [| cid cids IH]; intros sel st st' sel' E; simpl in E.
  - inversion E; subst. apply sameKey_refl.
  - apply bind_Ok in E as (f & _ & E).
    destruct (graph.Field.Children f).
    + apply bind_Ok in E as (c0 & _ & E). apply IH in E.
      destruct E as [E1 E2]. split; [exact E1 | exact E2].
    + apply IH in E. exact E.
Qed.

(** The stand-ins of the test schema meet the assumptions. *)
Lemma TestData_ok : @ExternalsOK TestData.env.
Proof.
  constructor.
  - intros st op qc sel field tr st' qc' sel' E. simpl in E. unfold TestData.columns in E.
    apply bind_Ok in E as ([st1 sel1] & E1 & E). inversion E; subst; clear E.
    apply columnsOf_key in E1 as [K1 K2].
    split; [reflexivity |]. split; [apply selsFrame_refl |]. auto.
  - intros sel sel' E. simpl in E. unfold TestData.tieBreaker in E.
    destruct (_ =? _); [discriminate |]. inversion E; subst. simpl. auto.
  - intros qc op role qc' E. simpl in E. inversion E; subst. apply selsFrame_refl.
Qed.

(** C1. [Compile] always returns (the fuel of the loop suffices); a QCode
    that it returns holds at most 30 selects; and when the loop of
    [compileQuery] gets to the point where 30 selects are allocated and the
    work stack still holds an entry (so that a 31st select would be
    allocated), [Compile] returns the error "selector limit reached (30)"
    and no QCode. *)
Theorem compile_selector_limit {X : Externals} {OK : ExternalsOK} (co : Compiler)
    (query : string) (vars : Variables) (role : string) :
  (exists r, Compile co query vars role = Some r) /\
  (forall qc, Compile co query vars role = Some (Ok qc) ->
              (length (QCode.Selects qc) <= 30)%nat) /\
  (forall op s0 n st qc,
      Parse query = Ok op ->
      loopEntry vars op = Ok s0 ->
      loopRun co op role n s0 = Some (st, qc, maxSelectors) ->
      st <> [] ->
      Compile co query vars role = Some (Err "selector limit reached (30)")).
Proof.
  split; [apply Compile_total |].
  split.
  - intros qc E. apply Compile_wf in E. tauto.
  - intros op s0 n st qc. apply Compile_limit.
Qed.

(** On the test schema: a query with 30 root fields compiles to 30 selects,
    one with 31 root fields reaches the limit. *)
Lemma compile_selector_limit_many :
  (exists qc, Compile (X := TestData.env) TestData.co (TestData.q_many 30) ∅ "user"
              = Some (Ok qc) /\
              (length (QCode.Selects qc) <= 30)%nat) /\
  Compile (X := TestData.env) TestData.co (TestData.q_many 31) ∅ "user"
  = Some (Err "selector limit reached (30)").
Proof.
  split.
  - destruct (compile_selector_limit (X := TestData.env) (OK := TestData_ok)
                TestData.co (TestData.q_many 30) ∅ "user") as (_ & Hlen & _).
    eexists. split; [vm_compute; reflexivity |]. apply Hlen. vm_compute; reflexivity.
  - destruct (compile_selector_limit (X := TestData.env) (OK := TestData_ok)
                TestData.co (TestData.q_many 31) ∅ "user") as (_ & _ & Hlim).
    eapply (Hlim _ _ 30%nat).
    + vm_compute; reflexivity.
    + vm_compute; reflexivity.
    + vm_compute; reflexivity.
    + discriminate.
Defined.

(** C2. In a QCode returned by [Compile], every select [s] that is not a root
    has [s.ParentID < s.ID], and the select at position [s.ParentID] lists
    [s.ID] among its children. *)
Theorem compile_parent_links {X : Externals} {OK : ExternalsOK} (co : Compiler)
    (query : string) (vars : Variables) (role : string) (qc : QCode.t) :
  Compile co query vars role = Some (Ok qc) ->
  forall s : Select.t,
    In s (QCode.Selects qc) ->
    Select.ParentID s <> (-1)%Z ->
    (Select.ParentID s < Select.ID s)%Z /\
    exists p, index (QCode.Selects qc) (Select.ParentID s) = Ok p /\
              In (Select.ID s) (Select.Children p).
Proof.
  intros E s Hs Hp. apply Compile_wf in E as [_ W].
  apply list_elem_of_In, list_elem_of_lookup in Hs as [i Hi].
  destruct (W i s Hi) as [_ [HL | (Hr & p & Hl & Hc)]]; [contradiction |].
  split; [lia |]. exists p. split.
  - apply index_Ok. split; [lia | exact Hl].
  - apply list_elem_of_In. exact Hc.
Qed.

(** On the test schema: in [{ users { id posts { id title } } }] the select
    for [posts] has parent 0, and select 0 lists it. *)
Lemma compile_parent_links_nested :
  exists qc users posts,
    Compile (X := TestData.env) TestData.co TestData.q_nested ∅ "user" = Some (Ok qc) /\
    QCode.Selects qc = [users; posts] /\
    Select.ParentID posts = 0%Z /\
    (Select.ParentID posts < Select.ID posts)%Z /\
    exists p, index (QCode.Selects qc) (Select.ParentID posts) = Ok p /\
              In (Select.ID posts) (Select.Children p).
Proof.
  eexists. eexists. eexists.
  split; [vm_compute; reflexivity |].
  split; [reflexivity |].
  split; [reflexivity |].
  eapply (compile_parent_links (X := TestData.env) (OK := TestData_ok)
            TestData.co TestData.q_nested ∅ "user").
  - vm_compute; reflexivity.
  - simpl. right. left. reflexivity.
  - simpl. discriminate.
Defined.

Section Mutation.
Context {X : Externals}.

Lemma setMutationType_skip qc pre rest :
  Forall (fun a => isMutationArg a = false) pre ->
  setMutationType qc (pre ++ rest) = setMutationType qc rest.
Proof.
  induction 1 as [| a pre Ha _ IH]; [reflexivity |].
  simpl. unfold isMutationArg in Ha.
  apply orb_false_elim in Ha as [Ha Hd]. apply orb_false_elim in Ha as [Ha Hu].
  apply orb_false_elim in Ha as [Hi Hp].
  rewrite Hi, Hp, Hu, Hd. exact IH.
Qed.

Lemma setMutationType_delete_false qc arg post :
  isDeleteFalse arg = true ->
  setMutationType qc (arg :: post) = Ok (QCode.set_Type_ QTQuery (QCode.set_SType QTDelete qc)).
Proof.
  unfold isDeleteFalse. intros Ha.
  apply andb_true_iff in Ha as [Ha Hv]. apply andb_true_iff in Ha as [Hn Ht].
  apply bool_decide_eq_true in Ht. apply String.eqb_eq in Hn.
  simpl. rewrite Hn, Ht, Hv. reflexivity.
Qed.
End Mutation.

(** C8, as amended. For a mutation whose first field has [delete] with the
    boolean literal [false] as its first argument among [insert], [update],
    [upsert] and [delete], a QCode returned by [Compile] has the plain query
    kind. *)
Theorem delete_false_is_query {X : Externals} {OK : ExternalsOK} (co : Compiler)
    (query : string) (vars : Variables) (role : string) (op : graph.Operation.t)
    (f0 : graph.Field.t) (fs : list graph.Field.t)
    (pre post : list graph.Arg.t) (arg : graph.Arg.t) (qc : QCode.t) :
  Parse query = Ok op ->
  graph.Operation.Type_ op = graph.OpMutate ->
  graph.Operation.Fields op = f0 :: fs ->
  graph.Field.Args f0 = pre ++ arg :: post ->
  Forall (fun a => isMutationArg a = false) pre ->
  isDeleteFalse arg = true ->
  Compile co query vars role = Some (Ok qc) ->
  QCode.Type_ qc = QTQuery.
Proof.
  intros EP ET EF EA Hpre Harg E.
  apply Compile_Ok in E as (op' & st0 & qc0 & qcL & idL & EP' & EL & _ & _ & T & D).
  rewrite EP in EP'. inversion EP'; subst op'; clear EP'.
  assert (T0 : QCode.Type_ qc0 = QTQuery).
  { unfold loopEntry in EL. rewrite ET, EF, EA in EL. cbn [bind] in EL.
    rewrite setMutationType_skip in EL by exact Hpre.
    rewrite setMutationType_delete_false in EL by exact Harg.
    cbn [bind] in EL. inversion EL; subst. reflexivity. }
  rewrite T0 in T.
  destruct D as [[_ ->] | [TM _]]; [exact T | congruence].
Qed.

(** On the test schema: [mutation { users(delete: false, where: {id: 1}) { id } }]
    compiles to a plain query. *)
Lemma delete_false_is_query_users :
  exists qc,
    Compile (X := TestData.env) TestData.co TestData.q_delete_false ∅ "user" = Some (Ok qc) /\
    QCode.Type_ qc = QTQuery.
Proof.
  eexists. split; [vm_compute; reflexivity |].
  eapply (delete_false_is_query (X := TestData.env) (OK := TestData_ok)
            TestData.co TestData.q_delete_false ∅ "user" TestData.op_delete_false
            _ _ [] [TestData.whereId] TestData.argDeleteFalse).
  - reflexivity.
  - reflexivity.
  - reflexivity.
  - reflexivity.
  - constructor.
  - reflexivity.
  - vm_compute; reflexivity.
Defined.

(** C8 as stated fails: the root field carries [delete: false], but [insert]
    comes first and decides; the QCode keeps the mutation kind. *)
Lemma delete_false_after_insert_stays_mutation :
  exists op f0 fs qc,
    @Parse TestData.env TestData.q_insert_delete = Ok op /\
    graph.Operation.Type_ op = graph.OpMutate /\
    graph.Operation.Fields op = f0 :: fs /\
    In TestData.argDeleteFalse (graph.Field.Args f0) /\
    isDeleteFalse TestData.argDeleteFalse = true /\
    Compile (X := TestData.env) TestData.co TestData.q_insert_delete ∅ "user" = Some (Ok qc) /\
    QCode.Type_ qc = QTMutation.
Proof.
  eexists. eexists. eexists. eexists.
  split; [vm_compute; reflexivity |].
  split; [reflexivity |].
  split; [reflexivity |].
  split; [simpl; auto |].
  split; [reflexivity |].
  split; [vm_compute; reflexivity | reflexivity].
Qed.

(** ** Order-by arguments *)

Lemma orderByPop_spec ti cm st : forall acc r,
  orderByPop ti cm st acc = Ok r ->
  exists obs, r = acc ++ obs /\ Forall2 (orderEntry ti) st obs.
Proof.
  induction st as [| node st IH]; intros acc r E; simpl in E.
  - inversion E; subst. exists []. rewrite app_nil_r. split; [reflexivity | constructor].
  - assert (E' :
      (ord <- orderOf (graph.Node.Val node) ;;
       ob <- setOrderByColName ti (OrderBy.set_Order ord OrderBy.zero) node ;;
       if bool_decide (sdata.DBColumn.Name (OrderBy.Col ob) ∈ cm)
       then Err ("duplicate column in order by: " +:+ sdata.DBColumn.Name (OrderBy.Col ob))
       else orderByPop ti cm st (acc ++ [ob])) = Ok r).
    { destruct (graph.Node.Type_ node); try discriminate; exact E. }
    clear E. apply bind_Ok in E' as (ord & Eo & E). apply bind_Ok in E as (ob & Es & E).
    destruct (bool_decide _); [discriminate |].
    apply IH in E as (obs & -> & F).
    exists (ob :: obs). rewrite <- app_assoc. split; [reflexivity |].
    constructor; [| exact F].
    assert (Hord : OrderBy.Order ob = ord).
    { unfold setOrderByColName in Es. destruct (nodeNames node []).
      - inversion Es; subst. reflexivity.
      - apply bind_Ok in Es as (c0 & _ & Es). inversion Es; subst. reflexivity. }
    unfold orderEntry. rewrite Hord. auto.
Qed.

Lemma push_all {A : Type} (l : list A) : forall st,
  fold_left (fun st ch => Push ch st) l st = rev l ++ st.
Proof.
  induction l as [| a l IH]; intros st; simpl; [reflexivity |].
  rewrite IH. unfold Push. rewrite <- app_assoc. reflexivity.
Qed.

Lemma Forall2_rev {A B : Type} (P : A -> B -> Prop) l1 l2 :
  Forall2 P l1 l2 -> Forall2 P (rev l1) (rev l2).
Proof.
  induction 1; simpl; [constructor |].
  apply Forall2_app; [assumption | constructor; [assumption | constructor]].
Qed.

(** C4, as amended. The entries that an [order_by] object adds to
    [Select.OrderBy] come after the entries already there and follow the
    order of the object's members in the query text (the reversal by the work
    stack is undone by the reverse loop at the end of [compileArgOrderBy]):
    an earlier key is more significant. *)
Theorem order_by_textual_order (sel : Select.t) (arg : graph.Arg.t) (sel' : Select.t) :
  compileArgOrderBy sel arg = Ok sel' ->
  exists obs,
    Select.OrderBy sel' = Select.OrderBy sel ++ obs /\
    Forall2 (orderEntry (Select.Ti sel)) (graph.Node.Children (graph.Arg.Val arg)) obs.
Proof.
  unfold compileArgOrderBy. intros E.
  destruct (graph.Node.Type_ (graph.Arg.Val arg)); try discriminate.
  apply bind_Ok in E as (obList & Ep & E). inversion E; subst sel'; clear E.
  apply orderByPop_spec in Ep as (obs & -> & F). simpl in *.
  rewrite push_all, app_nil_r in F.
  exists (rev obs). split; [reflexivity |].
  apply Forall2_rev in F. rewrite rev_involutive in F. exact F.
Qed.

(** On the test schema: [order_by: {title: desc, id: asc}] on [posts]. *)
Lemma order_by_textual_order_posts :
  exists obs,
    Select.OrderBy
      (Select.set_OrderBy
         [OrderBy.mk TestData.posts_title OrderDesc; OrderBy.mk TestData.posts_id OrderAsc]
         (TestData.rootSel TestData.posts))
    = Select.OrderBy (TestData.rootSel TestData.posts) ++ obs /\
    Forall2 (orderEntry (Select.Ti (TestData.rootSel TestData.posts)))
            (graph.Node.Children (graph.Arg.Val TestData.orderTwo)) obs.
Proof.
  apply (order_by_textual_order (TestData.rootSel TestData.posts) TestData.orderTwo).
  vm_compute; reflexivity.
Defined.

(** C4 as stated fails: for [order_by: {title: desc, id: asc}] the columns
    enter [OrderBy] as [title, id], the order of the text, not its reverse. *)
Lemma order_by_not_reversed :
  exists sel',
    compileArgOrderBy (TestData.rootSel TestData.posts) TestData.orderTwo = Ok sel' /\
    map graph.Node.Name (graph.Node.Children (graph.Arg.Val TestData.orderTwo))
    = ["title"; "id"] /\
    map (fun ob => sdata.DBColumn.Name (OrderBy.Col ob)) (Select.OrderBy sel')
    = ["title"; "id"] /\
    map (fun ob => sdata.DBColumn.Name (OrderBy.Col ob)) (Select.OrderBy sel')
    <> rev (map graph.Node.Name (graph.Node.Children (graph.Arg.Val TestData.orderTwo))).
Proof.
  eexists. split; [vm_compute; reflexivity |].
  split; [reflexivity |]. split; [reflexivity |]. vm_compute. discriminate.
Qed.

(** C5. The code at the query of the claim,
    [{ users(order_by: {name: asc, name: desc}) {id} }]: [Compile] returns a
    QCode whose [OrderBy] holds column [name] twice, and no error. *)
Theorem order_by_duplicate_accepted :
  exists qc s,
    @Parse TestData.env TestData.q_order_dup = Ok TestData.op_order_dup /\
    Compile (X := TestData.env) TestData.co TestData.q_order_dup ∅ "user" = Some (Ok qc) /\
    QCode.Selects qc = [s] /\
    map (fun ob => (sdata.DBColumn.Name (OrderBy.Col ob), OrderBy.Order ob)) (Select.OrderBy s)
    = [("name", OrderAsc); ("name", OrderDesc)].
Proof.
  eexists. eexists.
  split; [reflexivity |].
  split; [vm_compute; reflexivity |].
  split; reflexivity.
Qed.

(** The test for duplicates does fire when the column comes from an earlier
    argument: [order_by: {name: asc}, orderby: {name: desc}] is refused. *)
Lemma order_by_duplicate_across_arguments :
  Compile (X := TestData.env) TestData.co TestData.q_order_twice ∅ "user"
  = Some (Err "duplicate column in order by: name").
Proof. vm_compute. reflexivity. Qed.

(** ** Baseline filters *)

Section WhereArgs.
Context {X : Externals}.






End WhereArgs.




(** ** The [id] argument *)

(** C9. After [@skip(if: $v)] or [@include(if: $v)] has put its filter in
    [Where], [compileArgID] stores the leaf [op-equals(primary column, value)]
    in [Where] whatever was there: the result is a leaf with no children, the
    same for every previous content of [Where], so the filter of the
    directive is gone. *)
Theorem id_replaces_directive_filter (sel sel1 sel2 : Select.t)
    (d : graph.Directive.t) (arg : graph.Arg.t) :
  compileDirectiveSkip sel d = Ok sel1 \/ compileDirectiveInclude sel d = Ok sel1 ->
  compileArgID sel1 arg = Ok sel2 ->
  (exists dex, Select.Where sel1 = Some dex /\
               (Exp.Op dex = OpAnd \/ Exp.Op dex = OpNotEqualsTrue \/ Exp.Op dex = OpEqualsTrue)) /\
  exists ex,
    Select.Where sel2 = Some ex /\
    Exp.Op ex = OpEquals /\
    Exp.Col ex = sdata.DBTable.PrimaryCol (Select.Ti sel1) /\
    Exp.Val ex = graph.Node.Val (graph.Arg.Val arg) /\
    Exp.Children ex = [] /\
    forall w sel2', compileArgID (Select.set_Where w sel1) arg = Ok sel2' ->
                    Select.Where sel2' = Some ex.
Proof.
  intros Hd Ei. split.
  - destruct Hd as [Hd | Hd];
      [unfold compileDirectiveSkip in Hd | unfold compileDirectiveInclude in Hd];
      destruct (graph.Directive.Args d) as [| a ?]; try discriminate;
      destruct (negb _); try discriminate;
      destruct (graph.Node.Type_ (graph.Arg.Val a)); try discriminate;
      inversion Hd; subst sel1; simpl;
      destruct (Select.Where sel); simpl; eexists; split; try reflexivity; simpl; auto.
  - clear Hd. unfold compileArgID in *.
    destruct (negb (Select.ParentID sel1 =? -1)%Z) eqn:EP; [discriminate |].
    destruct (graph.Node.Type_ (graph.Arg.Val arg)) eqn:ET; try discriminate;
      destruct (_ =? "") eqn:EN; try discriminate;
      apply bind_Ok in Ei as (ex & Eex & Ei); inversion Ei; subst sel2; clear Ei;
      exists ex; simpl; (split; [reflexivity |]).
    + inversion Eex; subst ex; clear Eex; simpl. repeat (split; [reflexivity |]).
      intros w sel2' E'. simpl in E'. rewrite EP, EN in E'. simpl in E'.
      inversion E'; subst; reflexivity.
    + apply bind_Ok in Eex as (n & En & Eex).
      inversion Eex; subst ex; clear Eex; simpl. repeat (split; [reflexivity |]).
      intros w sel2' E'. simpl in E'. rewrite EP, EN, En in E'. simpl in E'.
      inversion E'; subst; reflexivity.
    + inversion Eex; subst ex; clear Eex; simpl. repeat (split; [reflexivity |]).
      intros w sel2' E'. simpl in E'. rewrite EP, EN in E'. simpl in E'.
      inversion E'; subst; reflexivity.
Qed.

(** On the test schema: [@skip(if: $hide)] followed by [id: 5] on [users]. *)
Lemma id_replaces_directive_filter_users :
  exists sel1 sel2 ex,
    compileDirectiveSkip (TestData.rootSel TestData.users) TestData.skipDir = Ok sel1 /\
    compileArgID sel1 TestData.argId = Ok sel2 /\
    Select.Where sel2 = Some ex /\
    Exp.Op ex = OpEquals /\
    Exp.Children ex = [].
Proof.
  eexists. eexists.
  destruct (id_replaces_directive_filter
              (TestData.rootSel TestData.users)
              (Select.set_Where
                 (Some (Exp.set_Val "hide" (Exp.set_Type_ ValVar (newExpOp OpNotEqualsTrue))))
                 (TestData.rootSel TestData.users))
              (Select.set_Singular true
                 (Select.set_Where
                    (Some (Exp.set_Val "5" (Exp.set_Type_ ValNum
                             (Exp.set_Col TestData.users_id (newExpOp OpEquals)))))
                    (TestData.rootSel TestData.users)))
              TestData.skipDir TestData.argId)
    as (_ & ex & Hw & Hop & _ & _ & Hch & _).
  - left. vm_compute; reflexivity.
  - vm_compute; reflexivity.
  - exists ex. split; [vm_compute; reflexivity |]. split; [vm_compute; reflexivity |].
    split; [exact Hw |]. split; [exact Hop | exact Hch].
Defined.

(** The same through [Compile]: for [{ users(id: 5) @skip(if: $hide) { id } }]
    the compiled select has the [id] leaf as its whole [Where]. *)
Lemma skip_with_id_keeps_only_id_filter :
  exists qc s ex,
    Compile (X := TestData.env) TestData.co TestData.q_skip_id ∅ "user" = Some (Ok qc) /\
    QCode.Selects qc = [s] /\
    Select.Where s = Some ex /\
    Exp.Op ex = OpEquals /\
    Exp.Col ex = TestData.users_id /\
    Exp.Val ex = "5" /\
    Exp.Children ex = [].
Proof.
  do 3 eexists.
  split; [vm_compute; reflexivity |].
  repeat (split; [reflexivity |]). reflexivity.
Qed.

(** ** Aggregates across tables ([fn.go]) *)

(** C10. In [parseFuncExpression], for a field [fn_table[__column]] whose
    table and column resolve, the outcome depends on the slice that
    [FindPath] returns and not on its error: with an empty slice (no path
    between the two tables) the access [paths[0]] panics, whatever the error
    is; no error is returned. *)
Theorem aggregate_path_error_unchecked {X : Externals} (co : Compiler) (sel : Select.t)
    (fn : Function.t Select.t) (rest p0 : string) (ps : list string)
    (table : sdata.DBTable.t) (column : sdata.DBColumn.t)
    (paths : list TPath) (err : option string) :
  Split rest "__" = p0 :: ps ->
  Find (DBSchema (c co)) p0 = Ok table ->
  match ps with
  | [] => column = sdata.DBTable.PrimaryCol table
  | p1 :: _ => sdata.GetColumn table p1 = Ok column
  end ->
  FindPath (sdata.DBTable.Name table) (Select.Table sel) = (paths, err) ->
  match paths with
  | [] => parseFuncExpression co sel fn (String "_" rest) = Panic "index out of range"
  | _ :: _ => exists fn', parseFuncExpression co sel fn (String "_" rest) = Ok fn'
  end.
Proof.
  intros Es Ef Ec Ep. unfold parseFuncExpression. rewrite Es.
  change (index (p0 :: ps) 0) with (Ok p0). cbn [bind]. rewrite Ef. cbn [bind].
  assert (Hc : (if (length (p0 :: ps) =? 1)%nat
                then Ok (sdata.DBTable.PrimaryCol table)
                else p1 <- index (p0 :: ps) 1 ;; sdata.GetColumn table p1) = Ok column).
  { destruct ps as [| p1 ps']; simpl; [congruence | exact Ec]. }
  rewrite Hc. cbn [bind]. rewrite Ep.
  destruct paths as [| path0 paths']; [reflexivity |].
  eexists. reflexivity.
Qed.

(** On the test schema: [count__tags] under [users]; table [tags] is found
    but has no path to [users], and the compiler panics. *)
Lemma aggregate_path_error_unchecked_tags :
  parseFuncExpression (X := TestData.env) TestData.co (TestData.rootSel TestData.users)
    TestData.countTags "_tags"
  = Panic "index out of range".
Proof.
  apply (aggregate_path_error_unchecked (X := TestData.env) TestData.co
           (TestData.rootSel TestData.users)
           TestData.countTags
           "tags" "tags" [] TestData.tags TestData.tags_id [] (Some "path not found")).
  - reflexivity.
  - reflexivity.
  - reflexivity.
  - reflexivity.
Defined.


(** ** The cursor seek predicate *)

Lemma set_Children_same (e : Exp.t) : Exp.set_Children (Exp.Children e) e = e.
Proof. destruct e; reflexivity. Qed.

Lemma set_Children_addChild l f (e : Exp.t) :
  Exp.set_Children l (addChild f e) = Exp.set_Children l e.
Proof. destruct e; reflexivity. Qed.

Lemma set_Children_twice l1 l2 (e : Exp.t) :
  Exp.set_Children l1 (Exp.set_Children l2 e) = Exp.set_Children l1 e.
Proof. destruct e; reflexivity. Qed.

Lemma Children_set_Children l (e : Exp.t) : Exp.Children (Exp.set_Children l e) = l.
Proof. destruct e; reflexivity. Qed.

Lemma seekLeaf_eq i n ob :
  seekLeaf i n ob =
  if (0 <? i)%nat && negb (n =? i)%nat then equalsLeaf ob else compareLeaf seekCompare ob.
Proof.
  unfold seekLeaf, compareLeaf, seekCompare.
  destruct ((0 <? i)%nat && negb (n =? i)%nat); [reflexivity |].
  destruct (OrderBy.Order ob); reflexivity.
Qed.

Lemma seekInner_and i obs : forall n a or_,
  seekInner i n obs (Some a) or_ =
  (Some (Exp.set_Children (Exp.Children a ++ leavesFrom i n obs) a), or_).
Proof.
  induction obs as [| ob obs IH]; intros n a or_; simpl.
  - rewrite app_nil_r, set_Children_same. reflexivity.
  - destruct (i <? n)%nat.
    + rewrite app_nil_r, set_Children_same. reflexivity.
    + rewrite IH, set_Children_addChild. unfold addChild at 1.
      rewrite Children_set_Children, <- app_assoc. reflexivity.
Qed.

Lemma seekInner_or i obs : forall n or_,
  seekInner i n obs None or_ =
  (None, Exp.set_Children (Exp.Children or_ ++ leavesFrom i n obs) or_).
Proof.
  induction obs as [| ob obs IH]; intros n or_; simpl.
  - rewrite app_nil_r, set_Children_same. reflexivity.
  - destruct (i <? n)%nat.
    + rewrite app_nil_r, set_Children_same. reflexivity.
    + rewrite IH, set_Children_addChild. unfold addChild at 1.
      rewrite Children_set_Children, <- app_assoc. reflexivity.
Qed.

Lemma seekOuter_pos obs k : forall i and_ or_,
  (1 <= i)%nat ->
  seekOuter k i obs and_ or_ =
  Exp.set_Children (Exp.Children or_ ++ map (andAt obs) (seq i k)) or_.
Proof.
  induction k as [| k IH]; intros i and_ or_ Hi; simpl.
  - rewrite app_nil_r, set_Children_same. reflexivity.
  - destruct i as [| i]; [lia |]. simpl.
    rewrite seekInner_and. rewrite IH by lia.
    rewrite set_Children_addChild. unfold addChild.
    rewrite Children_set_Children, <- app_assoc. reflexivity.
Qed.

Lemma leavesFrom_spec i obs : forall n,
  (n <= i)%nat ->
  leavesFrom i n obs =
  map (fun o => Some (equalsLeaf o)) (take (i - n) obs) ++
  match obs !! (i - n)%nat with
  | Some ob => [Some (compareLeaf seekCompare ob)]
  | None => []
  end.
Proof.
  induction obs as [| ob obs IH]; intros n Hn; simpl.
  - rewrite take_nil. reflexivity.
  - destruct (Nat.ltb_spec i n) as [Hlt | Hge]; [lia |].
    rewrite seekLeaf_eq.
    destruct (Nat.eq_dec n i) as [-> | Hne].
    + rewrite Nat.eqb_refl, andb_false_r, Nat.sub_diag. simpl.
      f_equal. destruct obs; simpl; [reflexivity |].
      destruct (Nat.ltb_spec i (S i)); [reflexivity | lia].
    + assert (Hpos : (0 <? i)%nat = true) by (apply Nat.ltb_lt; lia).
      assert (Hneq : (n =? i)%nat = false) by (apply Nat.eqb_neq; exact Hne).
      rewrite Hpos, Hneq. simpl.
      rewrite IH by lia.
      replace (i - n)%nat with (S (i - S n)) by lia. simpl. reflexivity.
Qed.

Lemma seekDisjuncts_spec rest : forall pre,
  seekDisjuncts seekCompare pre rest =
  map (fun j => match j with
                | O => match (pre ++ rest) !! O with
                       | Some ob => Some (compareLeaf seekCompare ob)
                       | None => None
                       end
                | S _ => andAt (pre ++ rest) j
                end)
      (seq (length pre) (length rest)).
Proof.
  induction rest as [| ob rest IH]; intros pre; simpl; [reflexivity |].
  rewrite IH. rewrite length_app. simpl. rewrite Nat.add_1_r.
  rewrite <- app_assoc. simpl. f_equal.
  destruct pre as [| p pre']; [reflexivity |].
  simpl length. unfold andAt. rewrite leavesFrom_spec by lia.
  rewrite Nat.sub_0_r.
  rewrite take_app_length' by reflexivity.
  rewrite lookup_app_r by (simpl; lia).
  replace (S (length pre') - length (p :: pre'))%nat with O by (simpl; lia).
  reflexivity.
Qed.

(** The expression that [addSeekPredicate] builds has the shape of the cursor
    rule, with the comparison that the code picks for each column. *)
Lemma seekPredicate_shape (obs : list OrderBy.t) :
  seekPredicate obs = seekShape seekCompare obs.
Proof.
  destruct obs as [| ob0 rest]; [reflexivity |].
  unfold seekPredicate, seekShape. f_equal.
  set (obs := ob0 :: rest).
  change (length obs) with (S (length rest)).
  cbn [seekOuter]. cbn [Nat.eqb negb].
  rewrite seekInner_or.
  rewrite seekOuter_pos by lia.
  rewrite set_Children_twice, set_Children_addChild.
  unfold newExpOp. f_equal.
  unfold addChild. cbn [Exp.Children Exp.set_Children Exp.set_Op newExp Exp.zero app].
  rewrite seekDisjuncts_spec. subst obs. cbn [app length seq map lookup list_lookup].
  rewrite (leavesFrom_spec 0 (ob0 :: rest) 0) by lia.
  cbn [Nat.sub take map lookup list_lookup app].
  f_equal. f_equal.
  apply map_ext_in. intros j Hj. apply in_seq in Hj.
  destruct j; [lia | reflexivity].
Qed.

Lemma seekDisjuncts_ext (c1 c2 : Order -> ExpOp) rest : forall pre,
  Forall (fun ob => c1 (OrderBy.Order ob) = c2 (OrderBy.Order ob)) rest ->
  seekDisjuncts c1 pre rest = seekDisjuncts c2 pre rest.
Proof.
  induction rest as [| ob rest IH]; intros pre F; [reflexivity |].
  inversion F as [| ? ? Hob Hrest]; subst. simpl.
  rewrite (IH _ Hrest). f_equal. f_equal.
  unfold seekDisjunct, compareLeaf. rewrite Hob. reflexivity.
Qed.

(** For order columns whose direction is not [desc_nulls_first] or
    [desc_nulls_last], the expression is the one the cursor rule asks for:
    greater-than for an ascending column, lesser-than for a descending one. *)
Lemma seekPredicate_as_claimed (obs : list OrderBy.t) :
  Forall (fun ob => OrderBy.Order ob <> OrderDescNullsFirst /\
                    OrderBy.Order ob <> OrderDescNullsLast) obs ->
  seekPredicate obs = seekShape claimedCompare obs.
Proof.
  intros F. rewrite seekPredicate_shape.
  destruct obs as [| ob0 rest]; [reflexivity |].
  unfold seekShape. f_equal. f_equal. f_equal.
  apply seekDisjuncts_ext. eapply Forall_impl; [exact F |].
  intros ob [H1 H2]. unfold seekCompare, claimedCompare, isDescending.
  destruct (OrderBy.Order ob); try reflexivity; contradiction.
Qed.

(** C3. The code at a cursor query ordered by a [desc_nulls_first] column,
    [{ posts(order_by: {title: desc_nulls_first}, first: 10, after: $cursor) { id } }]:
    the seek predicate put in [Where] is the disjunction of the is-null leaf,
    a comparison of [title] and a conjunct for the tie-breaker, and [title],
    a descending column, is compared with greater-than where the cursor rule
    asks for lesser-than. *)
Theorem seek_desc_nulls_first_compares_greater :
  exists qc s e isnull cmp conj,
    Compile (X := TestData.env) TestData.co TestData.q_cursor ∅ "anon" = Some (Ok qc) /\
    QCode.Selects qc = [s] /\
    map (fun ob => (sdata.DBColumn.Name (OrderBy.Col ob), OrderBy.Order ob)) (Select.OrderBy s)
    = [("title", OrderDescNullsFirst); ("id", OrderAsc)] /\
    Select.Where s = Some e /\
    Exp.Op e = OpOr /\
    Exp.Children e = [Some isnull; Some cmp; Some conj] /\
    isnull = isNullLeaf (OrderBy.mk TestData.posts_title OrderDescNullsFirst) /\
    Exp.Col cmp = TestData.posts_title /\
    Exp.Table cmp = "__cur" /\
    Exp.Op cmp = OpGreaterThan /\
    claimedCompare OrderDescNullsFirst = OpLesserThan /\
    Select.Where s <> seekShape claimedCompare (Select.OrderBy s).
Proof.
  do 6 eexists.
  split; [vm_compute; reflexivity |].
  repeat (split; [reflexivity |]).
  vm_compute. discriminate.
Qed.

(** * More properties *)

(** ** The shape of a compiled QCode *)

Section CompiledShape.
Context {X : Externals} {OK : ExternalsOK}.
Variable co : Compiler.

(** A successful [Compile] left the loop with at least one select. *)
Lemma Compile_Ok_nonzero query vars role qc :
  Compile co query vars role = Some (Ok qc) ->
  exists op st0 qc0 qcL idL,
    Parse query = Ok op /\
    loopEntry vars op = Ok (st0, qc0, 0%Z) /\
    compileLoop co (Z.to_nat maxSelectors) op role st0 qc0 0 = Some (Ok (qcL, idL)) /\
    loopInv qcL idL /\ idL <> 0%Z /\
    (qc = qcL \/ compileMutation qcL op role = Ok qc).
Proof.
  intros E.
  destruct (Parse query) as [op | m | m] eqn:EP;
    [| unfold Compile in E; rewrite EP in E; discriminate ..].
  rewrite (Compile_eq _ _ _ _ _ EP) in E.
  destruct (loopEntry vars op) as [[[st0 qc0] id0] | m | m] eqn:EL; try discriminate.
  destruct (loopEntry_inv _ _ _ _ _ EL) as (-> & Hs & _).
  destruct (compileLoop_inv co op role (Z.to_nat maxSelectors) st0 qc0 0
              (loopInv_entry _ Hs)) as (r & Hr & Hp).
  { unfold maxSelectors. lia. }
  rewrite Hr in E. destruct r as [[qcL idL] | m | m]; try discriminate.
  destruct (Hp _ _ eq_refl) as [I T].
  destruct (Z.eqb_spec idL 0) as [Hz | Hnz]; [discriminate |].
  exists op, st0, qc0, qcL, idL. split; [reflexivity |].
  repeat (split; [assumption |]).
  destruct (QCode.Type_ qcL); inversion E; subst; auto.
Qed.
End CompiledShape.

(** X1. In a QCode returned by [Compile] the ids are dense: the select at
    position [i] of [Selects] has id [i]. *)
Theorem compile_dense_ids {X : Externals} {OK : ExternalsOK} (co : Compiler)
    (query : string) (vars : Variables) (role : string) (qc : QCode.t) :
  Compile co query vars role = Some (Ok qc) ->
  forall (i : Z) (s : Select.t),
    index (QCode.Selects qc) i = Ok s -> Select.ID s = i.
Proof.
  intros E i s Hi. apply Compile_wf in E as [_ W].
  apply index_Ok in Hi as [Hge Hl].
  destruct (W _ _ Hl) as [Hid _]. rewrite Hid. lia.
Qed.

Lemma compile_dense_ids_nested :
  exists qc s,
    Compile (X := TestData.env) TestData.co TestData.q_nested ∅ "user" = Some (Ok qc) /\
    index (QCode.Selects qc) 1 = Ok s /\
    Select.Table s = "posts" /\
    Select.ID s = 1%Z.
Proof.
  eexists. eexists.
  split; [vm_compute; reflexivity |].
  split; [reflexivity |].
  split; [reflexivity |].
  eapply (compile_dense_ids (X := TestData.env) (OK := TestData_ok)
            TestData.co TestData.q_nested ∅ "user").
  - vm_compute; reflexivity.
  - reflexivity.
Defined.

(** X2. A QCode returned by [Compile] is never empty, and its first select is
    a root with id 0 (an operation whose fields give no select fails with
    "invalid query"). *)
Theorem compile_first_select_is_root {X : Externals} {OK : ExternalsOK} (co : Compiler)
    (query : string) (vars : Variables) (role : string) (qc : QCode.t) :
  Compile co query vars role = Some (Ok qc) ->
  exists s rest,
    QCode.Selects qc = s :: rest /\
    Select.ID s = 0%Z /\
    Select.ParentID s = (-1)%Z.
Proof.
  intros E. pose proof (Compile_wf _ _ _ _ _ E) as [_ W].
  apply Compile_Ok_nonzero in E
    as (op & st0 & qc0 & qcL & idL & _ & _ & _ & (Hid & _ & _) & Hnz & D).
  assert (Hlen : length (QCode.Selects qc) <> O).
  { destruct D as [-> | EM]; [lia |].
    apply compileMutation_frame in EM. apply Forall2_length in EM. lia. }
  destruct (QCode.Selects qc) as [| s rest] eqn:Es; [contradiction |].
  exists s, rest. split; [reflexivity |].
  destruct (W O s eq_refl) as [Hi HL]. split; [exact Hi |].
  destruct HL as [HL | (Hr & _)]; [exact HL | lia].
Qed.

Lemma compile_first_select_is_root_nested :
  exists qc s rest,
    Compile (X := TestData.env) TestData.co TestData.q_nested ∅ "user" = Some (Ok qc) /\
    QCode.Selects qc = s :: rest /\
    Select.ID s = 0%Z /\
    Select.ParentID s = (-1)%Z.
Proof.
  eexists.
  assert (E : Compile (X := TestData.env) TestData.co TestData.q_nested ∅ "user"
              = Some (Ok _)) by (vm_compute; reflexivity).
  destruct (compile_first_select_is_root (X := TestData.env) (OK := TestData_ok)
              _ _ _ _ _ E) as (s & rest & H1 & H2 & H3).
  exists s, rest. split; [exact E |]. split; [exact H1 |]. split; [exact H2 | exact H3].
Defined.

(** ** Roots and remote selects *)

Ltac rel_step :=
  inv_ok; simpl in *;
  repeat match goal with
         | |- context [if ?b then _ else _] => destruct b
         end;
  simpl in *; congruence.

Section Rels.
Context {X : Externals}.
Variable co : Compiler.

Lemma distinctOnCols_rel children : forall sel sel',
  distinctOnCols sel children = Ok sel' -> Select.Rel sel' = Select.Rel sel.
Proof.
  induction children as [| cn children IH]; intros sel sel' E; simpl in E.
  - inv_ok. reflexivity.
  - apply bind_Ok in E as (s1 & E1 & E). apply IH in E. rewrite E.
    unfold distinctOnCol in E1. rel_step.
Qed.

Lemma compileArg_rel sel arg role sel' :
  compileArg sel arg role = Ok sel' -> Select.Rel sel' = Select.Rel sel.
Proof.
  unfold compileArg. intros E.
  repeat match type of E with
         | (if ?b then _ else _) = _ => destruct b
         end.
  - unfold compileArgID in E. rel_step.
  - unfold compileArgSearch, addArg in E. rel_step.
  - unfold compileArgWhere in E. rel_step.
  - unfold compileArgOrderBy in E. rel_step.
  - unfold compileArgDistinctOn in E. inv_ok.
    + apply distinctOnCols_rel in E. rewrite E. unfold distinctOnCol in E0. rel_step.
    + apply distinctOnCols_rel in E. exact E.
  - unfold compileArgLimit in E. rel_step.
  - unfold compileArgOffset in E. rel_step.
  - unfold compileArgFirstLast, compileArgLimit in E. rel_step.
  - unfold compileArgFirstLast, compileArgLimit in E. rel_step.
  - unfold compileArgAfterBefore in E. rel_step.
  - unfold compileArgAfterBefore in E. rel_step.
  - unfold compileArgFind, addArg in E. rel_step.
  - inv_ok. reflexivity.
Qed.

Lemma compileArgs_rel args role : forall sel sel',
  compileArgs sel args role = Ok sel' -> Select.Rel sel' = Select.Rel sel.
Proof.
  induction args as [| arg args IH]; intros sel sel' E; simpl in E.
  - inv_ok. reflexivity.
  - apply bind_Ok in E as (s1 & E1 & E).
    apply compileArg_rel in E1. apply IH in E. congruence.
Qed.

Lemma setSingular_rel fieldName sel :
  Select.Rel (setSingular co fieldName sel) = Select.Rel sel.
Proof.
  unfold setSingular.
  repeat match goal with
         | |- context [if ?b then _ else _] => destruct b
         | |- context [match ?x with _ => _ end] => destruct x
         end; reflexivity.
Qed.

Lemma setLimit_rel tr qc sel : Select.Rel (setLimit co tr qc sel) = Select.Rel sel.
Proof.
  unfold setLimit.
  repeat match goal with
         | |- context [if ?b then _ else _] => destruct b
         end; reflexivity.
Qed.

Lemma keepsRel_refl l : Forall2 keepsRel l l.
Proof. induction l; constructor; auto. reflexivity. Qed.

Lemma keepsRel_trans l1 l2 l3 :
  Forall2 keepsRel l1 l2 -> Forall2 keepsRel l2 l3 -> Forall2 keepsRel l1 l3.
Proof.
  intros H. revert l3. induction H; intros l3 H3; inversion H3; subst; constructor; auto.
  unfold keepsRel in *. congruence.
Qed.

Lemma keepsRel_store l i p ch :
  index l i = Ok p ->
  Forall2 keepsRel l (store l i (Select.set_Children ch p)).
Proof.
  intros E. apply index_Ok in E as [Hi E]. unfold store.
  generalize dependent (Z.to_nat i). clear i Hi.
  induction l as [| a l IH]; intros n E; destruct n; simpl in *; try discriminate.
  - inversion E; subst. constructor; [reflexivity | apply keepsRel_refl].
  - constructor; [reflexivity | auto].
Qed.

(** What [addRelInfo] does to [Roots] and [Remotes]. *)
Lemma addRelInfo_roots op qc sel field qc' sel' :
  addRelInfo co op qc sel field = Ok (qc', sel') ->
  QCode.Roots qc' = (if (Select.ParentID sel =? -1)%Z
                     then QCode.Roots qc ++ [Select.ID sel] else QCode.Roots qc) /\
  QCode.Remotes qc' = (if isRemote sel' then int32 (QCode.Remotes qc + 1)
                       else QCode.Remotes qc) /\
  Forall2 keepsRel (QCode.Selects qc) (QCode.Selects qc').
Proof.
  unfold addRelInfo. intros E.
  apply bind_Ok in E as (r1 & E1 & E). destruct r1 as [[qc1 psel] parentF].
  apply bind_Ok in E as (r2 & E2 & E). destruct r2 as [[sel2 childF] parentF2].
  assert (T : QCode.Roots qc' = QCode.Roots qc1 /\
              QCode.Selects qc' = QCode.Selects qc1 /\
              QCode.Remotes qc' = (if isRemote sel' then int32 (QCode.Remotes qc1 + 1)
                                   else QCode.Remotes qc1)).
  { clear E1 E2.
    pose proof (setSingular_rel (graph.Field.Name field)) as KS.
    unfold isRemote.
    destruct (sdata.DBRel.Type_ (Select.Rel sel2)) eqn:ER;
      inv_ok; simpl in *;
      rewrite ?KS; simpl;
      repeat match goal with
             | H : sdata.DBRel.Type_ _ = _ |- _ => rewrite H
             end;
      simpl; auto. }
  destruct T as (T1 & T2 & T3). rewrite T1, T2, T3. clear E E2 T1 T2 T3.
  destruct (Select.ParentID sel =? -1)%Z eqn:EP.
  - inv_ok. simpl. split; [reflexivity |]. split; [reflexivity | apply keepsRel_refl].
  - apply bind_Ok in E1 as (p & Ep & E1). apply bind_Ok in E1 as (pf & Epf & E1).
    inv_ok. simpl. split; [reflexivity |]. split; [reflexivity |].
    apply keepsRel_store. exact Ep.
Qed.
End Rels.

Section RootsLoop.
Context {X : Externals} {OK : ExternalsOK} {KP : ExternalsKeep}.
Variable co : Compiler.

Lemma rootIDs_frame l l' : Forall2 selFrame l l' -> rootIDs l' = rootIDs l.
Proof.
  unfold rootIDs. induction 1 as [| a b l l' (E1 & E2 & _) F IH]; [reflexivity |].
  cbn [List.filter map]. rewrite E2.
  destruct (Select.ParentID a =? -1)%Z; cbn [map]; rewrite ?E1, IH; reflexivity.
Qed.

Lemma remoteCount_keeps l l' : Forall2 keepsRel l l' -> remoteCount l' = remoteCount l.
Proof.
  unfold remoteCount. intros F. f_equal.
  induction F as [| a b l l' E F IH]; [reflexivity |].
  assert (Hb : isRemote b = isRemote a) by (unfold isRemote; rewrite E; reflexivity).
  cbn [List.filter]. rewrite Hb.
  destruct (isRemote a); cbn [length]; rewrite IH; reflexivity.
Qed.

Lemma rootIDs_snoc l s :
  rootIDs (l ++ [s]) =
  if (Select.ParentID s =? -1)%Z then rootIDs l ++ [Select.ID s] else rootIDs l.
Proof.
  unfold rootIDs. rewrite List.filter_app, map_app. simpl.
  destruct (Select.ParentID s =? -1)%Z; simpl; [reflexivity | apply app_nil_r].
Qed.

Lemma remoteCount_snoc l s :
  remoteCount (l ++ [s]) = if isRemote s then (remoteCount l + 1)%Z else remoteCount l.
Proof.
  unfold remoteCount. rewrite List.filter_app, length_app. simpl.
  destruct (isRemote s); simpl; lia.
Qed.

Lemma remoteCount_le l : (0 <= remoteCount l <= Z.of_nat (length l))%Z.
Proof.
  unfold remoteCount. pose proof (List.filter_length_le isRemote l). lia.
Qed.

(** The bookkeeping of one iteration: the select appended last, and what
    became of [Roots] and [Remotes]. *)
Lemma compileSelect_roots op role st qc id parentID field st' qc' :
  compileSelect co op role st qc id parentID field = Ok (st', qc') ->
  exists l' s,
    QCode.Selects qc' = l' ++ [s] /\
    Forall2 keepsRel (QCode.Selects qc) l' /\
    QCode.Roots qc' = (if (parentID =? -1)%Z then QCode.Roots qc ++ [id]
                       else QCode.Roots qc) /\
    QCode.Remotes qc' = (if isRemote s then int32 (QCode.Remotes qc + 1)
                         else QCode.Remotes qc).
Proof.
  unfold compileSelect. intros E.
  set (s0 := Select.set_Children [] _) in E.
  assert (K0 : Select.ID s0 = id /\ Select.ParentID s0 = parentID).
  { subst s0. destruct (negb _); simpl; auto. }
  clearbody s0. destruct K0 as [K0a K0b].
  apply bind_Ok in E as (s1 & E1 & E). apply compileDirectives_key in E1 as [K1a K1b].
  apply bind_Ok in E as ([qc1 s2] & E2 & E).
  apply addRelInfo_roots in E2 as (R2 & M2 & F2).
  rewrite K1a, K1b, K0a, K0b in R2.
  apply bind_Ok in E as (s3 & E3 & E).
  assert (K3 : Select.Rel s3 = Select.Rel s2) by (clear E; rel_step).
  clear E3.
  pose proof (setLimit_rel co (getRole role (graph.Field.Name field)) qc1 s3) as K4.
  apply bind_Ok in E as (s5 & E5 & E). apply compileArgs_rel in E5.
  apply bind_Ok in E as ([[st6 qc6] s6] & E6 & E).
  apply compileColumns_keeps in E6 as (R6 & M6 & F6 & K6).
  destruct (addFilters _ _ _) as [w un].
  set (s7 := if un && _ then _ else _) in E.
  assert (K7 : Select.Rel s7 = Select.Rel s6).
  { subst s7. destruct (un && _); reflexivity. }
  clearbody s7.
  apply bind_Ok in E as (s8 & E8 & E).
  assert (K8 : Select.Rel s8 = Select.Rel s7).
  { clear E. destruct (Paging.Cursor (Select.Paging s7)).
    - apply bind_Ok in E8 as (s' & Eo & E8). apply orderByIDCol_keeps in Eo.
      destruct (negb _); inv_ok; simpl; auto.
    - inv_ok. reflexivity. }
  clear E8.
  apply bind_Ok in E as (u & _ & E). inversion E; subst st' qc'; clear E. simpl.
  exists (QCode.Selects qc6), s8. split; [reflexivity |].
  split; [eapply keepsRel_trans; eauto |].
  split; [congruence |].
  rewrite M6, M2. unfold isRemote.
  replace (Select.Rel s8) with (Select.Rel s2) by congruence. reflexivity.
Qed.

Lemma rootsInv_step op role st qc id parentID field st' qc' :
  loopInv qc id -> (id < maxSelectors)%Z -> rootsInv qc ->
  compileSelect co op role st qc id parentID field = Ok (st', qc') ->
  rootsInv qc'.
Proof.
  intros (Hid & Hle & W) Hlt [R M] E.
  pose proof E as E'.
  apply compileSelect_spec in E' as (_ & l1 & s1 & Hs1 & F & Ks & Kp & _); [| assumption].
  apply compileSelect_roots in E as (l' & s & Hs & FK & R' & M').
  rewrite Hs in Hs1. apply app_inj_tail in Hs1 as [El Es]. subst l1 s1.
  unfold rootsInv. rewrite Hs, rootIDs_snoc, remoteCount_snoc, R', M'.
  rewrite (rootIDs_frame _ _ F), (remoteCount_keeps _ _ FK), Ks, Kp, R, M.
  split; [reflexivity |].
  destruct (isRemote s); [| reflexivity].
  pose proof (remoteCount_le (QCode.Selects qc)). unfold maxSelectors in *.
  apply int32_small. lia.
Qed.

(** A property of the QCode that every iteration keeps holds when the loop
    of [compileQuery] returns. *)
Lemma compileLoop_preserves (P : QCode.t -> Prop) op role :
  (forall st qc id parentID field st' qc',
     loopInv qc id -> (id < maxSelectors)%Z -> P qc ->
     compileSelect co op role st qc id parentID field = Ok (st', qc') -> P qc') ->
  forall fuel st qc id qc' id',
    loopInv qc id -> P qc ->
    compileLoop co fuel op role st qc id = Some (Ok (qc', id')) -> P qc'.
Proof.
  intros Step.
  induction fuel as [| fuel IHf]; intros st; induction st as [| val st IHs];
    intros qc id qc' id' I HP E.
  - rewrite compileLoop_nil in E. inversion E; subst. exact HP.
  - rewrite compileLoop_cons in E.
    destruct (Z.geb_spec id maxSelectors) as [Hge | Hlt]; [discriminate |].
    destruct (index _ _) as [field | m | m]; try discriminate.
    destruct (graph.Field.Type_ field);
      try (destruct (compileSelect _ _ _ _ _ _ _ _) as [[st1 qc1] | m | m];
           discriminate).
    eapply IHs; eauto.
  - rewrite compileLoop_nil in E. inversion E; subst. exact HP.
  - rewrite compileLoop_cons in E.
    destruct (Z.geb_spec id maxSelectors) as [Hge | Hlt]; [discriminate |].
    destruct (index _ _) as [field | m | m]; try discriminate.
    assert (Hsel :
      match compileSelect co op role st qc id
              (if (graph.Field.ParentID field =? -1)%Z then (-1)%Z
               else Z.land (Z.shiftr val 16) 0xFFFF) field with
      | Ok (st, qc) => compileLoop co fuel op role st qc (int32 (id + 1))
      | Err m => Some (Err m)
      | Panic m => Some (Panic m)
      end = Some (Ok (qc', id')) -> P qc').
    { destruct (compileSelect _ _ _ _ _ _ _ _) as [[st1 qc1] | m | m] eqn:ES;
        try discriminate.
      intros E1.
      destruct (loopInv_step co op role _ _ _ _ _ _ _ I Hlt ES) as [I1 _].
      eapply IHf; [exact I1 | | exact E1].
      exact (Step _ _ _ _ _ _ _ I Hlt HP ES). }
    destruct (graph.Field.Type_ field); try (apply Hsel; exact E).
    eapply IHs; eauto.
Qed.

Lemma loopEntry_roots vars op st0 qc0 id0 :
  loopEntry vars op = Ok (st0, qc0, id0) ->
  QCode.Roots qc0 = [] /\ QCode.Remotes qc0 = 0%Z.
Proof.
  unfold loopEntry. intros E.
  apply bind_Ok in E as (q1 & E1 & E).
  assert (H1 : QCode.Roots q1 = [] /\ QCode.Remotes q1 = 0%Z).
  { destruct (graph.Operation.Type_ op); inv_ok; simpl; auto. }
  clear E1. destruct (graph.Operation.Fields op) as [| f0 fs]; [discriminate |].
  apply bind_Ok in E as (q2 & E2 & E). inversion E; subst; clear E. simpl.
  assert (G : forall args q q', setMutationType q args = Ok q' ->
                QCode.Roots q' = QCode.Roots q /\ QCode.Remotes q' = QCode.Remotes q).
  { clear. induction args as [| a args IH]; intros q q' E; simpl in E.
    - inv_ok. auto.
    - unfold setActionVar in E.
      repeat match type of E with
             | (if ?b then _ else _) = _ => destruct b
             end; try (apply IH; exact E); inv_ok; simpl; auto. }
  destruct (graph.Operation.Type_ op); try (inv_ok; exact H1).
  apply G in E2 as [-> ->]. exact H1.
Qed.

Lemma Compile_rootsInv query vars role qc :
  Compile co query vars role = Some (Ok qc) -> rootsInv qc.
Proof.
  intros E.
  apply Compile_Ok in E
    as (op & st0 & qc0 & qcL & idL & _ & EL & ELoop & _ & _ & D).
  pose proof (loopEntry_inv _ _ _ _ _ EL) as (_ & Hs & _).
  pose proof (loopEntry_roots _ _ _ _ _ EL) as [R0 M0].
  assert (RL : rootsInv qcL).
  { eapply (compileLoop_preserves rootsInv op role); [| | | exact ELoop].
    - intros. eapply rootsInv_step; eauto.
    - apply loopInv_entry. exact Hs.
    - unfold rootsInv. rewrite R0, M0, Hs. split; reflexivity. }
  destruct D as [[_ ->] | [_ EM]]; [exact RL |].
  pose proof (compileMutation_frame _ _ _ _ EM) as F.
  apply compileMutation_keeps in EM as (R & M & FK).
  destruct RL as [RL ML]. unfold rootsInv.
  rewrite R, M, (rootIDs_frame _ _ F), (remoteCount_keeps _ _ FK). auto.
Qed.
End RootsLoop.

Lemma columnsOf_rel op cids : forall sel st st' sel',
  TestData.columnsOf op sel cids st = Ok (st', sel') -> Select.Rel sel' = Select.Rel sel.
Proof.
  induction cids as [| cid cids IH]; intros sel st st' sel' E; simpl in E.
  - inversion E; subst. reflexivity.
  - apply bind_Ok in E as (f & _ & E).
    destruct (graph.Field.Children f).
    + apply bind_Ok in E as (c0 & _ & E). apply IH in E. exact E.
    + apply IH in E. exact E.
Qed.

(** The stand-ins of the test schema keep roots and relationships. *)
Lemma TestData_keep : @ExternalsKeep TestData.env.
Proof.
  constructor.
  - intros st op qc sel field tr st' qc' sel' E. simpl in E. unfold TestData.columns in E.
    apply bind_Ok in E as ([st1 sel1] & E1 & E). inversion E; subst; clear E.
    apply columnsOf_rel in E1.
    split; [reflexivity |]. split; [reflexivity |]. split; [apply keepsRel_refl | exact E1].
  - intros sel sel' E. simpl in E. unfold TestData.tieBreaker in E.
    destruct (_ =? _); [discriminate |]. inversion E; subst. reflexivity.
  - intros qc op role qc' E. simpl in E. inversion E; subst.
    split; [reflexivity |]. split; [reflexivity | apply keepsRel_refl].
Qed.

(** X3. In a QCode returned by [Compile], [Roots] is the list of the ids of
    the selects without a parent, in the order of [Selects]. *)
Theorem compile_roots_are_parentless {X : Externals} {OK : ExternalsOK}
    {KP : ExternalsKeep} (co : Compiler)
    (query : string) (vars : Variables) (role : string) (qc : QCode.t) :
  Compile co query vars role = Some (Ok qc) ->
  QCode.Roots qc = rootIDs (QCode.Selects qc).
Proof. intros E. apply Compile_rootsInv in E as [R _]. exact R. Qed.

Lemma compile_roots_are_parentless_nested :
  exists qc,
    Compile (X := TestData.env) TestData.co TestData.q_nested ∅ "user" = Some (Ok qc) /\
    QCode.Roots qc = [0%Z] /\
    QCode.Roots qc = rootIDs (QCode.Selects qc).
Proof.
  eexists. split; [vm_compute; reflexivity |]. split; [reflexivity |].
  eapply (compile_roots_are_parentless (X := TestData.env) (OK := TestData_ok)
            (KP := TestData_keep) TestData.co TestData.q_nested ∅ "user").
  vm_compute; reflexivity.
Defined.

(** X4. In a QCode returned by [Compile], [Remotes] is the number of selects
    bound by a remote relationship; the 32-bit counter cannot wrap. *)
Theorem compile_remotes_counted {X : Externals} {OK : ExternalsOK}
    {KP : ExternalsKeep} (co : Compiler)
    (query : string) (vars : Variables) (role : string) (qc : QCode.t) :
  Compile co query vars role = Some (Ok qc) ->
  QCode.Remotes qc = remoteCount (QCode.Selects qc) /\
  (0 <= QCode.Remotes qc <= 30)%Z.
Proof.
  intros E. pose proof (Compile_wf _ _ _ _ _ E) as [Hlen _].
  apply Compile_rootsInv in E as [_ M]. split; [exact M |].
  rewrite M. pose proof (remoteCount_le (QCode.Selects qc)). lia.
Qed.

(** The stand-ins of the test schema with the remote table meet the
    assumptions. *)
Lemma TestData2_ok : @ExternalsOK TestData2.env.
Proof.
  constructor.
  - intros st op qc sel field tr st' qc' sel' E. simpl in E. unfold TestData.columns in E.
    apply bind_Ok in E as ([st1 sel1] & E1 & E). inversion E; subst; clear E.
    apply columnsOf_key in E1 as [K1 K2].
    split; [reflexivity |]. split; [apply selsFrame_refl |]. auto.
  - intros sel sel' E. simpl in E. unfold TestData.tieBreaker in E.
    destruct (_ =? _); [discriminate |]. inversion E; subst. simpl. auto.
  - intros qc op role qc' E. simpl in E. inversion E; subst. apply selsFrame_refl.
Qed.

Lemma TestData2_keep : @ExternalsKeep TestData2.env.
Proof.
  constructor.
  - intros st op qc sel field tr st' qc' sel' E. simpl in E. unfold TestData.columns in E.
    apply bind_Ok in E as ([st1 sel1] & E1 & E). inversion E; subst; clear E.
    apply columnsOf_rel in E1.
    split; [reflexivity |]. split; [reflexivity |]. split; [apply keepsRel_refl | exact E1].
  - intros sel sel' E. simpl in E. unfold TestData.tieBreaker in E.
    destruct (_ =? _); [discriminate |]. inversion E; subst. reflexivity.
  - intros qc op role qc' E. simpl in E. inversion E; subst.
    split; [reflexivity |]. split; [reflexivity | apply keepsRel_refl].
Qed.

(** On the test schema with the remote table: in
    [{ users { id payments { id } } }] the select of [payments] is bound by
    a remote relationship and is the one select counted. *)
Lemma compile_remotes_counted_payments :
  exists qc s0 s1,
    Compile (X := TestData2.env) TestData.co TestData2.q_remote ∅ "user" = Some (Ok qc) /\
    QCode.Selects qc = [s0; s1] /\
    isRemote s0 = false /\
    isRemote s1 = true /\
    Select.Table s1 = "payments" /\
    QCode.Remotes qc = 1%Z /\
    QCode.Remotes qc = remoteCount (QCode.Selects qc) /\
    (0 <= QCode.Remotes qc <= 30)%Z.
Proof.
  eexists. eexists. eexists.
  split; [vm_compute; reflexivity |].
  split; [reflexivity |].
  split; [reflexivity |].
  split; [reflexivity |].
  split; [reflexivity |].
  split; [reflexivity |].
  eapply (compile_remotes_counted (X := TestData2.env) (OK := TestData2_ok)
            (KP := TestData2_keep) TestData.co TestData2.q_remote ∅ "user").
  vm_compute; reflexivity.
Defined.

(** ** Function fields ([fn.go]) *)

Lemma length_append (a b : string) :
  String.length (a +:+ b) = (String.length a + String.length b)%nat.
Proof. induction a as [| ch a IH]; simpl; [reflexivity | rewrite IH; reflexivity]. Qed.

Lemma prefix_append (p s : string) :
  String.prefix p s = true -> exists r, s = p +:+ r.
Proof.
  revert s. induction p as [| a p IH]; intros s H.
  - exists s. reflexivity.
  - destruct s as [| b s]; simpl in H; [discriminate |].
    destruct (ascii_dec a b) as [-> |]; [| discriminate].
    destruct (IH _ H) as [r ->]. exists r. reflexivity.
Qed.

Lemma append_prefix (p r : string) : String.prefix p (p +:+ r) = true.
Proof.
  induction p as [| a p IH]; simpl; [destruct r; reflexivity |].
  destruct (ascii_dec a a); [exact IH | congruence].
Qed.

Lemma substring_all (b : string) : String.substring 0 (String.length b) b = b.
Proof. induction b as [| ch b IH]; simpl; [reflexivity | rewrite IH; reflexivity]. Qed.

Lemma substring_drop (a b : string) :
  String.substring (String.length a) (String.length b) (a +:+ b) = b.
Proof. induction a as [| ch a IH]; simpl; [apply substring_all | exact IH]. Qed.

Lemma substring_take (a b : string) :
  String.substring 0 (String.length a) (a +:+ b) = a.
Proof.
  induction a as [| ch a IH]; simpl; [destruct b; reflexivity | rewrite IH; reflexivity].
Qed.

Lemma get_append (a b : string) :
  String.get (String.length a) (a +:+ b) = String.get 0 b.
Proof. induction a as [| ch a IH]; simpl; [reflexivity | exact IH]. Qed.

Lemma sliceFrom_append (a b : string) : sliceFrom (a +:+ b) (len a) = Ok b.
Proof.
  unfold sliceFrom, len. rewrite length_append.
  destruct (Z.ltb_spec (Z.of_nat (String.length a)) 0); [lia |].
  destruct (Z.ltb_spec (Z.of_nat (String.length a + String.length b))
                       (Z.of_nat (String.length a))); [lia |].
  simpl. rewrite Nat2Z.id.
  replace (String.length a + String.length b - String.length a)%nat
    with (String.length b) by lia.
  rewrite substring_drop. reflexivity.
Qed.

Lemma sliceTo_append (a b : string) : sliceTo (a +:+ b) (len a) = Ok a.
Proof.
  unfold sliceTo, len. rewrite length_append.
  destruct (Z.ltb_spec (Z.of_nat (String.length a)) 0); [lia |].
  destruct (Z.ltb_spec (Z.of_nat (String.length a + String.length b))
                       (Z.of_nat (String.length a))); [lia |].
  simpl. rewrite Nat2Z.id, substring_take. reflexivity.
Qed.

Lemma append_assoc (a b c : string) : (a +:+ b) +:+ c = a +:+ (b +:+ c).
Proof.
  induction a as [| ch a IH]; [reflexivity |].
  change (String ch ((a +:+ b) +:+ c) = String ch (a +:+ (b +:+ c))). f_equal. exact IH.
Qed.

Section FunctionFacts.
Variable functions : list string.

(** A non-zero result of the loop over the database functions splits the
    column name at an underscore that follows a function name. *)
Lemma schemaPrefixLen_split col : forall ks n,
  schemaPrefixLen col ks = Ok n -> n <> 0%Z ->
  exists name rest,
    col = name +:+ "_" +:+ rest /\ n = (len name + 1)%Z /\ name <> "" /\ name ∈ ks.
Proof.
  induction ks as [| k ks IH]; intros n E Hn; simpl in E.
  - inversion E; subst. contradiction.
  - assert (Hrec : schemaPrefixLen col ks = Ok n ->
                   exists name rest,
                     col = name +:+ "_" +:+ rest /\ n = (len name + 1)%Z /\
                     name <> "" /\ name ∈ k :: ks).
    { intros E'. destruct (IH _ E' Hn) as (name & rest & H1 & H2 & H3 & H4).
      exists name, rest. repeat split; auto. apply elem_of_cons. auto. }
    destruct (len k <? len col)%Z; [| auto].
    apply bind_Ok in E as (k0 & Ek0 & E). apply bind_Ok in E as (c0 & Ec0 & E).
    destruct (Ascii.eqb k0 c0 && HasPrefix col k) eqn:EH; [| auto].
    apply andb_true_iff in EH as [_ EH].
    apply bind_Ok in E as (ck & Eck & E).
    destruct (Ascii.eqb_spec ck "_"); [| auto].
    inversion E; subst n ck; clear E Hrec IH.
    apply prefix_append in EH as [r ->].
    unfold byteAt, len in Eck.
    destruct (Z.ltb_spec (Z.of_nat (String.length k)) 0); [lia |].
    rewrite Nat2Z.id, get_append in Eck.
    destruct r as [| ch r]; simpl in Eck; [discriminate |].
    inversion Eck; subst ch.
    exists k, r. split; [reflexivity |]. split; [reflexivity |].
    split; [| apply elem_of_cons; auto].
    intros ->. unfold byteAt in Ek0. simpl in Ek0. discriminate.
Qed.

Ltac builtin name E :=
  match goal with
  | H : HasPrefix _ _ = true |- _ =>
    apply prefix_append in H as [r ->]; inversion E; subst;
    exists name, r; repeat split; try reflexivity; discriminate
  end.

Lemma funcPrefixLen_split col n :
  funcPrefixLen functions col = Ok n -> n <> 0%Z ->
  exists name rest, col = name +:+ "_" +:+ rest /\ n = (len name + 1)%Z /\ name <> "".
Proof.
  unfold funcPrefixLen. intros E Hn.
  destruct (HasPrefix col "avg_") eqn:H1; [builtin "avg" E |].
  destruct (HasPrefix col "count_") eqn:H2; [builtin "count" E |].
  destruct (HasPrefix col "max_") eqn:H3; [builtin "max" E |].
  destruct (HasPrefix col "min_") eqn:H4; [builtin "min" E |].
  destruct (HasPrefix col "sum_") eqn:H5; [builtin "sum" E |].
  destruct (HasPrefix col "stddev_") eqn:H6; [builtin "stddev" E |].
  destruct (HasPrefix col "stddev_pop_") eqn:H7; [builtin "stddev_pop" E |].
  destruct (HasPrefix col "stddev_samp_") eqn:H8; [builtin "stddev_samp" E |].
  destruct (HasPrefix col "variance_") eqn:H9; [builtin "variance" E |].
  destruct (HasPrefix col "var_pop_") eqn:H10; [builtin "var_pop" E |].
  destruct (HasPrefix col "var_samp_") eqn:H11; [builtin "var_samp" E |].
  destruct (schemaPrefixLen_split _ _ _ E Hn) as (name & rest & ? & ? & ? & _).
  exists name, rest. auto.
Qed.

Lemma isFunction_agg sel fname sel' fn fnExp :
  isFunction functions sel fname = Ok (sel', fn, fnExp, true) ->
  exists n name,
    funcPrefixLen functions fname = Ok n /\
    fname = name +:+ "_" +:+ fnExp /\ n = (len name + 1)%Z /\ name <> "" /\
    sel' = sel /\ fn = Function.mk name None sdata.DBColumn.zero fname false.
Proof.
  unfold isFunction. intros E.
  destruct (fname =? "search_rank").
  { destruct (Select.ArgMap sel !! "search"); inversion E. }
  destruct (HasPrefix fname "search_headline_").
  { apply bind_Ok in E as (x & _ & E).
    destruct (Select.ArgMap sel !! "search"); inversion E. }
  destruct (fname =? "__typename"); [inversion E |].
  destruct (HasSuffix fname "_cursor"); [inversion E |].
  apply bind_Ok in E as (n & En & E).
  destruct (Z.eqb_spec n 0) as [| Hn]; simpl in E; [inversion E |].
  destruct (funcPrefixLen_split _ _ En Hn) as (name & rest & Hf & Hl & Hne).
  exists n, name. split; [exact En |].
  assert (S1 : sliceFrom fname n = Ok rest).
  { rewrite Hf, Hl.
    replace (len name + 1)%Z with (len (name +:+ "_"))
      by (unfold len; rewrite length_append; simpl; lia).
    rewrite <- append_assoc. apply sliceFrom_append. }
  assert (S2 : sliceTo fname (n - 1) = Ok name).
  { rewrite Hf, Hl. replace (len name + 1 - 1)%Z with (len name) by lia.
    apply sliceTo_append. }
  rewrite S1 in E. cbn [bind] in E. rewrite S2 in E. cbn [bind] in E.
  inversion E; subst. auto.
Qed.
End FunctionFacts.

(** X5. Round trip of an aggregate field: when [isFunction] reports an
    aggregate, the field name is the function name, an underscore and the
    expression it returns; the function name is not empty and the select is
    left as it was. *)
Theorem isFunction_aggregate_round_trip (functions : list string) (sel sel' : Select.t)
    (fname fnExp : string) (fn : Function.t Select.t) :
  isFunction functions sel fname = Ok (sel', fn, fnExp, true) ->
  fname = Function.Name fn +:+ "_" +:+ fnExp /\
  Function.Name fn <> "" /\
  Function.FieldName fn = fname /\
  Function.skip fn = false /\
  sel' = sel.
Proof.
  intros E. apply isFunction_agg in E as (n & name & _ & Hf & _ & Hne & -> & ->).
  simpl. auto.
Qed.

Lemma isFunction_aggregate_round_trip_lower :
  exists fn,
    isFunction TestFilters.functions (TestData.rootSel TestData.users) "lower_name"
    = Ok (TestData.rootSel TestData.users, fn, "name", true) /\
    "lower_name" = Function.Name fn +:+ "_" +:+ "name" /\
    Function.Name fn <> "" /\
    Function.FieldName fn = "lower_name" /\
    Function.skip fn = false /\
    TestData.rootSel TestData.users = TestData.rootSel TestData.users.
Proof.
  eexists. split; [vm_compute; reflexivity |].
  eapply (isFunction_aggregate_round_trip TestFilters.functions).
  vm_compute; reflexivity.
Defined.



Lemma get_Some (s : string) : forall n,
  (n < String.length s)%nat -> exists ch, String.get n s = Some ch.
Proof.
  induction s as [| c s IH]; intros n Hn; simpl in Hn; [lia |].
  destruct n as [| n]; simpl; [eauto |]. apply IH. lia.
Qed.

Lemma byteAt_Ok (s : string) (i : Z) :
  (0 <= i < len s)%Z -> exists ch, byteAt s i = Ok ch.
Proof.
  unfold byteAt, len. intros Hi.
  destruct (Z.ltb_spec i 0); [lia |].
  destruct (get_Some s (Z.to_nat i)) as [ch ->]; [lia | eauto].
Qed.

Lemma len_pos (s : string) : s <> "" -> (0 < len s)%Z.
Proof. unfold len. destruct s; [congruence | simpl; lia]. Qed.

Lemma len_nonneg (s : string) : (0 <= len s)%Z.
Proof. unfold len. lia. Qed.

Section PanicFacts.
Variable functions : list string.

Lemma schemaPrefixLen_no_panic col : forall ks,
  "" ∉ ks -> forall m, schemaPrefixLen col ks <> Panic m.
Proof.
  induction ks as [| k ks IH]; intros Hks m; simpl; [discriminate |].
  assert (Hk : k <> "") by (intros ->; apply Hks; apply elem_of_cons; auto).
  assert (Hr : schemaPrefixLen col ks <> Panic m).
  { apply IH. intros H. apply Hks. apply elem_of_cons. auto. }
  destruct (Z.ltb_spec (len k) (len col)) as [Hlt |]; [| exact Hr].
  pose proof (len_pos _ Hk) as Hp.
  destruct (byteAt_Ok k 0) as [k0 ->]; [lia |].
  destruct (byteAt_Ok col 0) as [c0 ->]; [lia |].
  cbn [bind]. destruct (Ascii.eqb k0 c0 && HasPrefix col k); [| exact Hr].
  destruct (byteAt_Ok col (len k)) as [ck ->]; [pose proof (len_nonneg k); lia |].
  cbn [bind]. destruct (Ascii.eqb ck "_"); [discriminate | exact Hr].
Qed.

Lemma funcPrefixLen_no_panic col :
  "" ∉ functions -> forall m, funcPrefixLen functions col <> Panic m.
Proof.
  intros Hf m. unfold funcPrefixLen.
  repeat match goal with
         | |- context [if ?b then _ else _] => destruct b; [discriminate |]
         end.
  apply schemaPrefixLen_no_panic. exact Hf.
Qed.

Lemma funcPrefixLen_slices col n :
  funcPrefixLen functions col = Ok n -> n <> 0%Z ->
  exists name rest, sliceFrom col n = Ok rest /\ sliceTo col (n - 1) = Ok name.
Proof.
  intros E Hn.
  destruct (funcPrefixLen_split _ _ _ E Hn) as (name & rest & Hf & Hl & _).
  exists name, rest. split.
  - rewrite Hf, Hl.
    replace (len name + 1)%Z with (len (name +:+ "_"))
      by (unfold len; rewrite length_append; simpl; lia).
    rewrite <- append_assoc. apply sliceFrom_append.
  - rewrite Hf, Hl. replace (len name + 1 - 1)%Z with (len name) by lia.
    apply sliceTo_append.
Qed.
End PanicFacts.

(** X7. [isFunction] cannot panic, whatever the field name: the slices
    [fname[16:]], [fname[n:]] and [fname[:n-1]] are always within bounds,
    provided that no database function has an empty name. *)
Theorem isFunction_never_panics (functions : list string) (sel : Select.t)
    (fname : string) :
  "" ∉ functions ->
  forall m, isFunction functions sel fname <> Panic m.
Proof.
  intros Hf m. unfold isFunction.
  destruct (fname =? "search_rank").
  { destruct (Select.ArgMap sel !! "search"); discriminate. }
  destruct (HasPrefix fname "search_headline_") eqn:HP.
  { apply prefix_append in HP as [r ->].
    change 16%Z with (len "search_headline_"). rewrite sliceFrom_append. cbn [bind].
    destruct (Select.ArgMap sel !! "search"); discriminate. }
  destruct (fname =? "__typename"); [discriminate |].
  destruct (HasSuffix fname "_cursor"); [discriminate |].
  destruct (funcPrefixLen functions fname) as [n | e | e] eqn:En; cbn [bind].
  - destruct (Z.eqb_spec n 0) as [| Hn]; cbn [negb]; [discriminate |].
    destruct (funcPrefixLen_slices _ _ _ En Hn) as (name & rest & -> & ->).
    cbn [bind]. discriminate.
  - discriminate.
  - exfalso. exact (funcPrefixLen_no_panic _ _ Hf _ En).
Qed.

Lemma isFunction_never_panics_lower :
("" ∉ TestFilters.functions) /\
  forall m, isFunction TestFilters.functions (TestData.rootSel TestData.users) "lower_"
            <> Panic m.
Proof.
  assert (H : "" ∉ TestFilters.functions).
  { unfold TestFilters.functions. intros H.
    apply elem_of_cons in H as [H | H]; [discriminate |].
    apply elem_of_cons in H as [H | H]; [discriminate |].
    apply elem_of_nil in H. exact H. }
  split; [exact H |].
  apply (isFunction_never_panics TestFilters.functions); exact H.
Defined.

(** X8. A database function with an empty name makes [funcPrefixLen] panic
    on [k[0]] for every non-empty column name that has none of the built-in
    prefixes, as soon as the loop over the functions reaches it first. *)
Theorem funcPrefixLen_empty_function_name_panics (ks : list string) (col : string) :
  col <> "" ->
  funcPrefixLen [] col = Ok 0%Z ->
  funcPrefixLen ("" :: ks) col = Panic "index out of range".
Proof.
  intros Hc. unfold funcPrefixLen.
  repeat match goal with
         | |- context [if ?b then _ else _] => destruct b; [discriminate |]
         end.
  intros _. cbn [schemaPrefixLen].
  destruct (Z.ltb_spec (len "") (len col)) as [| Hge]; [reflexivity |].
  apply len_pos in Hc. change (len "") with 0%Z in Hge. lia.
Qed.

Lemma funcPrefixLen_empty_function_name_panics_title :
  "title" <> "" /\
  funcPrefixLen [] "title" = Ok 0%Z /\
  funcPrefixLen ["" ; "lower"] "title" = Panic "index out of range".
Proof.
  split; [discriminate |]. split; [reflexivity |].
  apply (funcPrefixLen_empty_function_name_panics ["lower"] "title");
    [discriminate | reflexivity].
Defined.

(** ** Arguments that later passes rely on *)

Section ArgMaps.
Context {X : Externals}.

Ltac same_args := inv_ok; simpl in *;
  repeat match goal with
         | |- context [if ?b then _ else _] => destruct b
         end; reflexivity.

Lemma distinctOnCols_args children : forall sel sel',
  distinctOnCols sel children = Ok sel' -> Select.ArgMap sel' = Select.ArgMap sel.
Proof.
  induction children as [| cn children IH]; intros sel sel' E; simpl in E.
  - inv_ok. reflexivity.
  - apply bind_Ok in E as (s1 & E1 & E). apply IH in E. rewrite E.
    unfold distinctOnCol in E1. inv_ok; reflexivity.
Qed.

(** Only [search] and [find] write to [ArgMap], under their own name. *)
Lemma compileArg_args_other sel arg role sel' :
  graph.Arg.Name arg <> "search" -> graph.Arg.Name arg <> "find" ->
  compileArg sel arg role = Ok sel' ->
  Select.ArgMap sel' = Select.ArgMap sel.
Proof.
  unfold compileArg. intros Hs Hf E.
  destruct (graph.Arg.Name arg =? "id"); [unfold compileArgID in E; same_args |].
  destruct (String.eqb_spec (graph.Arg.Name arg) "search"); [contradiction |].
  destruct (graph.Arg.Name arg =? "where"); [unfold compileArgWhere in E; same_args |].
  destruct ((graph.Arg.Name arg =? "orderby") || _ || _);
    [unfold compileArgOrderBy in E; same_args |].
  destruct ((graph.Arg.Name arg =? "distinct_on") || _).
  { unfold compileArgDistinctOn in E. inv_ok.
    - apply distinctOnCols_args in E. rewrite E. unfold distinctOnCol in E0.
      inv_ok; reflexivity.
    - apply distinctOnCols_args in E. exact E. }
  destruct (graph.Arg.Name arg =? "limit"); [unfold compileArgLimit in E; same_args |].
  destruct (graph.Arg.Name arg =? "offset"); [unfold compileArgOffset in E; same_args |].
  destruct (graph.Arg.Name arg =? "first");
    [unfold compileArgFirstLast, compileArgLimit in E; same_args |].
  destruct (graph.Arg.Name arg =? "last");
    [unfold compileArgFirstLast, compileArgLimit in E; same_args |].
  destruct (graph.Arg.Name arg =? "after");
    [unfold compileArgAfterBefore in E; same_args |].
  destruct (graph.Arg.Name arg =? "before");
    [unfold compileArgAfterBefore in E; same_args |].
  destruct (String.eqb_spec (graph.Arg.Name arg) "find"); [contradiction |].
  inversion E; subst. reflexivity.
Qed.

Lemma compileArg_args_search sel arg role sel' :
  graph.Arg.Name arg = "search" ->
  compileArg sel arg role = Ok sel' ->
  Select.ArgMap sel' =
  <["search" := Arg.mk (graph.Node.Val (graph.Arg.Val arg))]> (Select.ArgMap sel).
Proof.
  intros Hs E.
  assert (H : compileArg sel arg role = compileArgSearch sel arg)
    by (unfold compileArg; rewrite Hs; reflexivity).
  rewrite H in E. unfold compileArgSearch, addArg in E. rewrite Hs in E.
  inv_ok; reflexivity.
Qed.

Lemma compileArg_args_find sel arg role sel' :
  graph.Arg.Name arg = "find" ->
  compileArg sel arg role = Ok sel' ->
  Select.ArgMap sel' =
  <["find" := Arg.mk (graph.Node.Val (graph.Arg.Val arg))]> (Select.ArgMap sel) /\
  (graph.Node.Val (graph.Arg.Val arg) = "parents" \/
   graph.Node.Val (graph.Arg.Val arg) = "children").
Proof.
  intros Hf E.
  assert (H : compileArg sel arg role = compileArgFind sel arg)
    by (unfold compileArg; rewrite Hf; reflexivity).
  rewrite H in E. unfold compileArgFind, addArg in E. rewrite Hf in E.
  destruct (sdata.DBRel.Type_ (Select.Rel sel)); try discriminate.
  destruct (String.eqb_spec (graph.Node.Val (graph.Arg.Val arg)) "parents");
    destruct (String.eqb_spec (graph.Node.Val (graph.Arg.Val arg)) "children");
    simpl in E; try discriminate; inversion E; subst; simpl; auto.
Qed.

(** After a successful [compileArgs], [ArgMap] has the key [k] exactly when
    it had it before or an argument named [k] was compiled as [search] or
    [find]. *)
Lemma compileArgs_key_set args role (k : string) : k = "search" \/ k = "find" ->
  forall sel sel',
  compileArgs sel args role = Ok sel' ->
  (is_Some (Select.ArgMap sel' !! k) <->
   is_Some (Select.ArgMap sel !! k) \/ exists a, a ∈ args /\ graph.Arg.Name a = k).
Proof.
  intros Hk. induction args as [| arg args IH]; intros sel sel' E; simpl in E.
  - inversion E; subst. split; [auto |]. intros [H | (a & Ha & _)]; [exact H |].
    apply elem_of_nil in Ha. contradiction.
  - apply bind_Ok in E as (s1 & E1 & E). rewrite (IH _ _ E). clear IH E.
    assert (H1 : is_Some (Select.ArgMap s1 !! k) <->
                 is_Some (Select.ArgMap sel !! k) \/ graph.Arg.Name arg = k).
    { destruct (decide (graph.Arg.Name arg = "search")) as [Hs | Hs].
      { rewrite (compileArg_args_search _ _ _ _ Hs E1), Hs.
        destruct (decide ("search" = k)) as [<- | Hne].
        - rewrite lookup_insert_eq. split; [auto | eauto].
        - rewrite lookup_insert_ne by exact Hne. split; [auto |].
          intros [H | H]; [exact H | contradiction]. }
      destruct (decide (graph.Arg.Name arg = "find")) as [Hf | Hf].
      { destruct (compileArg_args_find _ _ _ _ Hf E1) as [-> _]. rewrite Hf.
        destruct (decide ("find" = k)) as [<- | Hne].
        - rewrite lookup_insert_eq. split; [auto | eauto].
        - rewrite lookup_insert_ne by exact Hne. split; [auto |].
          intros [H | H]; [exact H | contradiction]. }
      rewrite (compileArg_args_other _ _ _ _ Hs Hf E1).
      split; [auto |]. intros [H | H]; [exact H |].
      destruct Hk; congruence. }
    rewrite H1. split.
    + intros [[H | H] | (a & Ha & Hn)]; [auto | right | right].
      * exists arg. split; [apply elem_of_cons; auto | exact H].
      * exists a. split; [apply elem_of_cons; auto | exact Hn].
    + intros [H | (a & Ha & Hn)]; [auto |].
      apply elem_of_cons in Ha as [-> | Ha]; [auto |]. right. eauto.
Qed.

Lemma compileArgs_findValid args role : forall sel sel',
  findValid sel -> compileArgs sel args role = Ok sel' -> findValid sel'.
Proof.
  induction args as [| arg args IH]; intros sel sel' V E; simpl in E.
  - inversion E; subst. exact V.
  - apply bind_Ok in E as (s1 & E1 & E). apply (IH _ _) in E; [exact E |].
    clear IH E. unfold findValid in *.
    destruct (decide (graph.Arg.Name arg = "search")) as [Hs | Hs].
    { rewrite (compileArg_args_search _ _ _ _ Hs E1).
      rewrite lookup_insert_ne by discriminate. exact V. }
    destruct (decide (graph.Arg.Name arg = "find")) as [Hf | Hf].
    { destruct (compileArg_args_find _ _ _ _ Hf E1) as [-> Hv].
      rewrite lookup_insert_eq. intros v Ev. inversion Ev; subst. exact Hv. }
    rewrite (compileArg_args_other _ _ _ _ Hs Hf E1). exact V.
Qed.
End ArgMaps.

(** X9. The field [search_rank] is accepted by [isFunction] exactly when one
    of the arguments that [compileArgs] compiled is named [search]:
    otherwise it is the error "no search defined". *)
Theorem search_rank_needs_search_argument {X : Externals} (functions : list string)
    (sel sel' : Select.t) (args : list graph.Arg.t) (role : string) :
  Select.ArgMap sel !! "search" = None ->
  compileArgs sel args role = Ok sel' ->
  ((exists a, a ∈ args /\ graph.Arg.Name a = "search") ->
   isFunction functions sel' "search_rank"
   = Ok (sel', Function.mk "search_rank" None sdata.DBColumn.zero "search_rank" false,
         "", false)) /\
  (~ (exists a, a ∈ args /\ graph.Arg.Name a = "search") ->
   isFunction functions sel' "search_rank" = Err "no search defined: search_rank").
Proof.
  intros H0 E.
  pose proof (compileArgs_key_set args role "search" (or_introl eq_refl) _ _ E) as K.
  rewrite H0 in K. unfold isFunction. cbn [String.eqb Ascii.eqb Bool.eqb andb].
  change ("search_rank" =? "search_rank") with true. cbv iota.
  split.
  - intros Ha. destruct (proj2 K (or_intror Ha)) as [v ->]. reflexivity.
  - intros Hn. destruct (Select.ArgMap sel' !! "search") as [v |] eqn:Ev; [| reflexivity].
    exfalso. destruct (proj1 K (ex_intro _ v eq_refl)) as [H | H]; [| exact (Hn H)].
    destruct H as [? H]. discriminate H.
Qed.

Lemma search_rank_needs_search_argument_notes :
  exists sel',
    Select.ArgMap (TestData.rootSel TestFilters.notes) !! "search" = None /\
    compileArgs (X := TestData.env) (TestData.rootSel TestFilters.notes)
                [TestFilters.argSearch] "user" = Ok sel' /\
    isFunction [] sel' "search_rank"
    = Ok (sel', Function.mk "search_rank" None sdata.DBColumn.zero "search_rank" false,
          "", false).
Proof.
  eexists. split; [reflexivity |].
  assert (E : compileArgs (X := TestData.env) (TestData.rootSel TestFilters.notes)
                [TestFilters.argSearch] "user" = Ok _) by (vm_compute; reflexivity).
  split; [exact E |].
  apply (search_rank_needs_search_argument (X := TestData.env) []
           (TestData.rootSel TestFilters.notes) _ [TestFilters.argSearch] "user"
           eq_refl E).
  exists TestFilters.argSearch. split; [apply list_elem_of_singleton; reflexivity | reflexivity].
Defined.

(** X10. A select bound by a recursive relationship passes [validateSelect]
    after [compileArgs] exactly when one of its arguments is named [find]:
    the value that [compileArgFind] stores is one that [validateSelect]
    accepts, and no other argument removes or replaces it. *)
Theorem recursive_select_needs_find {X : Externals} (sel sel' : Select.t)
    (args : list graph.Arg.t) (role : string) :
  sdata.DBRel.Type_ (Select.Rel sel) = sdata.RelRecursive ->
  Select.ArgMap sel !! "find" = None ->
  compileArgs sel args role = Ok sel' ->
  (validateSelect sel' = Ok tt <-> exists a, a ∈ args /\ graph.Arg.Name a = "find").
Proof.
  intros HR H0 E.
  pose proof (compileArgs_key_set args role "find" (or_intror eq_refl) _ _ E) as K.
  rewrite H0 in K.
  assert (V : findValid sel').
  { eapply compileArgs_findValid; [| exact E]. intros v Hv. congruence. }
  pose proof (compileArgs_rel _ _ _ _ E) as R.
  unfold validateSelect. rewrite R, HR.
  destruct (Select.ArgMap sel' !! "find") as [v |] eqn:Ev.
  - destruct (V v Ev) as [-> | ->]; simpl.
    + split; [intros _ | reflexivity].
      destruct (proj1 K (ex_intro _ v eq_refl)) as [[? H] | H]; [discriminate H | exact H].
    + split; [intros _ | reflexivity].
      destruct (proj1 K (ex_intro _ v eq_refl)) as [[? H] | H]; [discriminate H | exact H].
  - split; [discriminate |]. intros Ha.
    destruct (proj2 K (or_intror Ha)) as [? H]. discriminate H.
Qed.

Lemma recursive_select_needs_find_children :
  exists sel',
    sdata.DBRel.Type_ (Select.Rel TestFilters.recursiveSel) = sdata.RelRecursive /\
    Select.ArgMap TestFilters.recursiveSel !! "find" = None /\
    compileArgs (X := TestData.env) TestFilters.recursiveSel
                [TestFilters.argFind "children"] "user" = Ok sel' /\
    validateSelect sel' = Ok tt.
Proof.
  eexists. split; [reflexivity |]. split; [reflexivity |].
  assert (E : compileArgs (X := TestData.env) TestFilters.recursiveSel
                [TestFilters.argFind "children"] "user" = Ok _)
    by (vm_compute; reflexivity).
  split; [exact E |].
  apply (recursive_select_needs_find (X := TestData.env) TestFilters.recursiveSel _
           [TestFilters.argFind "children"] "user" eq_refl eq_refl E).
  exists (TestFilters.argFind "children").
  split; [apply list_elem_of_singleton; reflexivity | reflexivity].
Defined.

(** ** Role filters ([compileFilter]) *)

Section FilterFacts.
Variable StackItem : Type.
Variable ParseArgValue : string -> bool -> result graph.Node.t.
Variable compileArgNode :
  sdata.DBTable.t -> list StackItem -> graph.Node.t -> bool ->
  result (option Exp.t * bool * list StackItem).
Variable ti : sdata.DBTable.t.
Variable isJSON : bool.

Lemma compileFilter_from_cons v filter st fl nu :
  compileFilter_from StackItem ParseArgValue compileArgNode ti isJSON (v :: filter) st fl nu
  = if v =? "false" then Ok (Some (newExpOp OpFalse), false)
    else
      node <- ParseArgValue v isJSON ;;
      r <- compileArgNode ti st node isJSON ;;
      compileFilter_from StackItem ParseArgValue compileArgNode ti isJSON filter r.2
        (match fl with
         | None => r.1.1
         | Some _ => Some (addChild r.1.1 (newExpOp OpAnd))
         end)
        (if r.1.2 then true else nu).
Proof.
  cbn [compileFilter_from]. destruct (v =? "false"); [reflexivity |].
  destruct (ParseArgValue v isJSON); [| reflexivity ..]. cbn [bind].
  destruct (compileArgNode ti st _ isJSON) as [[[f nu1] st1] | |]; reflexivity.
Qed.

Lemma compileFilter_from_false pre post : forall st fl nu r,
  compileFilter_from StackItem ParseArgValue compileArgNode ti isJSON pre st fl nu = Ok r ->
  compileFilter_from StackItem ParseArgValue compileArgNode ti isJSON
    (pre ++ "false" :: post) st fl nu
  = Ok (Some (newExpOp OpFalse), false).
Proof.
  induction pre as [| v pre IH]; intros st fl nu r E.
  - reflexivity.
  - cbn [app compileFilter_from] in *.
    destruct (v =? "false"); [reflexivity |].
    destruct (ParseArgValue v isJSON) as [node | |]; try discriminate.
    cbn [bind] in *.
    destruct (compileArgNode ti st node isJSON) as [[[f nu1] st1] | |]; try discriminate.
    cbn [bind] in *. eapply IH. exact E.
Qed.

Lemma compileFilter_from_last filter : forall st e nu r nu',
  filter <> [] ->
  compileFilter_from StackItem ParseArgValue compileArgNode ti isJSON filter st (Some e) nu
  = Ok (r, nu') ->
  r = Some (newExpOp OpFalse) \/
  exists v st0 node f nu0 st1,
    last filter = Some v /\
    ParseArgValue v isJSON = Ok node /\
    compileArgNode ti st0 node isJSON = Ok (f, nu0, st1) /\
    r = Some (Exp.set_Children [f] (newExpOp OpAnd)).
Proof.
  induction filter as [| v filter IH]; intros st e nu r nu' Hne E; [congruence |].
  cbn [compileFilter_from] in E.
  destruct (v =? "false"); [inversion E; auto |].
  destruct (ParseArgValue v isJSON) as [node | |] eqn:EP; try discriminate.
  cbn [bind] in E.
  destruct (compileArgNode ti st node isJSON) as [[[f nu1] st1] | |] eqn:EC;
    try discriminate.
  cbn [bind] in E.
  destruct filter as [| v2 filter].
  - cbn [compileFilter_from] in E. inversion E; subst. right.
    exists v, st, node, f, nu1, st1. auto.
  - apply IH in E; [| discriminate].
    destruct E as [E | (v' & st0 & node' & f' & nu0 & st' & HL & H1 & H2 & H3)]; [auto |].
    right. exists v', st0, node', f', nu0, st'. auto.
Qed.
End FilterFacts.

(** X11. The filter text [false] ends [compileFilter]: whatever the entries
    before it compiled to and whatever follows it, the result is the node
    [OpFalse], and the needs-user flag that earlier entries raised is
    dropped. *)
Theorem compileFilter_false_wins (StackItem : Type)
    (ParseArgValue : string -> bool -> result graph.Node.t)
    (compileArgNode : sdata.DBTable.t -> list StackItem -> graph.Node.t -> bool ->
                      result (option Exp.t * bool * list StackItem))
    (ti : sdata.DBTable.t) (isJSON : bool) (pre post : list string)
    (r : option Exp.t * bool) :
  compileFilter StackItem ParseArgValue compileArgNode ti pre isJSON = Ok r ->
  compileFilter StackItem ParseArgValue compileArgNode ti (pre ++ "false" :: post) isJSON
  = Ok (Some (newExpOp OpFalse), false).
Proof.
  intros E. destruct pre as [| v pre]; [reflexivity |].
  unfold compileFilter in *. cbn [app].
  change (v :: pre ++ "false" :: post) with ((v :: pre) ++ "false" :: post).
  eapply compileFilter_from_false. exact E.
Qed.

Lemma compileFilter_false_wins_user :
  compileFilter unit TestFilters.parseArgValue TestFilters.argNode TestData.posts
    ["$user_id"] false
  = Ok (Some (Exp.set_Val "$user_id" (newExpOp OpEquals)), true) /\
  compileFilter unit TestFilters.parseArgValue TestFilters.argNode TestData.posts
    (["$user_id"] ++ "false" :: ["x"]) false
  = Ok (Some (newExpOp OpFalse), false).
Proof.
  split; [reflexivity |].
  eapply (compileFilter_false_wins unit TestFilters.parseArgValue TestFilters.argNode
            TestData.posts false ["$user_id"] ["x"]).
  reflexivity.
Defined.

(** X12. [compileFilter] does not conjoin its filters: with two or more
    entries, of which the first compiles to an expression, the result is
    either [OpFalse] or an AND node with a single child, the expression of
    the last entry; the expressions of the entries before it are dropped. *)
Theorem compileFilter_keeps_last_only (StackItem : Type)
    (ParseArgValue : string -> bool -> result graph.Node.t)
    (compileArgNode : sdata.DBTable.t -> list StackItem -> graph.Node.t -> bool ->
                      result (option Exp.t * bool * list StackItem))
    (ti : sdata.DBTable.t) (isJSON : bool) (v1 v2 : string) (rest : list string)
    (node1 : graph.Node.t) (e1 : Exp.t) (nu1 : bool) (st1 : list StackItem)
    (r : option Exp.t) (nu : bool) :
  ParseArgValue v1 isJSON = Ok node1 ->
  compileArgNode ti [] node1 isJSON = Ok (Some e1, nu1, st1) ->
  compileFilter StackItem ParseArgValue compileArgNode ti (v1 :: v2 :: rest) isJSON
  = Ok (r, nu) ->
  r = Some (newExpOp OpFalse) \/
  exists v st0 node f nu0 st',
    last (v2 :: rest) = Some v /\
    ParseArgValue v isJSON = Ok node /\
    compileArgNode ti st0 node isJSON = Ok (f, nu0, st') /\
    r = Some (Exp.set_Children [f] (newExpOp OpAnd)).
Proof.
  intros EP EC E. unfold compileFilter in E. rewrite compileFilter_from_cons in E.
  destruct (v1 =? "false"); [inversion E; auto |].
  rewrite EP in E. cbn [bind] in E. rewrite EC in E. cbn [bind fst snd] in E.
  exact (compileFilter_from_last _ _ _ _ _ (v2 :: rest) _ _ _ _ _
           (fun H => nil_cons (eq_sym H)) E).
Qed.

Lemma compileFilter_keeps_last_only_two :
  compileFilter unit TestFilters.parseArgValue TestFilters.argNode TestData.posts
    ["$user_id"; "published"] false
  = Ok (Some (Exp.set_Children [Some (Exp.set_Val "published" (newExpOp OpEquals))]
                               (newExpOp OpAnd)), true) /\
  (Some (Exp.set_Children [Some (Exp.set_Val "published" (newExpOp OpEquals))]
                          (newExpOp OpAnd)) = Some (newExpOp OpFalse) \/
   exists v st0 node f nu0 st',
     last ["published"] = Some v /\
     TestFilters.parseArgValue v false = Ok node /\
     TestFilters.argNode TestData.posts st0 node false = Ok (f, nu0, st') /\
     Some (Exp.set_Children [Some (Exp.set_Val "published" (newExpOp OpEquals))]
                            (newExpOp OpAnd))
     = Some (Exp.set_Children [f] (newExpOp OpAnd))).
Proof.
  split; [reflexivity |].
  eapply (compileFilter_keeps_last_only unit TestFilters.parseArgValue TestFilters.argNode
            TestData.posts false "$user_id" "published" []); reflexivity.
Defined.

(** ** Paths and operator names *)

Lemma fold_path_append (rest : list string) : forall p q,
  fold_left (fun b s => b +:+ "." +:+ s) rest (p +:+ q)
  = p +:+ fold_left (fun b s => b +:+ "." +:+ s) rest q.
Proof.
  induction rest as [| s rest IH]; intros p q; cbn [fold_left]; [reflexivity |].
  rewrite append_assoc. apply IH.
Qed.

Lemma fold_path_concat (rest : list string) : forall x,
  fold_left (fun b s => b +:+ "." +:+ s) rest x = String.concat "." (x :: rest).
Proof.
  induction rest as [| y rest IH]; intros x; [reflexivity |].
  change (String.concat "." (x :: y :: rest))
    with (x +:+ "." +:+ String.concat "." (y :: rest)).
  rewrite <- IH. cbn [fold_left].
  rewrite fold_path_append, fold_path_append. reflexivity.
Qed.

(** X13. [buildPath] joins the names with dots: it is [strings.Join(a, ".")]. *)
Theorem buildPath_joins_with_dots (a : list string) :
  buildPath a = String.concat "." a.
Proof.
  destruct a as [| x rest]; [reflexivity |].
  rewrite <- fold_path_concat. destruct rest; reflexivity.
Qed.

(** X14. [ExpOp.String] tells two operators apart exactly when one of them
    has a case in its [switch]: the nine operators without a case
    ([OpRegex], [OpNotRegex], [OpIRegex], [OpNotIRegex], [OpFalse],
    [OpNotDistinct], [OpDistinct], [OpEqualsTrue], [OpNotEqualsTrue]) all
    print as the empty name. *)
Theorem ExpOp_String_collisions (a b : ExpOp) :
  ExpOp_String a = ExpOp_String b <->
  a = b \/ (unnamedOp a = true /\ unnamedOp b = true).
Proof.
  split.
  - destruct a; destruct b; intros H;
      first [ left; reflexivity | right; split; reflexivity | discriminate H ].
  - intros [-> | [Ha Hb]]; [reflexivity |].
    destruct a; try discriminate Ha; destruct b; try discriminate Hb; reflexivity.
Qed.

(** ** Directives and relationship binding *)

Section NotRelated.
Context {X : Externals}.
Variable co : Compiler.

Lemma compileDirectives_not_related dirs : forall sel sel',
  compileDirectives sel dirs = Ok sel' ->
  Select.Ti sel' = Select.Ti sel /\
  Select.Table sel' = Select.Table sel /\
  Select.Joins sel' = Select.Joins sel /\
  (sdata.DBRel.Type_ (Select.Rel sel) = sdata.RelSkip \/
   (exists d, d ∈ dirs /\ graph.Directive.Name d = "not_related") ->
   sdata.DBRel.Type_ (Select.Rel sel') = sdata.RelSkip).
Proof.
  induction dirs as [| d dirs IH]; intros sel sel' E; simpl in E.
  - inversion E; subst. repeat split; auto.
    intros [H | (d & Hd & _)]; [exact H |]. apply elem_of_nil in Hd. contradiction.
  - apply bind_Ok in E as (s1 & E1 & E).
    destruct (IH _ _ E) as (T1 & T2 & T3 & T4). clear IH E.
    assert (S1 : Select.Ti s1 = Select.Ti sel /\
                 Select.Table s1 = Select.Table sel /\
                 Select.Joins s1 = Select.Joins sel /\
                 (sdata.DBRel.Type_ (Select.Rel sel) = sdata.RelSkip \/
                  graph.Directive.Name d = "not_related" ->
                  sdata.DBRel.Type_ (Select.Rel s1) = sdata.RelSkip)).
    { destruct (String.eqb_spec (graph.Directive.Name d) "not_related") as [Hn | Hn].
      - rewrite Hn in E1. simpl in E1. unfold compileDirectiveNotRelated in E1.
        inversion E1; subst. simpl. auto.
      - unfold compileDirectiveSkip, compileDirectiveInclude, compileDirectiveThrough in E1.
        assert (Select.Ti s1 = Select.Ti sel /\ Select.Table s1 = Select.Table sel /\
                Select.Joins s1 = Select.Joins sel /\ Select.Rel s1 = Select.Rel sel)
          as (? & ? & ? & HR)
          by (inv_ok; simpl; auto).
        repeat split; auto. intros [Hx | Hx]; [congruence | contradiction]. }
    destruct S1 as (S1 & S2 & S3 & S4).
    split; [congruence |]. split; [congruence |]. split; [congruence |].
    intros [H | (d' & Hd & Hn)].
    + apply T4. left. apply S4. left. exact H.
    + apply elem_of_cons in Hd as [-> | Hd].
      * apply T4. left. apply S4. right. exact Hn.
      * apply T4. right. eauto.
Qed.

Lemma addRelInfo_skip op qc sel field qc' sel' :
  sdata.DBRel.Type_ (Select.Rel sel) = sdata.RelSkip ->
  addRelInfo co op qc sel field = Ok (qc', sel') ->
  sdata.DBRel.Type_ (Select.Rel sel') = sdata.RelNone /\
  Select.Ti sel' = Select.Ti sel /\
  Select.Table sel' = Select.Table sel /\
  Select.Joins sel' = Select.Joins sel /\
  QCode.Remotes qc' = QCode.Remotes qc.
Proof.
  unfold addRelInfo. intros HR E.
  apply bind_Ok in E as (r1 & E1 & E). destruct r1 as [[qc1 psel] parentF].
  apply bind_Ok in E as (r2 & E2 & E). destruct r2 as [[sel2 childF] parentF2].
  assert (Q1 : QCode.Remotes qc1 = QCode.Remotes qc).
  { clear E E2. destruct (Select.ParentID sel =? -1)%Z; inv_ok; reflexivity. }
  assert (K2 : Select.Rel sel2 = Select.Rel sel /\ Select.Ti sel2 = Select.Ti sel /\
               Select.Table sel2 = Select.Table sel /\ Select.Joins sel2 = Select.Joins sel).
  { clear E E1. inv_ok; simpl; auto. }
  destruct K2 as (K2 & K3 & K4 & K5).
  rewrite K2, HR in E. inversion E; subst. simpl. auto.
Qed.
End NotRelated.

(** X15. A select that carries the directive [@not_related] is never bound
    to the schema: [addRelInfo] returns before [FindPath] and [Find], so the
    select keeps the table information and joins it had before its
    directives were compiled, its relationship type is [RelNone], and it is
    not counted as remote. *)
Theorem not_related_skips_schema_lookup {X : Externals} (co : Compiler)
    (op : graph.Operation.t) (qc qc' : QCode.t) (sel s1 s2 : Select.t)
    (dirs : list graph.Directive.t) (field : graph.Field.t) :
  compileDirectives sel dirs = Ok s1 ->
  (exists d, d ∈ dirs /\ graph.Directive.Name d = "not_related") ->
  addRelInfo co op qc s1 field = Ok (qc', s2) ->
  sdata.DBRel.Type_ (Select.Rel s2) = sdata.RelNone /\
  Select.Ti s2 = Select.Ti sel /\
  Select.Table s2 = Select.Table sel /\
  Select.Joins s2 = Select.Joins sel /\
  QCode.Remotes qc' = QCode.Remotes qc.
Proof.
  intros E1 Hd E2.
  apply compileDirectives_not_related in E1 as (T1 & T2 & T3 & T4).
  apply addRelInfo_skip in E2 as (R & A1 & A2 & A3 & A4); [| apply T4; right; exact Hd].
  repeat split; congruence.
Qed.

Lemma not_related_skips_schema_lookup_users :
  exists s1 qc' s2,
    compileDirectives (Select.set_ParentID (-1) Select.zero) [TestFilters.notRelated] = Ok s1 /\
    addRelInfo (X := TestData.env) TestData.co TestData.op_nested QCode.zero s1
      (TestData.root 0%Z "users" "" [] [TestFilters.notRelated] [1; 2]%Z) = Ok (qc', s2) /\
    sdata.DBRel.Type_ (Select.Rel s2) = sdata.RelNone /\
    Select.Ti s2 = sdata.DBTable.zero /\
    Select.Table s2 = "" /\
    Select.Joins s2 = [] /\
    QCode.Remotes qc' = 0%Z.
Proof.
  exists (Select.set_Rel (sdata.DBRel.set_Type_ sdata.RelSkip sdata.DBRel.zero)
            (Select.set_ParentID (-1) Select.zero)).
  eexists. eexists.
  split; [reflexivity |].
  split; [vm_compute; reflexivity |].
  eapply (not_related_skips_schema_lookup (X := TestData.env) TestData.co TestData.op_nested
            QCode.zero _ (Select.set_ParentID (-1) Select.zero) _ _
            [TestFilters.notRelated]
            (TestData.root 0%Z "users" "" [] [TestFilters.notRelated] [1; 2]%Z)).
  - reflexivity.
  - exists TestFilters.notRelated.
    split; [apply list_elem_of_singleton; reflexivity | reflexivity].
  - vm_compute; reflexivity.
Defined.

(** ** More on the arguments *)

Lemma orderByPop_fresh ti cm st : forall acc r,
  orderByPop ti cm st acc = Ok r ->
  exists obs, r = acc ++ obs /\
    Forall (fun ob => sdata.DBColumn.Name (OrderBy.Col ob) ∉ cm) obs.
Proof.
  induction st as [| node st IH]; intros acc r E; simpl in E.
  - inversion E; subst. exists []. rewrite app_nil_r. split; [reflexivity | constructor].
  - assert (E' :
      (ord <- orderOf (graph.Node.Val node) ;;
       ob <- setOrderByColName ti (OrderBy.set_Order ord OrderBy.zero) node ;;
       if bool_decide (sdata.DBColumn.Name (OrderBy.Col ob) ∈ cm)
       then Err ("duplicate column in order by: " +:+ sdata.DBColumn.Name (OrderBy.Col ob))
       else orderByPop ti cm st (acc ++ [ob])) = Ok r).
    { destruct (graph.Node.Type_ node); try discriminate; exact E. }
    clear E. apply bind_Ok in E' as (ord & Eo & E). apply bind_Ok in E as (ob & Es & E).
    destruct (bool_decide_reflect (sdata.DBColumn.Name (OrderBy.Col ob) ∈ cm)) as [| Hn];
      [discriminate |].
    apply IH in E as (obs & -> & F).
    exists (ob :: obs). rewrite <- app_assoc. split; [reflexivity |].
    constructor; assumption.
Qed.

Lemma orderBy_names (l : list OrderBy.t) : forall (init : gset string) (x : string),
  x ∈ fold_left (fun cm ob => {[ sdata.DBColumn.Name (OrderBy.Col ob) ]} ∪ cm) l init <->
  x ∈ init \/ exists ob, ob ∈ l /\ sdata.DBColumn.Name (OrderBy.Col ob) = x.
Proof.
  induction l as [| o l IH]; intros init x; cbn [fold_left].
  - split; [auto |]. intros [H | (ob & Hob & _)]; [exact H |].
    apply elem_of_nil in Hob. contradiction.
  - rewrite IH. rewrite elem_of_union, elem_of_singleton. split.
    + intros [[-> | H] | (ob & Hob & Hn)]; [right | auto | right].
      * exists o. split; [apply elem_of_cons; auto | reflexivity].
      * exists ob. split; [apply elem_of_cons; auto | exact Hn].
    + intros [H | (ob & Hob & Hn)]; [auto |].
      apply elem_of_cons in Hob as [-> | Hob]; [auto |]. right. eauto.
Qed.

(** X16. An [order_by] argument never adds a column whose name is already in
    [OrderBy]: the duplicate test of [compileArgOrderBy] covers the columns
    of earlier arguments (and only those). *)
Theorem order_by_never_repeats_earlier_column (sel sel' : Select.t) (arg : graph.Arg.t) :
  compileArgOrderBy sel arg = Ok sel' ->
  exists obs,
    Select.OrderBy sel' = Select.OrderBy sel ++ obs /\
    forall ob ob0, ob ∈ obs -> ob0 ∈ Select.OrderBy sel ->
      sdata.DBColumn.Name (OrderBy.Col ob) <> sdata.DBColumn.Name (OrderBy.Col ob0).
Proof.
  unfold compileArgOrderBy. intros E.
  destruct (graph.Node.Type_ (graph.Arg.Val arg)); try discriminate.
  apply bind_Ok in E as (obList & Ep & E). inversion E; subst sel'; clear E.
  apply orderByPop_fresh in Ep as (obs & -> & F). simpl in *.
  exists (rev obs). split; [reflexivity |].
  intros ob ob0 Hob Hob0 Heq.
  rewrite rev_alt in Hob. change (rev_append obs []) with (reverse obs) in Hob.
  apply (proj1 (elem_of_reverse _ _)) in Hob.
  rewrite Forall_forall in F. apply (F ob Hob).
  apply orderBy_names. right. exists ob0. auto.
Qed.

Lemma order_by_never_repeats_earlier_column_users :
  exists sel' obs,
    compileArgOrderBy
      (Select.set_OrderBy [OrderBy.mk TestData.users_id OrderAsc]
                          (TestData.rootSel TestData.users))
      (TestData.orderName "order_by" "desc") = Ok sel' /\
    Select.OrderBy sel' = [OrderBy.mk TestData.users_id OrderAsc] ++ obs /\
    forall ob ob0, ob ∈ obs -> ob0 ∈ [OrderBy.mk TestData.users_id OrderAsc] ->
      sdata.DBColumn.Name (OrderBy.Col ob) <> sdata.DBColumn.Name (OrderBy.Col ob0).
Proof.
  eexists.
  assert (E : compileArgOrderBy
                (Select.set_OrderBy [OrderBy.mk TestData.users_id OrderAsc]
                                    (TestData.rootSel TestData.users))
                (TestData.orderName "order_by" "desc") = Ok _)
    by (vm_compute; reflexivity).
  destruct (order_by_never_repeats_earlier_column _ _ _ E) as (obs & H1 & H2).
  exists obs. split; [exact E |]. split; [exact H1 | exact H2].
Defined.

Section Dialect.
Context {X : Externals}.

Lemma distinctOnCols_dialect children : forall sel sel',
  distinctOnCols sel children = Ok sel' ->
  Select.Ti sel' = Select.Ti sel /\
  exists cols,
    Forall2 (fun name c => sdata.GetColumn (Select.Ti sel) name = Ok c)
            (map graph.Node.Val children) cols /\
    if DBType =? "mysql"
    then Select.OrderBy sel' = Select.OrderBy sel ++ map (fun c => OrderBy.mk c OrderAsc) cols /\
         Select.DistinctOn sel' = Select.DistinctOn sel
    else Select.DistinctOn sel' = Select.DistinctOn sel ++ cols /\
         Select.OrderBy sel' = Select.OrderBy sel.
Proof.
  induction children as [| cn children IH]; intros sel sel' E; simpl in E.
  - inversion E; subst. split; [reflexivity |]. exists []. split; [constructor |].
    destruct (DBType =? "mysql"); simpl; rewrite app_nil_r; auto.
  - apply bind_Ok in E as (s1 & E1 & E).
    destruct (IH _ _ E) as (T & cols & F & D). clear IH E.
    unfold distinctOnCol in E1. apply bind_Ok in E1 as (c & Ec & E1).
    assert (T1 : Select.Ti s1 = Select.Ti sel).
    { destruct (DBType =? "mysql"); inversion E1; reflexivity. }
    split; [congruence |].
    exists (c :: cols). split.
    + simpl. constructor; [exact Ec |]. rewrite <- T1. exact F.
    + destruct (DBType =? "mysql"); inversion E1; subst s1; simpl in *;
        destruct D as [D1 D2]; rewrite D1, D2, <- app_assoc; auto.
Qed.
End Dialect.

(** X17. What [distinct_on] does depends on the database: on [mysql] the
    columns are appended to [OrderBy], ascending, and [DistinctOn] is left
    alone; on any other database they are appended to [DistinctOn] and
    [OrderBy] is left alone. The columns are those of the select's table
    named by the argument, in order. *)
Theorem distinct_on_by_dialect {X : Externals} (sel sel' : Select.t) (arg : graph.Arg.t) :
  compileArgDistinctOn sel arg = Ok sel' ->
  exists cols,
    Forall2 (fun name c => sdata.GetColumn (Select.Ti sel) name = Ok c)
            (distinctNames (graph.Arg.Val arg)) cols /\
    if DBType =? "mysql"
    then Select.OrderBy sel' = Select.OrderBy sel ++ map (fun c => OrderBy.mk c OrderAsc) cols /\
         Select.DistinctOn sel' = Select.DistinctOn sel
    else Select.DistinctOn sel' = Select.DistinctOn sel ++ cols /\
         Select.OrderBy sel' = Select.OrderBy sel.
Proof.
  unfold compileArgDistinctOn, distinctNames. intros E.
  destruct (graph.Node.Type_ (graph.Arg.Val arg)) eqn:ET; try discriminate.
  - apply bind_Ok in E as (s1 & E1 & E).
    apply distinctOnCols_dialect in E as (T & cols & F & D).
    unfold distinctOnCol in E1. apply bind_Ok in E1 as (c & Ec & E1).
    assert (T1 : Select.Ti s1 = Select.Ti sel).
    { destruct (DBType =? "mysql"); inversion E1; reflexivity. }
    exists (c :: cols). split.
    + simpl. constructor; [exact Ec |]. rewrite <- T1. exact F.
    + destruct (DBType =? "mysql"); inversion E1; subst s1; simpl in *;
        destruct D as [D1 D2]; rewrite D1, D2, <- app_assoc; auto.
  - apply distinctOnCols_dialect in E as (T & cols & F & D).
    exists cols. split; [exact F | exact D].
Qed.

Lemma distinct_on_by_dialect_posts :
  exists sel' cols,
    compileArgDistinctOn (X := TestData.env) (TestData.rootSel TestData.posts)
      TestFilters.argDistinct = Ok sel' /\
    Select.DistinctOn sel' = [TestData.posts_title; TestData.posts_id] /\
    Forall2 (fun name c => sdata.GetColumn TestData.posts name = Ok c)
            (distinctNames (graph.Arg.Val TestFilters.argDistinct)) cols /\
    Select.DistinctOn sel' = [] ++ cols /\
    Select.OrderBy sel' = [].
Proof.
  eexists.
  assert (E : compileArgDistinctOn (X := TestData.env) (TestData.rootSel TestData.posts)
                TestFilters.argDistinct = Ok _) by (vm_compute; reflexivity).
  destruct (distinct_on_by_dialect (X := TestData.env) _ _ _ E) as (cols & H1 & H2).
  exists cols. split; [exact E |]. split; [reflexivity |]. split; [exact H1 | exact H2].
Defined.

Section Singular.
Context {X : Externals}.

Ltac singular_step HS E :=
  simpl in E; rewrite ?HS in E; simpl in E; inv_ok; simpl in *;
  repeat match goal with
         | |- context [if ?b then _ else _] => destruct b
         end;
  simpl; auto.

Lemma distinctOnCols_singular children : forall sel sel',
  distinctOnCols sel children = Ok sel' ->
  Select.Singular sel' = Select.Singular sel /\ Select.Paging sel' = Select.Paging sel.
Proof.
  induction children as [| cn children IH]; intros sel sel' E; simpl in E.
  - inv_ok. auto.
  - apply bind_Ok in E as (s1 & E1 & E). apply IH in E as [-> ->].
    unfold distinctOnCol in E1. inv_ok; auto.
Qed.

Lemma compileArgLimit_singular sel arg sel' :
  compileArgLimit sel arg = Ok sel' ->
  Select.Singular sel' = Select.Singular sel /\
  Paging.Cursor (Select.Paging sel') = Paging.Cursor (Select.Paging sel).
Proof. unfold compileArgLimit. intros E. inv_ok; simpl; auto. Qed.

Lemma compileArgFirstLast_singular sel arg order sel' :
  Select.Singular sel = true ->
  compileArgFirstLast sel arg order = Ok sel' ->
  Select.Singular sel' = true /\
  Paging.Cursor (Select.Paging sel') = Paging.Cursor (Select.Paging sel).
Proof.
  unfold compileArgFirstLast. intros HS E.
  apply bind_Ok in E as (s1 & E1 & E).
  apply compileArgLimit_singular in E1 as [A B].
  rewrite A, HS in E. simpl in E. inversion E; subst. simpl. split; congruence.
Qed.

Lemma compileArg_singular sel arg role sel' :
  Select.Singular sel = true ->
  compileArg sel arg role = Ok sel' ->
  Select.Singular sel' = true /\
  Paging.Cursor (Select.Paging sel') = Paging.Cursor (Select.Paging sel).
Proof.
  unfold compileArg. intros HS E.
  repeat match type of E with
         | (if ?b then _ else _) = _ => destruct b
         end.
  - unfold compileArgID in E. singular_step HS E.
  - unfold compileArgSearch, addArg in E. singular_step HS E.
  - unfold compileArgWhere in E. singular_step HS E.
  - unfold compileArgOrderBy in E. singular_step HS E.
  - unfold compileArgDistinctOn in E. inv_ok.
    + apply distinctOnCols_singular in E as [-> ->].
      unfold distinctOnCol in E0. inv_ok; simpl; auto.
    + apply distinctOnCols_singular in E as [-> ->]. auto.
  - apply compileArgLimit_singular in E as [-> ->]. auto.
  - unfold compileArgOffset in E. singular_step HS E.
  - eapply compileArgFirstLast_singular; eauto.
  - eapply compileArgFirstLast_singular; eauto.
  - unfold compileArgAfterBefore in E. singular_step HS E.
  - unfold compileArgAfterBefore in E. singular_step HS E.
  - unfold compileArgFind, addArg in E. singular_step HS E.
  - inv_ok. auto.
Qed.
End Singular.

(** X18. A select that is already singular (by [@object] or by an [id]
    argument that came earlier) never gets cursor paging: [first], [last],
    [after] and [before] leave [Paging.Cursor] as it was, and no argument
    makes the select plural again. *)
Theorem singular_select_gets_no_cursor {X : Externals} (sel sel' : Select.t)
    (args : list graph.Arg.t) (role : string) :
  Select.Singular sel = true ->
  compileArgs sel args role = Ok sel' ->
  Select.Singular sel' = true /\
  Paging.Cursor (Select.Paging sel') = Paging.Cursor (Select.Paging sel).
Proof.
  revert sel. induction args as [| arg args IH]; intros sel HS E; simpl in E.
  - inversion E; subst. auto.
  - apply bind_Ok in E as (s1 & E1 & E).
    apply compileArg_singular in E1 as [H1 H2]; [| exact HS].
    destruct (IH _ H1 E) as [H3 H4]. split; [exact H3 | congruence].
Qed.

Lemma singular_select_gets_no_cursor_posts :
  exists sel',
    compileArgs (X := TestData.env)
      (Select.set_Singular true (TestData.rootSel TestData.posts))
      [TestData.argFirst; TestData.argAfter] "user" = Ok sel' /\
    Select.Singular sel' = true /\
    Paging.Cursor (Select.Paging sel') = false.
Proof.
  eexists. split; [vm_compute; reflexivity |].
  eapply (singular_select_gets_no_cursor (X := TestData.env)
            (Select.set_Singular true (TestData.rootSel TestData.posts)) _
            [TestData.argFirst; TestData.argAfter] "user").
  - reflexivity.
  - vm_compute; reflexivity.
Defined.

(** ** The work stack of [compileQuery] *)

Lemma pushRoots_app a b st : pushRoots (a ++ b) st = pushRoots b (pushRoots a st).
Proof. unfold pushRoots. apply fold_left_app. Qed.

Lemma pushRoots_none post : forall st,
  Forall (fun g => isRootField g = false) post -> pushRoots post st = st.
Proof.
  induction post as [| g post IH]; intros st F; [reflexivity |].
  inversion F; subst. unfold pushRoots in *. cbn [fold_left].
  unfold isRootField in *.
  match goal with H : (_ =? _)%Z = false |- _ => rewrite H end.
  apply IH. assumption.
Qed.

Lemma rootEntry_field_id (id : Z) :
  (0 <= id < 65536)%Z -> Z.land (Z.lor id (Z.shiftl (-1) 16)) 0xFFFF = id.
Proof.
  intros Hid. apply Z.bits_inj'. intros n Hn.
  rewrite Z.land_spec, Z.lor_spec, Z.shiftl_spec by lia.
  change 65535%Z with (Z.ones 16).
  destruct (Z.ltb_spec n 16) as [Hlt | Hge].
  - rewrite Z.ones_spec_low by lia. rewrite (Z.testbit_neg_r (-1)) by lia.
    rewrite orb_false_r, andb_true_r. reflexivity.
  - rewrite Z.ones_spec_high by lia. rewrite andb_false_r.
    destruct (Z.eq_dec id 0) as [-> | Hnz]; [rewrite Z.bits_0; reflexivity |].
    symmetry. apply Z.bits_above_log2; [lia |].
    assert (Z.log2 id < 16)%Z by (apply Z.log2_lt_pow2; lia). lia.
Qed.

(** X19. The roots are compiled last to first: after the root fields are
    pushed, the top of the work stack is the entry of the last root field of
    the operation, below it the stack of the fields before it, and the loop
    reads the id of that field back from the entry (for ids below 2^16). *)
Theorem pushRoots_last_root_first (pre post : list graph.Field.t) (f : graph.Field.t) :
  isRootField f = true ->
  Forall (fun g => isRootField g = false) post ->
  (0 <= graph.Field.ID f < 65536)%Z ->
  pushRoots (pre ++ f :: post) [] = rootEntry f :: pushRoots pre [] /\
  Z.land (rootEntry f) 0xFFFF = graph.Field.ID f.
Proof.
  intros Hr Hp Hid. split.
  - rewrite pushRoots_app.
    change (f :: post) with ([f] ++ post). rewrite pushRoots_app.
    rewrite pushRoots_none by exact Hp.
    unfold pushRoots at 1. cbn [fold_left]. unfold isRootField in Hr. rewrite Hr.
    reflexivity.
  - unfold rootEntry. apply rootEntry_field_id. exact Hid.
Qed.

Lemma pushRoots_last_root_first_many :
  isRootField (TestData.root 2%Z "users" "u1" [] [] [3%Z]) = true /\
  pushRoots (graph.Operation.Fields (TestData.op_many 2)) []
  = rootEntry (TestData.root 2%Z "users" "u1" [] [] [3%Z])
    :: pushRoots [TestData.root 0%Z "users" "u0" [] [] [1%Z]; TestData.sub 1%Z 0%Z "id" []] [] /\
  Z.land (rootEntry (TestData.root 2%Z "users" "u1" [] [] [3%Z])) 0xFFFF = 2%Z.
Proof.
  split; [reflexivity |].
  apply (pushRoots_last_root_first
           [TestData.root 0%Z "users" "u0" [] [] [1%Z]; TestData.sub 1%Z 0%Z "id" []]
           [TestData.sub 3%Z 2%Z "id" []]
           (TestData.root 2%Z "users" "u1" [] [] [3%Z])).
  - reflexivity.
  - constructor; [reflexivity | constructor].
  - simpl. lia.
Defined.

(** ** Relationships of a table ([addRels]) *)

Section RelEdges.
Import sdata.
Variable Find : DBSchema.t (list EdgeReq) -> string -> string -> result DBTable.t.

Lemma addRels_log s t s' :
  schema.addRels logEdge Find s t = Ok s' ->
  exists pre es,
    DBSchema.rg s' = DBSchema.rg s ++ pre ++ es /\
    Forall2 (fun c e => fkeyEdge s t c e /\ typedByName e)
            (List.filter hasFKey (DBTable.Columns t)) es /\
    match schema.tableRelType (DBTable.Type_ t) with
    | None => pre = []
    | Some ty =>
      exists target tc,
        kindTarget Find s t target tc /\
        pre = [{| lti := t; lcol := DBTable.PrimaryCol t; rti := target; rcol := tc;
                  rt := ty |}]
    end.
Proof.
  unfold schema.addRels, schema.tableRelType, kindTarget. intros E.
  apply bind_Ok in E as (s1 & E1 & E).
  assert (H1 : DBSchema.tables s1 = DBSchema.tables s /\
               DBSchema.tindex s1 = DBSchema.tindex s /\
               exists pre,
                 DBSchema.rg s1 = DBSchema.rg s ++ pre /\
                 match (if (DBTable.Type_ t =? "json") || (DBTable.Type_ t =? "jsonb")
                        then Some RelEmbedded
                        else if DBTable.Type_ t =? "virtual" then Some RelPolymorphic
                        else if DBTable.Type_ t =? "remote" then Some RelRemote
                        else None) with
                 | None => pre = []
                 | Some ty =>
                   exists target tc,
                     (if (DBTable.Type_ t =? "json") || (DBTable.Type_ t =? "jsonb")
                      then Find s (DBColumn.Schema (DBTable.SecondaryCol t))
                                  (DBColumn.Table (DBTable.SecondaryCol t)) = Ok target /\
                           GetColumn target (DBColumn.Name (DBTable.SecondaryCol t)) = Ok tc
                      else Find s (DBColumn.FKeySchema (DBTable.PrimaryCol t))
                                  (DBColumn.FKeyTable (DBTable.PrimaryCol t)) = Ok target /\
                           GetColumn target (DBColumn.FKeyCol (DBTable.PrimaryCol t)) = Ok tc)
                     /\
                     pre = [{| lti := t; lcol := DBTable.PrimaryCol t; rti := target;
                               rcol := tc; rt := ty |}]
                 end).
  { unfold schema.addJsonRel, schema.addPolymorphicRel, schema.addRemoteRel, logEdge in E1.
    destruct ((DBTable.Type_ t =? "json") || (DBTable.Type_ t =? "jsonb")).
    { apply bind_Ok in E1 as (st & Ef & E1). apply bind_Ok in E1 as (sc & Ec & E1).
      inversion E1; subst s1. simpl. split; [reflexivity |]. split; [reflexivity |].
      eexists. split; [reflexivity |]. eauto. }
    destruct (DBTable.Type_ t =? "virtual").
    { apply bind_Ok in E1 as (st & Ef & E1). apply bind_Ok in E1 as (sc & Ec & E1).
      inversion E1; subst s1. simpl. split; [reflexivity |]. split; [reflexivity |].
      eexists. split; [reflexivity |]. eauto. }
    destruct (DBTable.Type_ t =? "remote").
    { apply bind_Ok in E1 as (st & Ef & E1). apply bind_Ok in E1 as (sc & Ec & E1).
      inversion E1; subst s1. simpl. split; [reflexivity |]. split; [reflexivity |].
      eexists. split; [reflexivity |]. eauto. }
    inversion E1; subst s1. split; [reflexivity |]. split; [reflexivity |].
    exists []. rewrite app_nil_r. auto. }
  destruct H1 as (Ht & Hi & pre & Hpre & Hty).
  unfold addColumnRels in E.
  apply (addColumnRels_from_edges s) in E as (es & Hrg & F); [| exact Ht | exact Hi].
  exists pre, es. rewrite Hrg, Hpre, <- app_assoc.
  split; [reflexivity |]. split; [| exact Hty].
  eapply Forall2_impl; [exact F |]. intros c e (H1 & H2 & _). auto.
Qed.
End RelEdges.

(** X20. The edges that [addRels] inserts for a table, in order. First at
    most one edge for the kind of the table ([RelEmbedded] for [json] and
    [jsonb], [RelPolymorphic] for [virtual], [RelRemote] for [remote], none
    for any other kind), from the primary column of the table to the table
    and column that [Find] and [GetColumn] give for the kind. Then the edges
    of [addColumnRels]: one for each column with a foreign-key target, in
    column order, from the column to the table that the table index holds
    for the target and to the column of that table which [getColumn] gives;
    its type is recursive when the name of the target table is the name of
    the table, else one-to-one when the target column is a unique key, else
    one-to-many. *)
Theorem addRels_edges
    (Find : sdata.DBSchema.t (list sdata.EdgeReq) -> string -> string ->
            result sdata.DBTable.t)
    (s s' : sdata.DBSchema.t (list sdata.EdgeReq)) (t : sdata.DBTable.t) :
  schema.addRels sdata.logEdge Find s t = Ok s' ->
  exists pre es,
    sdata.DBSchema.rg s' = sdata.DBSchema.rg s ++ pre ++ es /\
    Forall2 (fun c e => fkeyEdge s t c e /\ typedByName e)
            (List.filter hasFKey (sdata.DBTable.Columns t)) es /\
    match schema.tableRelType (sdata.DBTable.Type_ t) with
    | None => pre = []
    | Some ty =>
      exists target tc,
        kindTarget Find s t target tc /\
        pre = [{| sdata.lti := t; sdata.lcol := sdata.DBTable.PrimaryCol t;
                  sdata.rti := target; sdata.rcol := tc; sdata.rt := ty |}]
    end.
Proof. apply addRels_log. Qed.

(** On the test schema: the remote table [payments] gets its remote edge to
    [users.id] and then the edge of its foreign key [user_id], which is
    one-to-one. *)
Lemma addRels_edges_payments :
  exists s' pre es,
    schema.addRels sdata.logEdge TestFilters.findIn TestData.schema TestData2.payments
    = Ok s' /\
    sdata.DBSchema.rg s'
    = [{| sdata.lti := TestData2.payments; sdata.lcol := TestData2.payments_user;
          sdata.rti := TestData.users; sdata.rcol := TestData.users_id;
          sdata.rt := sdata.RelRemote |};
       {| sdata.lti := TestData2.payments; sdata.lcol := TestData2.payments_user;
          sdata.rti := TestData.users; sdata.rcol := TestData.users_id;
          sdata.rt := sdata.RelOneToOne |}] /\
    List.filter hasFKey (sdata.DBTable.Columns TestData2.payments)
    = [TestData2.payments_user] /\
    sdata.DBSchema.rg s' = sdata.DBSchema.rg TestData.schema ++ pre ++ es /\
    Forall2 (fun c e => fkeyEdge TestData.schema TestData2.payments c e /\ typedByName e)
            (List.filter hasFKey (sdata.DBTable.Columns TestData2.payments)) es /\
    exists target tc,
      kindTarget TestFilters.findIn TestData.schema TestData2.payments target tc /\
      pre = [{| sdata.lti := TestData2.payments;
                sdata.lcol := sdata.DBTable.PrimaryCol TestData2.payments;
                sdata.rti := target; sdata.rcol := tc; sdata.rt := sdata.RelRemote |}].
Proof.
  eexists.
  assert (E : schema.addRels sdata.logEdge TestFilters.findIn TestData.schema
                TestData2.payments = Ok _) by (vm_compute; reflexivity).
  destruct (addRels_edges _ _ _ _ E) as (pre & es & H1 & H2 & H3).
  exists pre, es. split; [exact E |]. split; [reflexivity |]. split; [reflexivity |].
  split; [exact H1 |]. split; [exact H2 | exact H3].
Defined.
